(** * Operon core: expression trees, datasets, tree creators, selection and
      non-dominated sorting.

    A shallow embedding of the C++ sources

      - [src/core/tree.cpp]                (Tree::UpdateNodes, coefficients)
      - [src/core/dataset.cpp]             (Dataset lookups and mutators)
      - [src/operators/creator/ptc2.cpp]   (ProbabilisticTreeCreator)
      - [src/operators/creator/balanced.cpp] (BalancedTreeCreator)
      - [src/operators/selector/proportional.cpp]
      - [src/operators/non_dominated_sorter/hierarchical_sort.cpp]
      - [include/operon/random/jsf.hpp]    (the 64 bit Jenkins generator)

    Conventions.  [size_t] and [uint16_t] values are integers in [Z] and
    every place where the C++ arithmetic can wrap carries an explicit
    [size_t] or [uint16].  [Operon::Scalar] is modelled by exact rationals
    kept in lowest terms, so every statement about scalar values is a
    statement in exact arithmetic: the floating-point operations of the
    code round, and may overflow, where the model does not.  A result that
    IEEE arithmetic would report as NaN or infinity is the outcome
    [not_representable]: the C++ code goes on with such a value, the model
    stops there and says nothing about what follows.  An access outside
    a vector (undefined behaviour in C++) is the outcome
    [index_out_of_range].  Loops whose trip count is not known in advance
    take fuel and report [OutOfFuel] when it is used up. *)

From Stdlib Require Import ZArith QArith List Lia Bool String Ascii.
From Stdlib Require Import Decimal DecimalString Permutation Qfield Lqa.
From stdpp Require Import base list.

Open Scope Z_scope.

(* ================================================================== *)
(** * Part I: the model                                                *)
(* ================================================================== *)

(** ** Scalars and machine integers *)

Definition Scalar := Q.

Definition scalar_add (a b : Scalar) : Scalar := Qred (a + b).
Definition scalar_sub (a b : Scalar) : Scalar := Qred (a - b).
Definition scalar_mul (a b : Scalar) : Scalar := Qred (a * b).
Definition scalar_div (a b : Scalar) : Scalar := Qred (a / b).
Definition scalar_lt (a b : Scalar) : bool := negb (Qle_bool b a).
(** [std::min(a, b)] is [(b < a) ? b : a]; [std::max(a, b)] is [(a < b) ? b : a]. *)
Definition scalar_min (a b : Scalar) : Scalar := if scalar_lt b a then b else a.
Definition scalar_max (a b : Scalar) : Scalar := if scalar_lt a b then b else a.
Definition scalar_is_zero (a : Scalar) : bool := Qeq_bool a 0.

(** [std::numeric_limits<float>::epsilon()]. *)
Definition epsilon : Scalar := (1 # 8388608)%Q.

Definition uint16 (z : Z) : Z := z mod 65536.
Definition size_t (z : Z) : Z := z mod 18446744073709551616.
Definition SIZE_MAX : Z := 18446744073709551615.

(** ** Outcomes *)

Inductive Error :=
  | runtime_error (what : string)
  | contract_violation
  | index_out_of_range
  | not_representable.

Inductive Result (A : Type) :=
  | Ok (a : A)
  | Throw (e : Error)
  | OutOfFuel.

Arguments Ok {A} a.
Arguments Throw {A} e.
Arguments OutOfFuel {A}.

Definition result_bind {A B : Type} (r : Result A) (k : A -> Result B) : Result B :=
  match r with
  | Ok a => k a
  | Throw e => Throw e
  | OutOfFuel => OutOfFuel
  end.

(** ** Random numbers

    The standard distributions are implementation defined, so the model takes
    them as an interface.  Each draw returns the value and the advanced
    generator.  The two laws are the ranges the C++ standard promises. *)

Class RandomSource (RandomGenerator : Type) := {
  uniform_int : Z -> Z -> RandomGenerator -> Z * RandomGenerator;
  uniform_real : Scalar -> Scalar -> RandomGenerator -> Scalar * RandomGenerator;
  normal_real : RandomGenerator -> Scalar * RandomGenerator;
  bernoulli : Scalar -> RandomGenerator -> bool * RandomGenerator;
  discrete : list Z -> RandomGenerator -> nat * RandomGenerator;
  shuffle_indices : list nat -> RandomGenerator -> list nat * RandomGenerator;
  uniform_int_range : forall lo hi g,
    lo <= hi -> lo <= fst (uniform_int lo hi g) <= hi;
  discrete_range : forall ws g,
    ws <> [] -> (fst (discrete ws g) < length ws)%nat
}.

(** Computations that consume randomness and may fail. *)
Definition Gen (RG A : Type) : Type := RG -> Result (A * RG).

Definition gen_ret {RG A : Type} (a : A) : Gen RG A := fun g => Ok (a, g).

Definition gen_bind {RG A B : Type} (c : Gen RG A) (k : A -> Gen RG B) : Gen RG B :=
  fun g => match c g with
           | Ok (a, g') => k a g'
           | Throw e => Throw e
           | OutOfFuel => OutOfFuel
           end.

Definition gen_throw {RG A : Type} (e : Error) : Gen RG A := fun _ => Throw e.

Definition gen_draw {RG A : Type} (f : RG -> A * RG) : Gen RG A := fun g => Ok (f g).

Definition gen_lift {RG A : Type} (r : Result A) : Gen RG A :=
  fun g => match r with
           | Ok a => Ok (a, g)
           | Throw e => Throw e
           | OutOfFuel => OutOfFuel
           end.

Declare Scope gen_scope.
Delimit Scope gen_scope with gen.
Notation "'let*' x ':=' c 'in' k" := (gen_bind c (fun x => k))
  (at level 10, x pattern, c at level 100, k at level 200) : gen_scope.

(** ** The 64 bit Jenkins small fast generator ([jsf.hpp]) *)

Module Jsf64.

Definition word (z : Z) : Z := z mod 18446744073709551616.

Definition rotl (x k : Z) : Z :=
  word (Z.lor (Z.shiftl x k) (Z.shiftr x (64 - k))).

Record state := mk { a : Z; b : Z; c : Z; d : Z }.

Definition prng64 (s : state) : Z * state :=
  let e := word (a s - rotl (b s) 7) in
  let a' := Z.lxor (b s) (rotl (c s) 13) in
  let b' := word (c s + rotl (d s) 37) in
  let c' := word (d s + e) in
  let d' := word (e + a') in
  (d', mk a' b' c' d').

Fixpoint warmup (n : nat) (s : state) : state :=
  match n with
  | O => s
  | S n' => warmup n' (snd (prng64 s))
  end.

Definition seed (v : Z) : state :=
  warmup 20 (mk 4058668781 (word v) (word v) (word v)).

End Jsf64.

(** ** Nodes and trees ([tree.cpp]) *)

(** Modelled from the spec: [NodeType] of core/node.hpp, which is not among
    the sources; "tag from a closed set {constant, variable, add, sub, mul,
    div, aq, pow, exp, log, sin, cos, tan, sqrt, cbrt, square}". *)
Inductive NodeType :=
  | Add | Mul | Sub | Div | Aq | Pow | Log | Exp | Sin | Cos | Tan
  | Sqrt | Cbrt | Square | Constant | Variable_.

(** Modelled from the spec: [Node] of core/node.hpp, with the fields of the
    spec's data model.  [Arity], [Length], [Depth], [Level] and [Parent] are
    [uint16_t], as the casts in tree.cpp show. *)
Record Node := mkNode {
  Type_ : NodeType;
  Arity : Z;
  Length : Z;
  Depth : Z;
  Level : Z;
  Parent : Z;
  HashValue : Z;
  CalculatedHashValue : Z;
  Value : Scalar;
  IsEnabled : bool;
  Optimize : bool
}.

Definition default_Node : Node :=
  mkNode Constant 0 0 0 0 0 0 0 0%Q false false.

(** Modelled from the spec: [Node::IsLeaf], "arity: declared child count (0
    for leaves)". *)
Definition IsLeaf (s : Node) : bool := Arity s =? 0.

(** Modelled from the spec: [Node::IsVariable], the node's tag is the
    variable tag. *)
Definition IsVariable (s : Node) : bool :=
  match Type_ s with Variable_ => true | _ => false end.

Definition set_Arity (s : Node) (v : Z) : Node :=
  mkNode (Type_ s) v (Length s) (Depth s) (Level s) (Parent s) (HashValue s)
         (CalculatedHashValue s) (Value s) (IsEnabled s) (Optimize s).
Definition set_Length (s : Node) (v : Z) : Node :=
  mkNode (Type_ s) (Arity s) v (Depth s) (Level s) (Parent s) (HashValue s)
         (CalculatedHashValue s) (Value s) (IsEnabled s) (Optimize s).
Definition set_Depth (s : Node) (v : Z) : Node :=
  mkNode (Type_ s) (Arity s) (Length s) v (Level s) (Parent s) (HashValue s)
         (CalculatedHashValue s) (Value s) (IsEnabled s) (Optimize s).
Definition set_Level (s : Node) (v : Z) : Node :=
  mkNode (Type_ s) (Arity s) (Length s) (Depth s) v (Parent s) (HashValue s)
         (CalculatedHashValue s) (Value s) (IsEnabled s) (Optimize s).
Definition set_Parent (s : Node) (v : Z) : Node :=
  mkNode (Type_ s) (Arity s) (Length s) (Depth s) (Level s) v (HashValue s)
         (CalculatedHashValue s) (Value s) (IsEnabled s) (Optimize s).
Definition set_HashValue (s : Node) (v : Z) : Node :=
  mkNode (Type_ s) (Arity s) (Length s) (Depth s) (Level s) (Parent s) v
         (CalculatedHashValue s) (Value s) (IsEnabled s) (Optimize s).
Definition set_CalculatedHashValue (s : Node) (v : Z) : Node :=
  mkNode (Type_ s) (Arity s) (Length s) (Depth s) (Level s) (Parent s) (HashValue s)
         v (Value s) (IsEnabled s) (Optimize s).
Definition set_Value (s : Node) (v : Scalar) : Node :=
  mkNode (Type_ s) (Arity s) (Length s) (Depth s) (Level s) (Parent s) (HashValue s)
         (CalculatedHashValue s) v (IsEnabled s) (Optimize s).

(** A tree is its node vector, in postfix order. *)
Abbreviation Tree := (list Node).

(** [v[j]] for a [size_t] index; outside the vector there is no value. *)
Definition at_ {A : Type} (v : list A) (j : Z) : option A :=
  if (0 <=? j) && (j <? Z.of_nat (length v)) then v !! Z.to_nat j else None.

(** The child loop of [UpdateNodes] (lines 26-32): [k] iterations left, [s] is
    [nodes[i]] and [p] is [nodes[j]], both updated in place. *)
Fixpoint UpdateNodes_children (k : nat) (i : nat) (j : Z) (nodes : list Node)
  : option (list Node) :=
  match k with
  | O => Some nodes
  | S k' =>
      p ← at_ nodes j;
      s ← nodes !! i;
      let s' := set_Depth (set_Length s (uint16 (Length s + Length p)))
                          (Z.max (Depth s) (Depth p)) in
      let p' := set_Parent p (uint16 (Z.of_nat i)) in
      UpdateNodes_children k' i (size_t (j - (Length p + 1)))
        (<[Z.to_nat j := p']> (<[i := s']> nodes))
  end.

(** One iteration of the first loop of [UpdateNodes] (lines 18-33). *)
Definition UpdateNodes_node (i : nat) (nodes : list Node) : option (list Node) :=
  s ← nodes !! i;
  let s1 := set_Length (set_Depth s 1) (Arity s) in
  let nodes1 := <[i := s1]> nodes in
  if IsLeaf s1 then Some nodes1
  else
    nodes2 ← UpdateNodes_children (Z.to_nat (Arity s1)) i
                (size_t (Z.of_nat i - 1)) nodes1;
    s2 ← nodes2 !! i;
    Some (<[i := set_Depth s2 (uint16 (Depth s2 + 1))]> nodes2).

Fixpoint UpdateNodes_loop (idxs : list nat) (nodes : list Node) : option (list Node) :=
  match idxs with
  | [] => Some nodes
  | i :: idxs' => nodes' ← UpdateNodes_node i nodes; UpdateNodes_loop idxs' nodes'
  end.

(** One iteration of the second loop (line 38). *)
Definition UpdateNodes_level (idx : nat) (nodes : list Node) : option (list Node) :=
  s ← nodes !! idx;
  p ← at_ nodes (Parent s);
  Some (<[idx := set_Level s (uint16 (Level p + 1))]> nodes).

Fixpoint UpdateNodes_levels (idxs : list nat) (nodes : list Node) : option (list Node) :=
  match idxs with
  | [] => Some nodes
  | i :: idxs' => nodes' ← UpdateNodes_level i nodes; UpdateNodes_levels idxs' nodes'
  end.

(** [Tree::UpdateNodes].  [None] stands for an access outside the vector. *)
Definition UpdateNodes (nodes : list Node) : option (list Node) :=
  let n := length nodes in
  nodes1 ← UpdateNodes_loop (seq 0 n) nodes;
  root ← nodes1 !! (n - 1)%nat;
  let nodes2 := <[(n - 1)%nat := set_Level root 1]> nodes1 in
  UpdateNodes_levels (rev (seq 0 (n - 1))) nodes2.

(** Modelled from the spec: the child iterator [Tree::Children] of tree.hpp,
    which is not among the sources.  The spec describes it as "yielding child
    indices of i in the order they appear in the postfix array, via the same
    back-jump walk": start at [i - 1] and jump back [child.length + 1] slots. *)
Fixpoint Children_walk (k : nat) (j : Z) (nodes : list Node) : option (list nat) :=
  match k with
  | O => Some []
  | S k' =>
      p ← at_ nodes j;
      cs ← Children_walk k' (size_t (j - (Length p + 1))) nodes;
      Some (Z.to_nat j :: cs)
  end.

(** [Tree::ChildIndices]. *)
Definition ChildIndices (nodes : list Node) (i : nat) : option (list nat) :=
  s ← nodes !! i;
  if IsLeaf s then Some []
  else Children_walk (Z.to_nat (Arity s)) (size_t (Z.of_nat i - 1)) nodes.

(** [Tree::GetCoefficients]: the loop pushes the value of every leaf. *)
Fixpoint GetCoefficients_loop (nodes : list Node) (coefficients : list Scalar)
  : list Scalar :=
  match nodes with
  | [] => coefficients
  | s :: rest =>
      GetCoefficients_loop rest
        (if IsLeaf s then coefficients ++ [Value s] else coefficients)
  end.

Definition GetCoefficients (nodes : list Node) : list Scalar :=
  GetCoefficients_loop nodes [].

(** [Tree::SetCoefficients]: [idx] is the running index into the span. *)
Fixpoint SetCoefficients_loop (nodes : list Node) (coefficients : list Scalar)
  (idx : nat) : option (list Node) :=
  match nodes with
  | [] => Some []
  | s :: rest =>
      if IsLeaf s then
        c ← coefficients !! idx;
        rest' ← SetCoefficients_loop rest coefficients (S idx);
        Some (set_Value s c :: rest')
      else
        rest' ← SetCoefficients_loop rest coefficients idx;
        Some (s :: rest')
  end.

Definition SetCoefficients (nodes : list Node) (coefficients : list Scalar)
  : option (list Node) :=
  SetCoefficients_loop nodes coefficients 0.

(** *** Postfix layouts, stated on the arities alone *)

Definition arities (nodes : list Node) : list nat :=
  map (fun s => Z.to_nat (Arity s)) nodes.

(** Reading the arities left to right with a counter of finished subtrees:
    a node of arity [a] needs [a] finished subtrees and leaves one. *)
Fixpoint postfix_height (h : nat) (ar : list nat) : option nat :=
  match ar with
  | [] => Some h
  | a :: ar' => if (a <=? h)%nat then postfix_height (h - a + 1) ar' else None
  end.

Definition node_wf (s : Node) : bool := (0 <=? Arity s) && (Arity s <? 65536).

(** A valid postfix layout of one tree in this representation: the arities fit
    their 16 bit field, the node count fits the 16 bit [Length] and [Parent]
    fields (at most 65535 descendants), and the arities close to one root. *)
Definition valid_postfix (nodes : list Node) : bool :=
  forallb node_wf nodes &&
  (Z.of_nat (length nodes) <=? 65536) &&
  match postfix_height 0 (arities nodes) with Some 1%nat => true | _ => false end.

(** Reading right to left from a node: [span l need] is the number of nodes
    that make up the next [need] complete subtrees of the reversed prefix. *)
Fixpoint span (l : list nat) (need : nat) : option nat :=
  match l with
  | [] => match need with O => Some O | S _ => None end
  | a :: l' => match need with O => Some O | S m => S <$> span l' (m + a) end
  end.

Definition subtree_size (ar : list nat) (i : nat) : option nat :=
  span (rev (take (S i) ar)) 1.

(** The index of the first (leftmost) node of the subtree rooted at [i]. *)
Definition first_descendant_index (nodes : list Node) (i : nat) : option nat :=
  sz ← subtree_size (arities nodes) i; Some (S i - sz)%nat.

Definition child_length (nodes : list Node) (c : nat) : Z :=
  from_option Length 0 (nodes !! c).

(** The sum over the children [cs] of [child.Length + 1]. *)
Definition sum_child_lengths (nodes : list Node) (cs : list nat) : Z :=
  foldr (fun c acc => child_length nodes c + 1 + acc) 0 cs.

Definition leaf_count (nodes : list Node) : nat :=
  length (filter (fun s => IsLeaf s = true) nodes).

(** ** Datasets ([dataset.cpp]) *)

(** Modelled from the spec: [Variable] of core/variable.hpp, "each Variable
    carries {name, index, hash}". *)
Record DatasetVariable := mkVariable { Name : string; Hash : Z; Index : nat }.

(** A column-major matrix: the row count and the columns. *)
Record Matrix := mkMatrix { rows : nat; columns : list (list Scalar) }.

(** What [Dataset::map] refers to: the dataset's own [values], or a matrix
    owned by someone else (the constructor from [Eigen::Ref], lines 114-118,
    which leaves [values] empty). *)
Inductive MatrixMap :=
  | MapOfValues
  | MapOfExternal (ref : Matrix).

(** The members of [Dataset] that dataset.cpp reads and writes. *)
Record Dataset := mkDataset {
  variables : list DatasetVariable;
  values : Matrix;
  map_ : MatrixMap
}.

(** Modelled from the spec: [Range] of core/range.hpp, "half-open
    [start, start+size) interval over rows". *)
Record Range := mkRange { Start : nat; End : nat }.

Definition Size (r : Range) : nat := (End r - Start r)%nat.

(** Modelled from the spec: [Dataset::IsView] of dataset.hpp, "a Dataset owns
    its storage or borrows an external matrix (view mode)". *)
Definition IsView (d : Dataset) : bool :=
  match map_ d with MapOfExternal _ => true | MapOfValues => false end.

(** The matrix seen through [map]. *)
Definition Values (d : Dataset) : Matrix :=
  match map_ d with MapOfExternal m => m | MapOfValues => values d end.

Definition set_values (d : Dataset) (m : Matrix) : Dataset :=
  mkDataset (variables d) m (map_ d).

Definition set_variables (d : Dataset) (vs : list DatasetVariable) : Dataset :=
  mkDataset vs (values d) (map_ d).

(** The messages of the three [std::runtime_error]s thrown in view mode. *)
Definition newline : string := String (ascii_of_nat 10) EmptyString.
Definition cannot_shuffle : string :=
  ("Cannot shuffle. Dataset does not own the data." ++ newline)%string.
Definition cannot_normalize : string :=
  ("Cannot normalize. Dataset does not own the data." ++ newline)%string.
Definition cannot_standardize : string :=
  ("Cannot standardize. Dataset does not own the data." ++ newline)%string.

(** A mutator returns what it threw or returned, and the dataset it leaves. *)
Definition Outcome (A : Type) : Type := (Error + A) * Dataset.

Definition throw {A : Type} (e : Error) (d : Dataset) : Outcome A := (inl e, d).

(** Sorting by insertion, standing for [std::sort] and [std::stable_sort]:
    an element goes in front of the first one that is not smaller, so equal
    elements keep their order.  ([std::sort] leaves the order of equal
    elements open; the model takes the stable one.) *)
Fixpoint insert_sorted {A : Type} (lt : A -> A -> bool) (x : A) (l : list A) : list A :=
  match l with
  | [] => [x]
  | y :: l' => if lt y x then y :: insert_sorted lt x l' else x :: l
  end.

Definition sort_by {A : Type} (lt : A -> A -> bool) (l : list A) : list A :=
  foldr (insert_sorted lt) [] l.

(** Adjacent elements are in order: the next one is never smaller. *)
Fixpoint sorted_by {A : Type} (lt : A -> A -> bool) (l : list A) : bool :=
  match l with
  | [] => true
  | x :: l' =>
      match l' with
      | [] => true
      | y :: _ => negb (lt y x) && sorted_by lt l'
      end
  end.

Definition hash_less (a b : DatasetVariable) : bool := Hash a <? Hash b.

(** [std::partition_point] (and [std::lower_bound], the same loop): binary
    search over [[first, first + len)]. *)
Fixpoint partition_point_loop {A : Type} (fuel : nat) (pred : A -> bool) (l : list A)
  (first len : nat) : nat :=
  match fuel with
  | O => first
  | S fuel' =>
      if (len =? 0)%nat then first
      else
        let half := (len / 2)%nat in
        let middle := (first + half)%nat in
        match l !! middle with
        | Some x =>
            if pred x
            then partition_point_loop fuel' pred l (middle + 1) (len - half - 1)
            else partition_point_loop fuel' pred l first half
        | None => first
        end
  end.

Definition partition_point {A : Type} (pred : A -> bool) (l : list A) : nat :=
  partition_point_loop (length l) pred l 0 (length l).

(** [Dataset::GetVariable(Operon::Hash)], lines 172-176. *)
Definition GetVariable_hash (d : Dataset) (hashValue : Z) : option DatasetVariable :=
  let it := partition_point (fun v => Hash v <? hashValue) (variables d) in
  match variables d !! it with
  | Some v => if Hash v =? hashValue then Some v else None
  | None => None
  end.

Definition string_of_nat (n : nat) : string := NilEmpty.string_of_uint (Nat.to_uint n).

Section Hashing.

(** [Hasher<HashFunction::XXHash>] applied to the bytes of a name. *)
Variable XXHash : string -> Z.

(** The lambda [defaultVariables], lines 19-30. *)
Definition defaultVariables (count : nat) : list DatasetVariable :=
  sort_by hash_less
    (map (fun i => let name := ("X" ++ string_of_nat (i + 1))%string in
                   mkVariable name (XXHash name) i)
         (seq 0 count)).

(** [Dataset::GetVariable(std::string const&)], lines 166-170. *)
Definition GetVariable (d : Dataset) (name : string) : option DatasetVariable :=
  GetVariable_hash d (XXHash name).

(** [Dataset::SetVariableNames], lines 120-136. *)
Definition SetVariableNames (names : list string) (d : Dataset) : Outcome unit :=
  let ncol := length (columns (Values d)) in
  if negb (length names =? ncol)%nat
  then throw (runtime_error
    ("The number of columns (" ++ string_of_nat ncol ++
     ") does not match the number of column names (" ++
     string_of_nat (length names) ++ ").")) d
  else if negb (ncol <=? length (variables d))%nat then throw index_out_of_range d
  else
    let vs := foldl (fun vs i =>
                       match names !! i with
                       | Some nm => <[i := mkVariable nm (XXHash nm) i]> vs
                       | None => vs
                       end) (variables d) (seq 0 ncol) in
    (inr tt, set_variables d (sort_by hash_less vs)).

End Hashing.

(** The two fields of the result of [univariate::accumulate] that
    [Standardize] reads. *)
Record univariate_statistics := mkStats { mean : Scalar; variance : Scalar }.

Definition sum_scalars (l : list Scalar) : Scalar := foldl scalar_add 0%Q l.

(** Modelled from the spec: [univariate::accumulate] of the vstat library,
    which is not among the sources: "the mean and the variance of the
    column's values over the given range", the variance being the mean
    squared deviation.  Of no values there is no mean. *)
Definition accumulate (seg : list Scalar) : option univariate_statistics :=
  match seg with
  | [] => None
  | _ :: _ =>
      let n := inject_Z (Z.of_nat (length seg)) in
      let m := scalar_div (sum_scalars seg) n in
      let ssr := sum_scalars
                   (map (fun x => scalar_mul (scalar_sub x m) (scalar_sub x m)) seg) in
      Some (mkStats m (scalar_div ssr n))
  end.

Definition minCoeff (seg : list Scalar) : option Scalar :=
  match seg with [] => None | x :: r => Some (foldl scalar_min x r) end.

Definition maxCoeff (seg : list Scalar) : option Scalar :=
  match seg with [] => None | x :: r => Some (foldl scalar_max x r) end.

(** [col.segment(start, n)]. *)
Definition segment (col : list Scalar) (start n : nat) : list Scalar :=
  take n (drop start col).

Definition set_col (m : Matrix) (j : nat) (col : list Scalar) : Matrix :=
  mkMatrix (rows m) (<[j := col]> (columns m)).

(** [perm * values]: row [i] of the operand becomes row [indices[i]]. *)
Definition permute_rows (indices : list nat) (col : list Scalar) : list Scalar :=
  foldl (fun acc i =>
           match indices !! i, col !! i with
           | Some t, Some x => <[t := x]> acc
           | _, _ => acc
           end) col (seq 0 (length col)).

(** [Dataset::Shuffle], lines 178-186. *)
Definition Shuffle {RG : Type} `{RandomSource RG} (random : RG) (d : Dataset)
  : Outcome RG :=
  if IsView d
  then throw (runtime_error cannot_shuffle) d
  else
    let '(indices, random') := shuffle_indices (seq 0 (rows (values d))) random in
    (inr random',
     set_values d (mkMatrix (rows (values d))
                            (map (permute_rows indices) (columns (values d))))).

(** [Dataset::Normalize], lines 188-199.  The code divides by [max - min]
    without looking at it.  When the column is constant over the range the
    divisor is zero, the call returns normally and the column then holds NaN
    or infinities; the matrices of this model hold rationals only, so there
    the model has no dataset to give and answers [not_representable].  Every
    statement below about a call that returns is made for a divisor that is
    not zero. *)
Definition Normalize (i : nat) (range : Range) (d : Dataset) : Outcome unit :=
  if IsView d
  then throw (runtime_error cannot_normalize) d
  else if negb (Start range + Size range <=? rows (values d))%nat
  then throw contract_violation d
  else
    match columns (values d) !! i with
    | None => throw index_out_of_range d
    | Some col =>
        let seg := segment col (Start range) (Size range) in
        match minCoeff seg, maxCoeff seg with
        | Some min, Some max =>
            if scalar_is_zero (scalar_sub max min) then throw not_representable d
            else (inr tt,
                  set_values d (set_col (values d) i
                    (map (fun x => scalar_div (scalar_sub x min) (scalar_sub max min))
                         col)))
        | _, _ => throw index_out_of_range d
        end
    end.

(** [Dataset::Standardize], lines 202-213: the divisor called [stddev] is the
    square of the variance.  A zero divisor is treated as in [Normalize]: the
    C++ call returns normally with NaN or infinities in the column, the model
    answers [not_representable]. *)
Definition Standardize (i : nat) (range : Range) (d : Dataset) : Outcome unit :=
  if IsView d
  then throw (runtime_error cannot_standardize) d
  else if negb (Start range + Size range <=? rows (values d))%nat
  then throw contract_violation d
  else
    match columns (values d) !! i with
    | None => throw index_out_of_range d
    | Some col =>
        let seg := segment col (Start range) (Size range) in
        match accumulate seg with
        | Some stats =>
            let stddev := scalar_mul (variance stats) (variance stats) in
            if scalar_is_zero stddev then throw not_representable d
            else (inr tt,
                  set_values d (set_col (values d) i
                    (map (fun x => scalar_div (scalar_sub x (mean stats)) stddev) col)))
        | None => throw not_representable d
        end
    end.

(** ** Primitive sets

    [PrimitiveSet] lives in core/pset.hpp and pset.cpp, which are not among
    the sources; the creators use two of its functions. *)

(** Modelled from the spec: an entry of the primitive set, "mapping from
    node-type flag to {frequency, enabled, min_arity, max_arity}"; [symbol] is
    the node of that type. *)
Record Primitive := mkPrimitive {
  symbol : Node;
  frequency : Z;
  enabled : bool;
  min_arity : Z;
  max_arity : Z
}.

Abbreviation PrimitiveSet := (list Primitive).

(** Modelled from the spec: the candidates of a draw are the "enabled types
    whose [min_arity, max_arity] intersects the requested window". *)
Definition is_candidate (minArity maxArity : Z) (p : Primitive) : bool :=
  enabled p && (min_arity p <=? maxArity) && (minArity <=? max_arity p).

(** An enabled type that takes no arguments. *)
Definition is_enabled_leaf (p : Primitive) : bool :=
  enabled p && (min_arity p =? 0) && (max_arity p =? 0).

Definition has_enabled_leaf (pset : PrimitiveSet) : bool :=
  existsb is_enabled_leaf pset.

(** Modelled from the spec: [PrimitiveSet::FunctionArityLimits], it "returns
    the tightest envelope over all enabled function (arity >= 1) types".
    Without such a type the pair is the largest and the smallest [size_t]. *)
Definition FunctionArityLimits (pset : PrimitiveSet) : Z * Z :=
  foldl (fun lim p =>
           if enabled p && (1 <=? max_arity p)
           then (Z.min (fst lim) (size_t (min_arity p)),
                 Z.max (snd lim) (size_t (max_arity p)))
           else lim)
        (SIZE_MAX, 0) pset.

Section Creators.

Context {RG : Type} `{RandomSource RG}.

Local Open Scope gen_scope.

(** Modelled from the spec: [PrimitiveSet::SampleRandomSymbol], it "samples
    among enabled types whose [min_arity, max_arity] intersects the requested
    window, weighted by frequency" and "fails with NoSymbolAvailable when the
    intersection is empty".  The node gets an arity inside both the window
    and the range of its type. *)
Definition SampleRandomSymbol (pset : PrimitiveSet) (minArity maxArity : Z)
  : Gen RG Node :=
  let candidates := filter (fun p => is_candidate minArity maxArity p = true) pset in
  match candidates with
  | [] => gen_throw (runtime_error "NoSymbolAvailable")
  | _ :: _ =>
      let* k := gen_draw (discrete (map frequency candidates)) in
      match candidates !! k with
      | None => gen_throw index_out_of_range
      | Some p =>
          let* a := gen_draw (uniform_int (Z.max minArity (min_arity p))
                                          (Z.min maxArity (max_arity p))) in
          gen_ret (set_Arity (symbol p) a)
      end
  end.

(** The lambda [init] of both creators (ptc2.cpp lines 17-25, balanced.cpp
    lines 13-21).  [hi] is the upper bound of the index distribution:
    [variables_.size() - 1] as a [size_t] in ptc2.cpp, and the distance
    minus one in [Random::Sample] for balanced.cpp. *)
Definition init (variables_ : list DatasetVariable) (hi : Z) (node : Node)
  : Gen RG Node :=
  if IsLeaf node then
    let* node1 :=
      (if IsVariable node then
         let* k := gen_draw (uniform_int 0 hi) in
         match at_ variables_ k with
         | Some v => gen_ret (set_CalculatedHashValue (set_HashValue node (Hash v))
                                                      (Hash v))
         | None => gen_throw index_out_of_range
         end
       else gen_ret node) in
    let* v := gen_draw normal_real in
    gen_ret (set_Value node1 v)
  else gen_ret node.

(** *** The probabilistic creator ([ptc2.cpp]) *)

(** [std::min(maxFunctionArity, targetLen - q.size() - nodes.size() - 1)]. *)
Definition ptc2_max_arity (maxFunctionArity targetLen qsize nsize : Z) : Z :=
  Z.min maxFunctionArity (size_t (targetLen - qsize - nsize - 1)).

(** Lines 73-85: from the state after the dequeue to the new target length
    and the arity window [(targetLen, minArity, maxArity)].  [irregular] is
    the value of [q.size() > 1 && sampleIrregular(random)]. *)
Definition ptc2_arity_window (minFunctionArity maxFunctionArity : Z)
  (targetLen qsize nsize : Z) (irregular : bool) : Result (Z * Z * Z) :=
  let maxArity :=
    if irregular then 0
    else ptc2_max_arity maxFunctionArity targetLen qsize nsize in
  if (0 <? maxArity) && (maxArity <? minFunctionArity) then
    if negb (0 <? targetLen) then Throw contract_violation
    else if negb ((targetLen =? 1) || (size_t (minFunctionArity + 1) <=? targetLen))
    then Throw contract_violation
    else
      let targetLen' := size_t (targetLen - size_t (minFunctionArity - maxArity)) in
      let maxArity' := ptc2_max_arity maxFunctionArity targetLen' qsize nsize in
      Ok (targetLen', Z.min minFunctionArity maxArity', maxArity')
  else Ok (targetLen, Z.min minFunctionArity maxArity, maxArity).

(** The lambda [random_dequeue], lines 57-64. *)
Definition random_dequeue (q : list Z) : Gen RG (Z * list Z) :=
  match q with
  | [] => gen_throw contract_violation
  | front :: _ =>
      let* j := gen_draw (uniform_int 0 (size_t (Z.of_nat (length q) - 1))) in
      match at_ q j with
      | None => gen_throw index_out_of_range
      | Some qj =>
          let swapped := <[0%nat := qj]> (<[Z.to_nat j := front]> q) in
          gen_ret (qj, tail swapped)
      end
  end.

(** The loop of lines 70-97; the state is [(targetLen, q, nodes)]. *)
Fixpoint ptc2_loop (fuel : nat) (pset : PrimitiveSet)
  (variables_ : list DatasetVariable) (irregularityBias : Scalar)
  (minFunctionArity maxFunctionArity : Z)
  (targetLen : Z) (q : list Z) (nodes : list Node) : Gen RG (list Node) :=
  match q with
  | [] => gen_ret nodes
  | _ :: _ =>
      match fuel with
      | O => fun _ => OutOfFuel
      | S fuel' =>
          let* dq := random_dequeue q in
          let childDepth := fst dq in
          let q1 := snd dq in
          let* irregular :=
            (if (1 <? Z.of_nat (length q1))
             then gen_draw (bernoulli irregularityBias)
             else gen_ret false) in
          let* w := gen_lift (ptc2_arity_window minFunctionArity maxFunctionArity
                                targetLen (Z.of_nat (length q1))
                                (Z.of_nat (length nodes)) irregular) in
          let targetLen' := fst (fst w) in
          let minArity := snd (fst w) in
          let maxArity := snd w in
          let* node0 := SampleRandomSymbol pset minArity maxArity in
          let* node1 := init variables_
                          (size_t (Z.of_nat (length variables_) - 1)) node0 in
          let node := set_Depth node1 (uint16 childDepth) in
          let q2 := q1 ++ repeat (size_t (childDepth + 1)) (Z.to_nat (Arity node)) in
          ptc2_loop fuel' pset variables_ irregularityBias
            minFunctionArity maxFunctionArity targetLen' q2 (nodes ++ [node])
      end
  end.

(** Lines 102-112: the index of the first child of every function node. *)
Fixpoint ptc2_childIndices (nodes : list Node) (c : Z) : list Z :=
  match nodes with
  | [] => []
  | node :: rest =>
      if IsLeaf node then 0 :: ptc2_childIndices rest c
      else c :: ptc2_childIndices rest (size_t (c + Arity node))
  end.

(** The recursive lambda [add], lines 117-129.  The state is the [postfix]
    vector and the write position [idx]. *)
Fixpoint ptc2_add (fuel : nat) (nodes : list Node) (childIndices : list Z)
  (i : Z) (st : list Node * Z) : Result (list Node * Z) :=
  match fuel with
  | O => OutOfFuel
  | S fuel' =>
      match at_ nodes i, at_ childIndices i with
      | Some node, Some ci =>
          let idx := size_t (snd st - 1) in
          match at_ (fst st) idx with
          | None => Throw index_out_of_range
          | Some _ =>
              let st' := (<[Z.to_nat idx := node]> (fst st), idx) in
              if IsLeaf node then Ok st'
              else
                foldl (fun acc j =>
                         result_bind acc
                           (ptc2_add fuel' nodes childIndices
                              (size_t (ci + Z.of_nat j))))
                      (Ok st') (seq 0 (Z.to_nat (Arity node)))
          end
      | _, _ => Throw index_out_of_range
      end
  end.

Definition depth_less (lhs rhs : Node) : bool := Depth lhs <? Depth rhs.

Definition lift_option {A : Type} (o : option A) : Gen RG A :=
  match o with
  | Some a => gen_ret a
  | None => gen_throw index_out_of_range
  end.

(** [ProbabilisticTreeCreator::operator()].  The two unnamed [size_t]
    parameters (minimum and maximum depth) are not used by the code. *)
Definition ProbabilisticTreeCreator (fuel : nat) (pset : PrimitiveSet)
  (variables_ : list DatasetVariable) (irregularityBias : Scalar)
  (targetLen : Z) : Gen RG Tree :=
  if negb (0 <? targetLen) then gen_throw contract_violation
  else
    let lim := FunctionArityLimits pset in
    let minFunctionArity := fst lim in
    let maxFunctionArity := snd lim in
    let targetLen :=
      if (1 <? targetLen) && (targetLen <? size_t (minFunctionArity + 1))
      then size_t (minFunctionArity + 1) else targetLen in
    let maxArity := Z.min maxFunctionArity (size_t (targetLen - 1)) in
    let minArity := Z.min minFunctionArity maxArity in
    let* root0 := SampleRandomSymbol pset minArity maxArity in
    let* root := init variables_ (size_t (Z.of_nat (length variables_) - 1)) root0 in
    if IsLeaf root then lift_option (UpdateNodes [root])
    else
      let root := set_Depth root 1 in
      let q := repeat (Depth root + 1) (Z.to_nat (Arity root)) in
      let* nodes := ptc2_loop fuel pset variables_ irregularityBias
                      minFunctionArity maxFunctionArity targetLen q [root] in
      let nodes := sort_by depth_less nodes in
      let childIndices := ptc2_childIndices nodes 1 in
      let n := Z.of_nat (length nodes) in
      let* st := gen_lift (ptc2_add fuel nodes childIndices 0
                             (repeat default_Node (length nodes), n)) in
      lift_option (UpdateNodes (fst st)).

(** *** The balanced creator ([balanced.cpp]) *)

(** The loop over [j], lines 53-67; the state is
    [(tuples, openSlots, minArity)]. *)
Fixpoint balanced_children (k : nat) (pset : PrimitiveSet)
  (variables_ : list DatasetVariable) (irregularityBias : Scalar)
  (minFunctionArity maxFunctionArity targetLen : Z) (childDepth : Z)
  (st : list (Node * Z * Z) * Z * Z) : Gen RG (list (Node * Z * Z) * Z * Z) :=
  match k with
  | O => gen_ret st
  | S k' =>
      let tuples := fst (fst st) in
      let openSlots := snd (fst st) in
      let minArity := snd st in
      let* irregular :=
        (if (1 <? size_t (openSlots - Z.of_nat (length tuples)))
         then gen_draw (bernoulli irregularityBias)
         else gen_ret false) in
      let maxArity :=
        if irregular then 0
        else Z.min maxFunctionArity (size_t (targetLen - openSlots - 1)) in
      let minArity' := if maxArity <? minFunctionArity then 0 else minArity in
      let maxArity' := if maxArity <? minFunctionArity then 0 else maxArity in
      let* child0 := SampleRandomSymbol pset minArity' maxArity' in
      let* child := init variables_ (Z.of_nat (length variables_) - 1) child0 in
      balanced_children k' pset variables_ irregularityBias
        minFunctionArity maxFunctionArity targetLen childDepth
        (tuples ++ [(child, childDepth, 0)], size_t (openSlots + Arity child),
         minArity')
  end.

(** The loop over [i], lines 49-68. *)
Fixpoint balanced_loop (fuel : nat) (pset : PrimitiveSet)
  (variables_ : list DatasetVariable) (irregularityBias : Scalar)
  (minFunctionArity maxFunctionArity targetLen : Z) (i : nat)
  (st : list (Node * Z * Z) * Z * Z) : Gen RG (list (Node * Z * Z)) :=
  match fst (fst st) !! i with
  | None => gen_ret (fst (fst st))
  | Some t =>
      match fuel with
      | O => fun _ => OutOfFuel
      | S fuel' =>
          let node := fst (fst t) in
          let childDepth := size_t (snd (fst t) + 1) in
          let tuples := fst (fst st) in
          let tuples1 :=
            <[i := (node, snd (fst t), Z.of_nat (length tuples))]> tuples in
          let* st' := balanced_children (Z.to_nat (Arity node)) pset variables_
                        irregularityBias minFunctionArity maxFunctionArity
                        targetLen childDepth (tuples1, snd (fst st), snd st) in
          balanced_loop fuel' pset variables_ irregularityBias
            minFunctionArity maxFunctionArity targetLen (S i) st'
      end
  end.

(** The recursive lambda [add], lines 73-82. *)
Fixpoint balanced_add (fuel : nat) (tuples : list (Node * Z * Z))
  (t : Node * Z * Z) (st : list Node * Z) : Result (list Node * Z) :=
  match fuel with
  | O => OutOfFuel
  | S fuel' =>
      let node := fst (fst t) in
      let nodeChildIndex := snd t in
      let idx := size_t (snd st - 1) in
      match at_ (fst st) idx with
      | None => Throw index_out_of_range
      | Some _ =>
          let st' := (<[Z.to_nat idx := node]> (fst st), idx) in
          if IsLeaf node then Ok st'
          else
            foldl (fun acc j =>
                     result_bind acc (fun st1 =>
                       match at_ tuples (size_t (nodeChildIndex + Z.of_nat j)) with
                       | Some t' => balanced_add fuel' tuples t' st1
                       | None => Throw index_out_of_range
                       end))
                  (Ok st') (seq 0 (Z.to_nat (Arity node)))
      end
  end.

(** [BalancedTreeCreator::operator()]. *)
Definition BalancedTreeCreator (fuel : nat) (pset : PrimitiveSet)
  (variables_ : list DatasetVariable) (irregularityBias : Scalar)
  (targetLen : Z) : Gen RG Tree :=
  let lim := FunctionArityLimits pset in
  let minFunctionArity := fst lim in
  let maxFunctionArity := snd lim in
  let targetLen :=
    if (1 <? targetLen) && (targetLen <? size_t (minFunctionArity + 1))
    then size_t (minFunctionArity + 1) else targetLen in
  let maxArity := Z.min maxFunctionArity (size_t (targetLen - 1)) in
  let minArity := Z.min minFunctionArity maxArity in
  let* root0 := SampleRandomSymbol pset minArity maxArity in
  let* root := init variables_ (Z.of_nat (length variables_) - 1) root0 in
  if IsLeaf root then lift_option (UpdateNodes [root])
  else
    let* tuples := balanced_loop fuel pset variables_ irregularityBias
                     minFunctionArity maxFunctionArity targetLen 0
                     ([(root, 1, 1)], Arity root, minArity) in
    match tuples with
    | [] => gen_throw index_out_of_range
    | t0 :: _ =>
        let n := Z.of_nat (length tuples) in
        let* st := gen_lift (balanced_add fuel tuples t0
                               (repeat default_Node (length tuples), n)) in
        lift_option (UpdateNodes (fst st))
    end.

End Creators.

(** ** Individuals *)

(** Modelled from the spec: [Individual] of core/individual.hpp,
    "{genotype: Tree, fitness: Vec<Scalar>}". *)
Record Individual := mkIndividual { Genotype : Tree; Fitness : list Scalar }.

(** Modelled from the spec: the results of [ParetoCompare],
    "{Left, Right, Equal, None}". *)
Inductive Dominance := Left | Equal | Right | None_.

Definition Dominance_eqb (a b : Dominance) : bool :=
  match a, b with
  | Left, Left | Equal, Equal | Right, Right | None_, None_ => true
  | _, _ => false
  end.

(** Modelled from the spec: [Individual::ParetoCompare] of
    core/individual.hpp, which is not among the sources.  It "returns the
    strict-dominance relation (weak dominance plus at least one strict
    improvement)": [Left] when the first is nowhere worse and somewhere
    better, [Right] the other way round, [Equal] when no objective differs
    and [None_] when each is better somewhere. *)
Fixpoint ParetoCompare_loop (a b : list Scalar) (better worse : bool) : bool * bool :=
  match a, b with
  | x :: a', y :: b' =>
      ParetoCompare_loop a' b' (better || scalar_lt x y) (worse || scalar_lt y x)
  | _, _ => (better, worse)
  end.

(** Modelled from the spec: see [ParetoCompare_loop]. *)
Definition ParetoCompare (lhs rhs : Individual) : Dominance :=
  match ParetoCompare_loop (Fitness lhs) (Fitness rhs) false false with
  | (true, true) => None_
  | (true, false) => Left
  | (false, true) => Right
  | (false, false) => Equal
  end.

(** Modelled from the spec: [LexicographicalComparison] of
    core/individual.hpp, "lexicographically by fitness"
    ([std::lexicographical_compare] on the fitness vectors). *)
Fixpoint lexicographical_compare (a b : list Scalar) : bool :=
  match a, b with
  | _, [] => false
  | [], _ :: _ => true
  | x :: a', y :: b' =>
      if scalar_lt x y then true
      else if scalar_lt y x then false
      else lexicographical_compare a' b'
  end.

(** Modelled from the spec: see [lexicographical_compare]. *)
Definition LexicographicalComparison (lhs rhs : Individual) : bool :=
  lexicographical_compare (Fitness lhs) (Fitness rhs).

(** ** The hierarchical non-dominated sorter ([hierarchical_sort.cpp]) *)

(** Lines 10-11: [std::deque<size_t> q(pop.size()); std::iota(...)]. *)
Definition initial_queue (pop : list Individual) : list nat :=
  seq 0 (length pop).

(** The comparison handed to [std::stable_sort] on line 38. *)
Definition index_less (pop : list Individual) (a b : nat) : bool :=
  match pop !! a, pop !! b with
  | Some x, Some y => LexicographicalComparison x y
  | _, _ => false
  end.

(** The innermost loop, lines 24-32. *)
Fixpoint Sort_scan (fuel : nat) (pop : list Individual) (q1 : nat)
  (q dominated : list nat) (nonDominatedCount : nat) : option (list nat * list nat) :=
  if (nonDominatedCount <? length q)%nat then
    match fuel with
    | O => None
    | S fuel' =>
        match q with
        | [] => None
        | qj :: q' =>
            x ← pop !! q1;
            y ← pop !! qj;
            if Dominance_eqb (ParetoCompare x y) None_
            then Sort_scan fuel' pop q1 (q' ++ [qj]) dominated (S nonDominatedCount)
            else Sort_scan fuel' pop q1 q' (dominated ++ [qj]) nonDominatedCount
        end
    end
  else Some (q, dominated).

(** The loop that fills one front, lines 20-33. *)
Fixpoint Sort_front (fuel : nat) (pop : list Individual)
  (q front dominated : list nat) : option (list nat * list nat) :=
  match q with
  | [] => Some (front, dominated)
  | q1 :: q' =>
      match fuel with
      | O => None
      | S fuel' =>
          r ← Sort_scan (length q') pop q1 q' dominated 0;
          Sort_front fuel' pop (fst r) (front ++ [q1]) (snd r)
      end
  end.

(** The outer loop, lines 16-39.  When the front is complete [q] is empty
    and receives the demoted indices, which are then sorted. *)
Fixpoint Sort_loop (fuel : nat) (pop : list Individual)
  (q : list nat) (fronts : list (list nat)) : option (list (list nat)) :=
  match q with
  | [] => Some fronts
  | _ :: _ =>
      match fuel with
      | O => None
      | S fuel' =>
          r ← Sort_front (length q) pop q [] [];
          Sort_loop fuel' pop (sort_by (index_less pop) (snd r)) (fronts ++ [fst r])
      end
  end.

(** [HierarchicalSorter::Sort].  The counter [Stats.InnerOps] is left out. *)
Definition Sort (pop : list Individual) : option (list (list nat)) :=
  Sort_loop (length pop) pop (initial_queue pop) [].

(** [NondominatedSorterBase::operator()], sorter_base.hpp lines 94-98. *)
Definition NondominatedSorter (pop : list Individual) : Result (list (list nat)) :=
  match pop with
  | [] => Throw index_out_of_range
  | front :: _ =>
      if negb (1 <? length (Fitness front))%nat then Throw contract_violation
      else match Sort pop with
           | Some fronts => Ok fronts
           | None => OutOfFuel
           end
  end.

(** ** The proportional selector ([proportional.cpp]) *)

(** [operator<] of [std::pair<Scalar, size_t>]. *)
Definition pair_less (a b : Scalar * nat) : bool :=
  scalar_lt (fst a) (fst b) ||
  (negb (scalar_lt (fst b) (fst a)) && (snd a <? snd b)%nat).

(** The loop of lines 27-32; the state is [(fitness, vmin, vmax)]. *)
Fixpoint Prepare_collect (population : list Individual) (idx : nat) (i : nat)
  (st : list (Scalar * nat) * Scalar * Scalar)
  : option (list (Scalar * nat) * Scalar * Scalar) :=
  match population with
  | [] => Some st
  | ind :: rest =>
      f ← Fitness ind !! idx;
      Prepare_collect rest idx (S i)
        (fst (fst st) ++ [(f, i)], scalar_min (snd (fst st)) f, scalar_max (snd st) f)
  end.

(** [std::inclusive_scan] with the operation of line 36. *)
Fixpoint inclusive_scan (acc : Scalar * nat) (l : list (Scalar * nat))
  : list (Scalar * nat) :=
  match l with
  | [] => []
  | rhs :: l' =>
      let out := (scalar_add (fst acc) (fst rhs), snd rhs) in
      out :: inclusive_scan out l'
  end.

(** [ProportionalSelector::Prepare], lines 21-37: the stored [fitness]. *)
Definition Prepare (population : list Individual) (idx : nat)
  : option (list (Scalar * nat)) :=
  first ← population !! 0%nat;
  v0 ← Fitness first !! idx;
  st ← Prepare_collect population idx 0 ([], v0, v0);
  let vmax := snd st in
  let transformed := map (fun p => (scalar_sub vmax (fst p), snd p)) (fst (fst st)) in
  let sorted := sort_by pair_less transformed in
  Some (match sorted with
        | [] => []
        | p0 :: rest => p0 :: inclusive_scan p0 rest
        end).

(** Line 12, for a drawn value [u]: [std::lower_bound] and [->second]. *)
Definition Select (fitness : list (Scalar * nat)) (u : Scalar) : option nat :=
  snd <$> fitness !! partition_point (fun e => pair_less e (u, 0%nat)) fitness.

(** [ProportionalSelector::operator()], lines 8-13. *)
Definition ProportionalSelector {RG : Type} `{RandomSource RG}
  (fitness : list (Scalar * nat)) (random : RG) : option (nat * RG) :=
  back ← last fitness;
  let '(u, random') := uniform_real 0%Q (scalar_sub (fst back) epsilon) random in
  i ← Select fitness u;
  Some (i, random').

(** ** Invariants of the loops of [UpdateNodes]

    [ar] is the list of arities.  After the first loop has handled the nodes
    below [i], each of them holds its subtree size minus one ([len_ok]) and
    either has a parent inside the vector or is one of the [h] roots that
    still wait for one ([par_ok], the [m]-th root counted from the right,
    [k] of them already taken by the node being handled). *)

Definition ar_ok (ar : list nat) (p : nat) (s : Node) : Prop :=
  exists a, ar !! p = Some a /\ Arity s = Z.of_nat a.

Definition len_ok (ar : list nat) (p : nat) (s : Node) : Prop :=
  exists x, subtree_size ar p = Some x /\ Length s = Z.of_nat x - 1.

Definition par_ok (ar : list nat) (i h k p : nat) (s : Node) : Prop :=
  (0 <= Parent s < Z.of_nat (length ar)) \/
  exists m x, (k <= m < h)%nat /\ span (rev (take i ar)) m = Some x /\ (p + x + 1 = i)%nat.

Definition children_inv (ar : list nat) (i a h k : nat) (c : list Node) : Prop :=
  length c = length ar /\
  (forall p s, c !! p = Some s -> ar_ok ar p s) /\
  (forall p s, (p < i)%nat -> c !! p = Some s -> len_ok ar p s /\ par_ok ar i h k p s) /\
  (exists x s, span (rev (take i ar)) k = Some x /\ c !! i = Some s /\
               Length s = Z.of_nat a + Z.of_nat x - Z.of_nat k).

Definition nodes_inv (ar : list nat) (i h : nat) (c : list Node) : Prop :=
  length c = length ar /\
  (forall p s, c !! p = Some s -> ar_ok ar p s) /\
  (forall p s, (p < i)%nat -> c !! p = Some s -> len_ok ar p s /\ par_ok ar i h 0 p s).

Definition same_shape (c c' : list Node) : Prop :=
  length c' = length c /\
  forall p s', c' !! p = Some s' ->
    exists s, c !! p = Some s /\ Arity s' = Arity s /\ Length s' = Length s
              /\ Parent s' = Parent s.


(** ** Example data *)

Definition leaf (v : Scalar) : Node :=
  mkNode Variable_ 0 0 0 0 0 0 0 v true true.

Definition func (t : NodeType) (a : Z) : Node :=
  mkNode t a 0 0 0 0 0 0 1%Q true false.

(** [(x1 + x2) * exp(x3)] in postfix order. *)
Definition example_tree : Tree :=
  [leaf 1%Q; leaf 2%Q; func Add 2; leaf 3%Q; func Exp 1; func Mul 2].

(** FNV-1 over the bytes of a string (one of the hash functions the library
    offers), used where an example needs a concrete hash. *)
Fixpoint fnv1_loop (s : string) (h : Z) : Z :=
  match s with
  | EmptyString => h
  | String c s' =>
      fnv1_loop s' (Z.lxor (size_t (h * 1099511628211)) (Z.of_nat (nat_of_ascii c)))
  end.

Definition fnv1 (s : string) : Z := fnv1_loop s 14695981039346656037.

(** Three columns of two rows, named X1, X2, X3. *)
Definition example_matrix : Matrix :=
  mkMatrix 2 [[0%Q; 4%Q]; [1%Q; 3%Q]; [5%Q; 5%Q]].

Definition example_dataset : Dataset :=
  mkDataset (defaultVariables fnv1 3) example_matrix MapOfValues.

(** The same data borrowed from its owner. *)
Definition example_view : Dataset :=
  mkDataset (defaultVariables fnv1 3) (mkMatrix 0 []) (MapOfExternal example_matrix).

Definition individual (fitness : list Scalar) : Individual :=
  mkIndividual [] fitness.

(** An instance of the random interface driven by the Jenkins generator: one
    output word per draw, reduced to the requested range. *)
Definition jsf_uniform_int (lo hi : Z) (g : Jsf64.state) : Z * Jsf64.state :=
  let r := Jsf64.prng64 g in
  (if lo <=? hi then lo + fst r mod (hi - lo + 1) else lo, snd r).

Definition jsf_unit (g : Jsf64.state) : Scalar * Jsf64.state :=
  let r := Jsf64.prng64 g in
  (Qred (inject_Z (fst r mod 1048576) / 1048576), snd r).

Definition jsf_uniform_real (lo hi : Scalar) (g : Jsf64.state) : Scalar * Jsf64.state :=
  let r := jsf_unit g in
  (scalar_add lo (scalar_mul (fst r) (scalar_sub hi lo)), snd r).

Definition jsf_normal_real (g : Jsf64.state) : Scalar * Jsf64.state :=
  let r := jsf_unit g in
  (scalar_sub (scalar_mul 2%Q (fst r)) 1%Q, snd r).

Definition jsf_bernoulli (p : Scalar) (g : Jsf64.state) : bool * Jsf64.state :=
  let r := jsf_unit g in
  (scalar_lt (fst r) p, snd r).

Definition jsf_discrete (ws : list Z) (g : Jsf64.state) : nat * Jsf64.state :=
  let r := Jsf64.prng64 g in
  (Z.to_nat (fst r mod Z.of_nat (length ws)), snd r).

Definition jsf_shuffle_indices (l : list nat) (g : Jsf64.state)
  : list nat * Jsf64.state :=
  let r := Jsf64.prng64 g in
  (rotate (Z.to_nat (fst r mod Z.of_nat (length l))) l, snd r).

(** Add and multiply take two or three arguments, the leaves none. *)
Definition example_pset : PrimitiveSet :=
  [ mkPrimitive (func Add 2) 1 true 2 3;
    mkPrimitive (func Mul 2) 1 true 2 3;
    mkPrimitive (func Exp 1) 1 false 1 1;
    mkPrimitive (leaf 1%Q) 1 true 0 0;
    mkPrimitive (mkNode Constant 0 0 0 0 0 0 0 1%Q true true) 1 true 0 0 ].

(** Two individuals, the dominated one first: (1, 1) dominates (2, 2). *)
Definition unsorted_pair : list Individual :=
  [individual [2%Q; 2%Q]; individual [1%Q; 1%Q]].

(** Sums of three terms over one input variable: every function of this
    primitive set takes exactly three arguments. *)
Definition ternary_pset : PrimitiveSet :=
  [ mkPrimitive (func Add 3) 1 true 3 3;
    mkPrimitive (leaf 1%Q) 1 true 0 0 ].

(* ================================================================== *)
(** * Part I, continued: more of the code                             *)
(* ================================================================== *)

(** Further parts of the sources, modelled as above:
    [include/operon/stat/meanvariance.hpp] (the streaming calculator),
    what [Tree::UpdateNodes] establishes ([src/core/tree.cpp]),
    the names and values of [src/core/dataset.cpp],
    the fronts of [hierarchical_sort.cpp] and the bit scan of
    [sorter_base.hpp], the running sums of [proportional.cpp],
    both generators of [include/operon/random/jsf.hpp], and the histogram
    of [test/implementation/initialization.cpp]. *)

(** ** Streaming statistics ([meanvariance.hpp]) *)

(** The three members [m2], [sum] and [n] of [MeanVarianceCalculator]. *)
Record MeanVarianceCalculator := mkCalculator {
  calc_m2 : Scalar;
  calc_sum : Scalar;
  calc_n : Scalar
}.

(** The constructor and [Reset]. *)
Definition Calculator_Reset : MeanVarianceCalculator := mkCalculator 0%Q 0%Q 0%Q.

(** [a <= b] on scalars. *)
Definition scalar_le (a b : Scalar) : bool := Qle_bool a b.

(** A quotient whose divisor can be zero: IEEE arithmetic then gives NaN or
    an infinity, which no rational stands for. *)
Definition checked_div (a b : Scalar) : Result Scalar :=
  if scalar_is_zero b then Throw not_representable else Ok (scalar_div a b).

(** [Add(Operon::Scalar val)], lines 44-57.  The divisor [n * oldn] is
    positive in the branch that divides. *)
Definition Calculator_Add (val : Scalar) (c : MeanVarianceCalculator)
  : MeanVarianceCalculator :=
  if scalar_le (calc_n c) 0%Q then mkCalculator 0%Q val 1%Q
  else
    let tmp := scalar_sub (scalar_mul (calc_n c) val) (calc_sum c) in
    let oldn := calc_n c in
    let n := scalar_add (calc_n c) 1%Q in
    let sum := scalar_add (calc_sum c) val in
    mkCalculator
      (scalar_add (calc_m2 c) (scalar_div (scalar_mul tmp tmp) (scalar_mul n oldn)))
      sum n.

(** [Add(Operon::Scalar val, Operon::Scalar weight)], lines 59-75. *)
Definition Calculator_Add_weighted (val weight : Scalar) (c : MeanVarianceCalculator)
  : Result MeanVarianceCalculator :=
  if scalar_is_zero weight then Ok c
  else if scalar_le (calc_n c) 0%Q
  then Ok (mkCalculator (calc_m2 c) (scalar_mul val weight) weight)
  else
    let val := scalar_mul val weight in
    let tmp := scalar_sub (scalar_mul (calc_n c) val) (scalar_mul (calc_sum c) weight) in
    let oldn := calc_n c in
    let n := scalar_add (calc_n c) weight in
    let sum := scalar_add (calc_sum c) val in
    result_bind
      (checked_div (scalar_mul tmp tmp) (scalar_mul (scalar_mul weight n) oldn))
      (fun q => Ok (mkCalculator (scalar_add (calc_m2 c) q) sum n)).

(** The second pass of [Add(gsl::span)], lines 93-98: [(om2, err)]. *)
Fixpoint Calculator_second_pass (vals : list Scalar) (om1 : Scalar)
  (acc : Scalar * Scalar) : Scalar * Scalar :=
  match vals with
  | [] => acc
  | x :: vals' =>
      let v := scalar_sub x om1 in
      Calculator_second_pass vals' om1
        (scalar_add (fst acc) (scalar_mul v v), scalar_add (snd acc) v)
  end.

(** [Add(gsl::span<const Operon::Scalar> vals)], lines 77-112.  [l] is the
    number of values; both divisors are positive where they are used. *)
Definition Calculator_Add_span (vals : list Scalar) (c : MeanVarianceCalculator)
  : MeanVarianceCalculator :=
  match vals with
  | [] => c
  | [x] => Calculator_Add x c
  | _ :: _ :: _ =>
      let l := inject_Z (Z.of_nat (length vals)) in
      let s1 := foldl scalar_add 0%Q vals in
      let om1 := scalar_div s1 l in
      let pass := Calculator_second_pass vals om1 (0%Q, 0%Q) in
      let err := snd pass in
      let s1 := scalar_add s1 err in
      let om2 := scalar_add (fst pass) (scalar_div err l) in
      if scalar_le (calc_n c) 0%Q then mkCalculator om2 s1 l
      else
        let tmp := scalar_sub (scalar_mul (calc_n c) s1) (scalar_mul (calc_sum c) l) in
        let oldn := calc_n c in
        let n := scalar_add (calc_n c) l in
        let sum := scalar_add (calc_sum c) (scalar_add s1 err) in
        mkCalculator
          (scalar_add (calc_m2 c)
             (scalar_add om2
                (scalar_div (scalar_mul tmp tmp) (scalar_mul (scalar_mul l n) oldn))))
          sum n
  end.

(** The loop of [Add(vals, weights)], lines 117-120. *)
Fixpoint Calculator_Add_weighted_loop (vals weights : list Scalar)
  (c : MeanVarianceCalculator) : Result MeanVarianceCalculator :=
  match vals, weights with
  | x :: vals', w :: weights' =>
      result_bind (Calculator_Add_weighted x w c)
                  (Calculator_Add_weighted_loop vals' weights')
  | _, _ => Ok c
  end.

(** [Add(vals, weights)], lines 114-121, with its [Expects]. *)
Definition Calculator_Add_span_weighted (vals weights : list Scalar)
  (c : MeanVarianceCalculator) : Result MeanVarianceCalculator :=
  if negb (length vals =? length weights)%nat then Throw contract_violation
  else Calculator_Add_weighted_loop vals weights c.

(** [c.Combine(other)], lines 124-132. *)
Definition Calculator_Combine (c other : MeanVarianceCalculator)
  : Result MeanVarianceCalculator :=
  let on := calc_n other in
  let osum := calc_sum other in
  let tmp := scalar_sub (scalar_mul (calc_n c) osum) (scalar_mul (calc_sum c) on) in
  let oldn := calc_n c in
  let n := scalar_add (calc_n c) on in
  let sum := scalar_add (calc_sum c) osum in
  result_bind (checked_div (scalar_mul tmp tmp) (scalar_mul (scalar_mul on n) oldn))
    (fun q => Ok (mkCalculator (scalar_add (calc_m2 c) (scalar_add (calc_m2 other) q))
                               sum n)).

(** [NaiveVariance], [SampleVariance], [SumOfSquares], [Count] and [Mean],
    lines 134-151.  ([StandardDeviation] is a square root and has no
    rational model.) *)
Definition Calculator_NaiveVariance (c : MeanVarianceCalculator) : Result Scalar :=
  if negb (scalar_lt 0%Q (calc_n c)) then Throw contract_violation
  else checked_div (calc_m2 c) (calc_n c).

Definition Calculator_SampleVariance (c : MeanVarianceCalculator) : Result Scalar :=
  if negb (scalar_lt 1%Q (calc_n c)) then Throw contract_violation
  else checked_div (calc_m2 c) (scalar_sub (calc_n c) 1%Q).

Definition Calculator_SumOfSquares (c : MeanVarianceCalculator) : Scalar := calc_m2 c.
Definition Calculator_Count (c : MeanVarianceCalculator) : Scalar := calc_n c.
Definition Calculator_Mean (c : MeanVarianceCalculator) : Result Scalar :=
  checked_div (calc_sum c) (calc_n c).

(** Calling [Add(val)] for each value of a list in turn. *)
Definition Calculator_feed (xs : list Scalar) (c : MeanVarianceCalculator)
  : MeanVarianceCalculator :=
  foldl (fun c x => Calculator_Add x c) c xs.

(** What the calculator is meant to hold, stated on the list of values:
    sum, sum of squares, count, mean. *)
Definition Qsum (xs : list Scalar) : Q := foldr Qplus 0%Q xs.
Definition Qsumsq (xs : list Scalar) : Q :=
  foldr (fun x acc => (x * x + acc)%Q) 0%Q xs.
Definition Qlen (xs : list Scalar) : Q := inject_Z (Z.of_nat (length xs)).
Definition Qmean (xs : list Scalar) : Q := (Qsum xs / Qlen xs)%Q.
(** The sum of the squared deviations from [m]. *)
Definition Qssd (xs : list Scalar) (m : Q) : Q :=
  foldr (fun x acc => ((x - m) * (x - m) + acc)%Q) 0%Q xs.

(** Two calculators hold the same numbers. *)
Definition calc_eq (c1 c2 : MeanVarianceCalculator) : Prop :=
  (calc_m2 c1 == calc_m2 c2)%Q /\ (calc_sum c1 == calc_sum c2)%Q /\
  (calc_n c1 == calc_n c2)%Q.

(** The calculator holds the count, the sum and the sum of squared
    deviations of [xs]. *)
Definition calc_inv (xs : list Scalar) (c : MeanVarianceCalculator) : Prop :=
  (calc_n c == Qlen xs)%Q /\ (calc_sum c == Qsum xs)%Q /\
  (calc_m2 c == Qsumsq xs - Qsum xs * Qsum xs / Qlen xs)%Q.

(** Weighted sums of the values and of their squares. *)
Fixpoint Qwsum (xs ws : list Scalar) : Q :=
  match xs, ws with
  | x :: xs', w :: ws' => (w * x + Qwsum xs' ws')%Q
  | _, _ => 0%Q
  end.

Fixpoint Qwsumsq (xs ws : list Scalar) : Q :=
  match xs, ws with
  | x :: xs', w :: ws' => (w * x * x + Qwsumsq xs' ws')%Q
  | _, _ => 0%Q
  end.

(** The same for the values [xs] with the weights [ws]; as long as the total
    weight is zero nothing has been stored. *)
Definition calc_winv (xs ws : list Scalar) (c : MeanVarianceCalculator) : Prop :=
  (calc_n c == Qsum ws)%Q /\ (calc_sum c == Qwsum xs ws)%Q /\
  ((Qsum ws == 0)%Q ->
     (Qwsum xs ws == 0)%Q /\ (Qwsumsq xs ws == 0)%Q /\ (calc_m2 c == 0)%Q) /\
  ((0 < Qsum ws)%Q ->
     (calc_m2 c == Qwsumsq xs ws - Qwsum xs ws * Qwsum xs ws / Qsum ws)%Q).

(** ** More invariants of [UpdateNodes]: parents, depths and levels

    Node [p] is the child of rank [m] (counted from the right) of node [q]
    in a layout with the arities [ar]. *)
Definition is_child (ar : list nat) (q m p : nat) : Prop :=
  exists a x, ar !! q = Some a /\ (m < a)%nat /\
    span (rev (take q ar)) m = Some x /\ (p + x + 1 = q)%nat.

(** The [Parent] of [s], the node at [p], names the node whose child it is. *)
Definition parent_assigned (ar : list nat) (p : nat) (s : Node) : Prop :=
  exists q m, is_child ar q m p /\ Parent s = Z.of_nat q.

(** Node [p] is the root of one of the [h] finished subtrees of the prefix of
    length [i] that still wait for a parent, and not one of the first [k]. *)
Definition pending_root (ar : list nat) (i h k p : nat) : Prop :=
  exists m x, (k <= m < h)%nat /\ span (rev (take i ar)) m = Some x /\
    (p + x + 1 = i)%nat.

(** [nodes[q].Depth]. *)
Definition depth_at (c : list Node) (q : nat) : Z := from_option Depth 0 (c !! q).

(** The value of [s.Depth] after the child loop over the children [cs]. *)
Definition max_child_depth (c : list Node) (cs : list nat) : Z :=
  foldl (fun acc q => Z.max acc (depth_at c q)) 1 cs.

(** The first [k] children of node [i], from the right. *)
Fixpoint child_positions (ar : list nat) (i k : nat) : option (list nat) :=
  match k with
  | O => Some []
  | S k' =>
      cs ← child_positions ar i k';
      x ← span (rev (take i ar)) k';
      Some (cs ++ [(i - 1 - x)%nat])
  end.

(** The [Depth] of [s], the node at [p], is 1 for a leaf and otherwise what
    lines 29 and 33 make of the depths of its children. *)
Definition depth_ok (ar : list nat) (c : list Node) (p : nat) (s : Node) : Prop :=
  exists a cs, ar !! p = Some a /\ child_positions ar p a = Some cs /\
    Depth s = if (a =? 0)%nat then 1 else uint16 (max_child_depth c cs + 1).

(** Before iteration [i] of the first loop: every node below [i] has its
    depth, and its parent unless it still waits for one. *)
Definition nodes_inv2 (ar : list nat) (i h : nat) (c : list Node) : Prop :=
  forall p s, (p < i)%nat -> c !! p = Some s ->
    (parent_assigned ar p s \/ pending_root ar i h 0 p) /\ depth_ok ar c p s.

(** Inside iteration [i], after [k] rounds of the child loop: node [i] holds
    the largest depth of its first [k] children. *)
Definition children_inv2 (ar : list nat) (i h k : nat) (c : list Node) : Prop :=
  (forall p s, (p < i)%nat -> c !! p = Some s ->
     (parent_assigned ar p s \/ pending_root ar i h k p) /\ depth_ok ar c p s) /\
  exists cs s, child_positions ar i k = Some cs /\ Forall (fun q => (q < i)%nat) cs /\
               c !! i = Some s /\ Depth s = max_child_depth c cs.

(** The fields [UpdateNodes] does not compute. *)
Definition same_payload (s s' : Node) : Prop :=
  Type_ s' = Type_ s /\ Arity s' = Arity s /\ HashValue s' = HashValue s /\
  CalculatedHashValue s' = CalculatedHashValue s /\ Value s' = Value s /\
  IsEnabled s' = IsEnabled s /\ Optimize s' = Optimize s.

(** Only the level differs. *)
Definition same_but_Level (s s' : Node) : Prop := s' = set_Level s (Level s').

(** What [UpdateNodes] establishes, for the arities [ar] of a valid layout:
    [root_parent] is the [Parent] the root had before. *)
Definition updated (ar : list nat) (root_parent : Z) (c : list Node) : Prop :=
  length c = length ar /\
  (forall p s, c !! p = Some s ->
     ar_ok ar p s /\ len_ok ar p s /\ depth_ok ar c p s) /\
  (forall p s, (p < length ar - 1)%nat -> c !! p = Some s ->
     parent_assigned ar p s /\
     exists t, at_ c (Parent s) = Some t /\ Level s = uint16 (Level t + 1)) /\
  (exists root, c !! (length ar - 1)%nat = Some root /\ Level root = 1 /\
                Parent root = root_parent).


(** ** Names and values of the variables ([dataset.cpp]) *)

(** [Dataset::VariableNames], lines 138-143. *)
Definition VariableNames (d : Dataset) : list string := map Name (variables d).

(** [Dataset::GetValues(Operon::Hash)], lines 151-158.  The span is the
    column, read through [map]; [ENSURE] is a contract check. *)
Definition GetValues_hash (d : Dataset) (hashValue : Z) : Result (list Scalar) :=
  let it := partition_point (fun v => Hash v <? hashValue) (variables d) in
  match variables d !! it with
  | Some v =>
      if Hash v =? hashValue then
        match columns (Values d) !! Index v with
        | Some col => Ok col
        | None => Throw index_out_of_range
        end
      else Throw contract_violation
  | None => Throw contract_violation
  end.

(** [Dataset::GetValues(int)], lines 161-164. *)
Definition GetValues_index (d : Dataset) (index : Z) : Result (list Scalar) :=
  match at_ (columns (Values d)) index with
  | Some col => Ok col
  | None => Throw index_out_of_range
  end.

Section HashingValues.

Variable XXHash : string -> Z.

(** [Dataset::GetValues(std::string const&)], lines 145-149. *)
Definition GetValues (d : Dataset) (name : string) : Result (list Scalar) :=
  GetValues_hash d (XXHash name).

End HashingValues.

(** ** The fronts of the hierarchical sorter *)

(** The test of line 26 on two indices of the population. *)
Definition incomparable (pop : list Individual) (i j : nat) : bool :=
  match pop !! i, pop !! j with
  | Some x, Some y => Dominance_eqb (ParetoCompare x y) None_
  | _, _ => false
  end.

(** Every earlier element of [l] is related to every later one. *)
Definition ordered_pairs (R : nat -> nat -> Prop) (l : list nat) : Prop :=
  forall a b i j, (a < b)%nat -> l !! a = Some i -> l !! b = Some j -> R i j.

(** ** The running sums of the proportional selector *)

(** The first components never decrease along the list. *)
Definition nondecreasing (l : list (Scalar * nat)) : Prop :=
  forall a b ea eb, (a <= b)%nat -> l !! a = Some ea -> l !! b = Some eb ->
    (fst ea <= fst eb)%Q.

(** ** The state transition of the Jenkins generators *)

(** The state transition of [prng64], lines 61-69, run backwards. *)
Definition prng64_inv (s : Jsf64.state) : Jsf64.state :=
  let e := Jsf64.word (Jsf64.d s - Jsf64.a s) in
  let d0 := Jsf64.word (Jsf64.c s - e) in
  let c0 := Jsf64.word (Jsf64.b s - Jsf64.rotl d0 37) in
  let b0 := Z.lxor (Jsf64.a s) (Jsf64.rotl c0 13) in
  let a0 := Jsf64.word (e + Jsf64.rotl b0 7) in
  Jsf64.mk a0 b0 c0 d0.

(** A value of [uint64_t]. *)
Definition is_word (z : Z) : Prop := 0 <= z < 18446744073709551616.

(** The four members are values of [uint64_t]. *)
Definition state_ok (s : Jsf64.state) : Prop :=
  is_word (Jsf64.a s) /\ is_word (Jsf64.b s) /\ is_word (Jsf64.c s) /\ is_word (Jsf64.d s).

(** ** The 32 bit variant ([jsf.hpp], [prng32]) *)

Module Jsf32.

(** Arithmetic of [uint32_t]. *)
Definition word (z : Z) : Z := z mod 4294967296.

(** [rotl<32>], line 42. *)
Definition rotl (x k : Z) : Z :=
  word (Z.lor (Z.shiftl x k) (Z.shiftr x (32 - k))).

Record state := mk { a : Z; b : Z; c : Z; d : Z }.

(** [prng32], lines 50-58: the 2-rotate version. *)
Definition prng32 (s : state) : Z * state :=
  let e := word (a s - rotl (b s) 27) in
  let a' := Z.lxor (b s) (rotl (c s) 17) in
  let b' := word (c s + d s) in
  let c' := word (d s + e) in
  let d' := word (e + a') in
  (d', mk a' b' c' d').

(** The state transition of [prng32] run backwards. *)
Definition prng32_inv (s : state) : state :=
  let e := word (d s - a s) in
  let d0 := word (c s - e) in
  let c0 := word (b s - d0) in
  let b0 := Z.lxor (a s) (rotl c0 17) in
  let a0 := word (e + rotl b0 27) in
  mk a0 b0 c0 d0.

Definition is_word (z : Z) : Prop := 0 <= z < 4294967296.

Definition state_ok (s : state) : Prop :=
  is_word (a s) /\ is_word (b s) /\ is_word (c s) /\ is_word (d s).

End Jsf32.

(** ** Bit scanning ([sorter_base.hpp]) *)

(** The portable loop of [detail::count_trailing_zeros], lines 64-70, for an
    unsigned type of [bits_per_block] bits; [k] iterations are left.  Falling
    out of the loop the function has no value to return. *)
Fixpoint count_trailing_zeros_loop (k : nat) (bits_per_block : Z)
  (block mask i : Z) : option Z :=
  match k with
  | O => None
  | S k' =>
      if negb (Z.land block mask =? 0) then Some i
      else count_trailing_zeros_loop k' bits_per_block block
             (Z.shiftl mask 1 mod 2 ^ bits_per_block) (i + 1)
  end.

(** [detail::count_trailing_zeros] on a compiler without the bit scan
    built-ins: [mask] starts at 1 and [i] at 0. *)
Definition count_trailing_zeros (bits_per_block : Z) (block : Z) : option Z :=
  count_trailing_zeros_loop (Z.to_nat bits_per_block) bits_per_block block 1 0.

(** ** Test helpers ([test/implementation/initialization.cpp]) *)

(** The loop of [CalculateHistogram], lines 83-85: [counts[v]++]. *)
Fixpoint CalculateHistogram_loop (values : list Z) (counts : list Z) : option (list Z) :=
  match values with
  | [] => Some counts
  | v :: rest =>
      c ← at_ counts v;
      CalculateHistogram_loop rest (<[Z.to_nat v := size_t (c + 1)]> counts)
  end.

(** [CalculateHistogram], lines 77-88.  Of no values there is no largest one
    to dereference. *)
Definition CalculateHistogram (values : list Z) : option (list Z) :=
  match values with
  | [] => None
  | v0 :: rest =>
      let max := foldl Z.max v0 rest in
      CalculateHistogram_loop values (repeat 0 (Z.to_nat (size_t (max + 1))))
  end.

(** How often [k] occurs. *)
Definition occurrences (k : Z) (values : list Z) : Z :=
  Z.of_nat (length (filter (fun v => v = k) values)).

(* ================================================================== *)
(** * Part II: properties                                              *)
(* ================================================================== *)

(** ** Indexing *)

Lemma at_in_range {A : Type} (v : list A) (j : Z) :
  0 <= j < Z.of_nat (length v) -> at_ v j = v !! Z.to_nat j.
Proof.
  intros [H0 H1]. unfold at_.
  rewrite (proj2 (Z.leb_le _ _) H0), (proj2 (Z.ltb_lt _ _) H1). reflexivity.
Qed.

Lemma at_of_nat {A : Type} (v : list A) (j : nat) :
  (j < length v)%nat -> at_ v (Z.of_nat j) = v !! j.
Proof.
  intros Hj. rewrite at_in_range by lia. rewrite Nat2Z.id. reflexivity.
Qed.

Lemma size_t_small (z : Z) : 0 <= z < 65536 -> size_t z = z.
Proof. intros Hz. unfold size_t. apply Z.mod_small. lia. Qed.

Lemma uint16_small (z : Z) : 0 <= z < 65536 -> uint16 z = z.
Proof. intros Hz. unfold uint16. apply Z.mod_small. lia. Qed.

(** ** [Tree::UpdateNodes] *)

(** *** Facts about [span] and [postfix_height] *)

Lemma span_le l : forall m x, span l m = Some x -> (x <= length l)%nat.
Proof.
  induction l as [|a l IH]; intros m x H; simpl in *.
  - destruct m; inversion H; lia.
  - destruct m; [inversion H; lia|].
    destruct (span l (m + a)) as [y|] eqn:E; simpl in H; inversion H; subst.
    apply IH in E. lia.
Qed.

Lemma span_zero l : span l 0 = Some 0%nat.
Proof. destruct l; reflexivity. Qed.

Lemma span_add l : forall a b x,
  span l a = Some x -> span l (a + b) = (fun y => (x + y)%nat) <$> span (drop x l) b.
Proof.
  induction l as [|c l IH]; intros a b x H; simpl in *.
  - destruct a; inversion H; subst. simpl. destruct b; reflexivity.
  - destruct a as [|a].
    + inversion H; subst. simpl. destruct b; simpl; [reflexivity|].
      destruct (span l (b + c)); reflexivity.
    + destruct (span l (a + c)) as [y|] eqn:E; simpl in H; inversion H; subst.
      simpl. replace (a + b + c)%nat with ((a + c) + b)%nat by lia.
      rewrite (IH _ b _ E). destruct (span (drop y l) b); reflexivity.
Qed.

Lemma postfix_height_app l1 : forall h l2,
  postfix_height h (l1 ++ l2) = postfix_height h l1 ≫= fun h' => postfix_height h' l2.
Proof.
  induction l1 as [|a l1 IH]; intros h l2; simpl; [reflexivity|].
  destruct (a <=? h)%nat; [apply IH|reflexivity].
Qed.

Lemma span_complete l : forall h, postfix_height 0 l = Some h ->
  forall m, (m <= h)%nat -> exists x, span (rev l) m = Some x.
Proof.
  induction l as [|a l IH] using rev_ind; intros h H m Hm.
  - simpl in H. inversion H; subst. assert (m = 0%nat) by lia. subst. exists 0%nat. reflexivity.
  - rewrite postfix_height_app in H.
    destruct (postfix_height 0 l) as [h'|] eqn:E; simpl in H; [|discriminate].
    destruct (a <=? h')%nat eqn:Ea; [|discriminate]. inversion H; subst.
    apply Nat.leb_le in Ea.
    rewrite rev_app_distr. simpl. destruct m as [|m]; [eauto|].
    destruct (IH _ eq_refl (m + a)%nat) as [x Hx]; [lia|].
    rewrite Hx. simpl. eauto.
Qed.

Lemma span_ge l : forall m x, span l m = Some x -> (m <= x)%nat.
Proof.
  induction l as [|a l IH]; intros m x H; simpl in *.
  - destruct m; inversion H; lia.
  - destruct m; [inversion H; lia|].
    destruct (span l (m + a)) as [y|] eqn:E; simpl in H; inversion H; subst.
    apply IH in E. lia.
Qed.

Lemma postfix_height_prefix ar h i :
  postfix_height 0 ar = Some h -> exists h', postfix_height 0 (take i ar) = Some h'.
Proof.
  intros H. rewrite <- (take_drop i ar), postfix_height_app in H.
  destruct (postfix_height 0 (take i ar)); [eauto|discriminate].
Qed.

Lemma postfix_height_snoc ar i a h h' :
  ar !! i = Some a ->
  postfix_height 0 (take i ar) = Some h ->
  postfix_height 0 (take (S i) ar) = Some h' ->
  (a <= h)%nat /\ h' = (h - a + 1)%nat.
Proof.
  intros Ha Hh Hh'. rewrite (take_S_r _ _ _ Ha), postfix_height_app, Hh in Hh'.
  simpl in Hh'. destruct (a <=? h)%nat eqn:E; [|discriminate].
  apply Nat.leb_le in E. inversion Hh'. auto.
Qed.

(** The scan started at the [k]-th pending root of the prefix of length [i]
    covers the subtree of that root. *)
Lemma span_next ar i k x y :
  (i <= length ar)%nat ->
  span (rev (take i ar)) k = Some x ->
  span (rev (take i ar)) (k + 1) = Some y ->
  (x < y)%nat /\ (y <= i)%nat /\ subtree_size ar (i - 1 - x) = Some (y - x)%nat.
Proof.
  intros Hi Hx Hy.
  pose proof (span_le _ _ _ Hy) as Hle. rewrite length_rev, length_take in Hle.
  rewrite (span_add _ _ 1 _ Hx) in Hy.
  destruct (span (drop x (rev (take i ar))) 1) as [z|] eqn:E; simpl in Hy; [|discriminate].
  inversion Hy; subst y. pose proof (span_ge _ _ _ E) as Hz.
  split; [lia|]. split; [lia|].
  unfold subtree_size. rewrite skipn_rev, length_take in E.
  rewrite take_take in E.
  replace (S (i - 1 - x)) with ((i `min` length ar - x) `min` i)%nat by lia.
  rewrite E. f_equal. lia.
Qed.

Lemma lookup_insert2 (c : list Node) i j s' p' q t :
  (<[j := p']> (<[i := s']> c)) !! q = Some t ->
  (q = j /\ t = p') \/ (q <> j /\ q = i /\ t = s') \/ (q <> i /\ q <> j /\ c !! q = Some t).
Proof.
  rewrite !list_lookup_insert. intros H.
  destruct (decide (j = q ∧ (j < length (<[i:=s']> c))%nat)) as [[-> _]|Hn].
  - left. split; congruence.
  - destruct (decide (i = q ∧ (i < length c)%nat)) as [[-> Hi]|Hn'].
    + right; left. split; [|split; congruence].
      intros ->. apply Hn. split; [reflexivity|]. rewrite length_insert. exact Hi.
    + right; right. apply lookup_lt_Some in H as Hq.
      split; [intros ->; apply Hn'; split; [reflexivity|exact Hq]|].
      split; [|exact H].
      intros ->. apply Hn. split; [reflexivity|]. rewrite length_insert. exact Hq.
Qed.

Lemma UpdateNodes_children_inv ar i a h :
  Z.of_nat (length ar) <= 65536 ->
  ar !! i = Some a ->
  postfix_height 0 (take i ar) = Some h ->
  (a <= h)%nat ->
  forall r k c x, (k + r = a)%nat ->
    children_inv ar i a h k c ->
    span (rev (take i ar)) k = Some x ->
    exists c', UpdateNodes_children r i (size_t (Z.of_nat i - 1 - Z.of_nat x)) c = Some c'
               /\ children_inv ar i a h a c'.
Proof.
  intros Hn Ha Hh Hah. apply lookup_lt_Some in Ha as Hi.
  induction r as [|r IH]; intros k c x Hk Hinv Hx.
  - assert (k = a) by lia. subst k. exists c. split; [reflexivity|exact Hinv].
  - destruct (span_complete _ _ Hh (k + 1)%nat) as [y Hy]; [lia|].
    destruct (span_next ar i k x y) as (Hxy & Hyi & Hsz); [lia|assumption|assumption|].
    destruct (span_complete _ _ Hh a Hah) as [xa Hxa].
    assert (Hbound : (y + (a - (k + 1)) <= i)%nat).
    { pose proof (span_le _ _ _ Hxa) as Hle. rewrite length_rev, length_take in Hle.
      replace a with ((k + 1) + (a - (k + 1)))%nat in Hxa by lia.
      rewrite (span_add _ _ _ _ Hy) in Hxa.
      destruct (span (drop y (rev (take i ar))) (a - (k + 1))) as [z|] eqn:E;
        simpl in Hxa; [|discriminate].
      apply span_ge in E. inversion Hxa. lia. }
    destruct Hinv as (Hlen & Har & Hlt & (x' & s & Hx' & Hs & HsL)).
    rewrite Hx in Hx'. inversion Hx'; subst x'. clear Hx'.
    set (j := (i - 1 - x)%nat).
    assert (Hj : size_t (Z.of_nat i - 1 - Z.of_nat x) = Z.of_nat j)
      by (rewrite size_t_small; lia).
    destruct (lookup_lt_is_Some_2 c j) as [p Hp]; [lia|].
    destruct (Hlt j p ltac:(lia) Hp) as [(sz & Hsz' & HpL) _].
    fold j in Hsz. rewrite Hsz in Hsz'. inversion Hsz'; subst sz. clear Hsz'.
    simpl. rewrite Hj, at_of_nat, Nat2Z.id by lia. rewrite Hp. simpl.
    rewrite Hs. simpl.
    replace (size_t (Z.of_nat j - (Length p + 1)))
      with (size_t (Z.of_nat i - 1 - Z.of_nat y)) by (f_equal; lia).
    apply (IH (k + 1)%nat); [lia| |exact Hy].
    assert (Hu16 : uint16 (Length s + Length p)
                   = Z.of_nat a + Z.of_nat y - Z.of_nat (k + 1))
      by (rewrite uint16_small; lia).
    split; [rewrite !length_insert; exact Hlen|].
    split; [|split].
    + intros q t Hq. apply lookup_insert2 in Hq as [[-> ->]|[(_ & -> & ->)|(_ & _ & Hq)]].
      * apply (Har _ _ Hp).
      * apply (Har _ _ Hs).
      * apply (Har _ _ Hq).
    + intros q t Hqi Hq. apply lookup_insert2 in Hq as [[-> ->]|[(_ & -> & ->)|(Hqi' & Hqj & Hq)]].
      * split; [exists (y - x)%nat; split; [exact Hsz|simpl; lia]|].
        left. simpl. rewrite uint16_small; lia.
      * lia.
      * destruct (Hlt q t Hqi Hq) as [Hl Hpar]. split; [exact Hl|].
        destruct Hpar as [Hpar|(m & xm & Hm & Hxm & Hqm)]; [left; exact Hpar|].
        right. exists m, xm. split; [|split; assumption].
        destruct (decide (m = k)) as [->|]; [|lia].
        rewrite Hx in Hxm. inversion Hxm; subst xm. unfold j in Hqj. lia.
    + exists y. eexists. split; [exact Hy|]. split.
      * rewrite list_lookup_insert_ne by (unfold j; lia).
        apply list_lookup_insert_eq. lia.
      * simpl. exact Hu16.
Qed.

Lemma subtree_size_snoc ar i a :
  ar !! i = Some a ->
  subtree_size ar i = S <$> span (rev (take i ar)) a.
Proof.
  intros Ha. unfold subtree_size. rewrite (take_S_r _ _ _ Ha), rev_app_distr.
  reflexivity.
Qed.

Lemma par_ok_shift ar i a h p s :
  ar !! i = Some a -> (a <= h)%nat ->
  par_ok ar i h a p s -> par_ok ar (S i) (h - a + 1) 0 p s.
Proof.
  intros Ha Hah [Hpar|(m & x & Hm & Hx & Hp)]; [left; exact Hpar|].
  right. exists (S (m - a)), (S x). split; [lia|]. split; [|lia].
  rewrite (take_S_r _ _ _ Ha), rev_app_distr. simpl.
  replace (m - a + a)%nat with m by lia. rewrite Hx. reflexivity.
Qed.

Lemma children_inv_start ar i a h c s :
  ar !! i = Some a -> c !! i = Some s ->
  nodes_inv ar i h c ->
  children_inv ar i a h 0 (<[i := set_Length (set_Depth s 1) (Arity s)]> c).
Proof.
  intros Ha Hs (Hlen & Har & Hlt).
  destruct (Har _ _ Hs) as (a' & Ha' & Hsa). rewrite Ha in Ha'. inversion Ha'; subst a'.
  split; [rewrite length_insert; exact Hlen|]. split; [|split].
  - intros q t. rewrite list_lookup_insert. case_decide as Hd.
    + destruct Hd as [-> _]. intros [= <-]. exists a. split; [exact Ha|exact Hsa].
    + apply Har.
  - intros q t Hq. rewrite list_lookup_insert_ne by lia. apply Hlt, Hq.
  - exists 0%nat. eexists. split; [apply span_zero|]. split.
    + apply list_lookup_insert_eq. apply lookup_lt_Some in Hs. exact Hs.
    + simpl. lia.
Qed.

Lemma children_inv_done ar i a h c s t :
  ar !! i = Some a -> (a <= h)%nat ->
  children_inv ar i a h a c ->
  c !! i = Some s -> Arity t = Arity s -> Length t = Length s ->
  nodes_inv ar (S i) (h - a + 1) (<[i := t]> c).
Proof.
  intros Ha Hah (Hlen & Har & Hlt & (x & s' & Hx & Hs' & HsL)) Hs HtA HtL.
  rewrite Hs in Hs'. inversion Hs'; subst s'. clear Hs'.
  split; [rewrite length_insert; exact Hlen|]. split.
  - intros q u. rewrite list_lookup_insert. case_decide as Hd.
    + destruct Hd as [-> _]. intros [= <-].
      destruct (Har _ _ Hs) as (a' & Ha' & Hsa). exists a'. split; [exact Ha'|congruence].
    + apply Har.
  - intros q u Hq. rewrite list_lookup_insert. case_decide as Hd.
    + destruct Hd as [-> _]. intros [= <-]. split.
      * exists (S x). split; [rewrite (subtree_size_snoc _ _ _ Ha), Hx; reflexivity|]. lia.
      * right. exists 0%nat, 0%nat. split; [lia|]. split; [apply span_zero|lia].
    + intros Hu. assert (q < i)%nat as Hqi.
      { apply lookup_lt_Some in Hu. destruct (decide (q = i)) as [->|]; [|lia].
        exfalso. apply Hd. split; [reflexivity|exact Hu]. }
      destruct (Hlt _ _ Hqi Hu) as [Hl Hp]. split; [exact Hl|].
      apply par_ok_shift; assumption.
Qed.

Lemma UpdateNodes_node_inv ar i a h h' c :
  Z.of_nat (length ar) <= 65536 ->
  ar !! i = Some a ->
  postfix_height 0 (take i ar) = Some h ->
  postfix_height 0 (take (S i) ar) = Some h' ->
  nodes_inv ar i h c ->
  exists c', UpdateNodes_node i c = Some c' /\ nodes_inv ar (S i) h' c'.
Proof.
  intros Hn Ha Hh Hh' Hinv.
  destruct (postfix_height_snoc _ _ _ _ _ Ha Hh Hh') as [Hah ->].
  pose proof Hinv as (Hlen & Har & _).
  apply lookup_lt_Some in Ha as Hi.
  destruct (lookup_lt_is_Some_2 c i) as [s Hs]; [lia|].
  destruct (Har _ _ Hs) as (a' & Ha' & Hsa). rewrite Ha in Ha'. inversion Ha'; subst a'.
  pose proof (children_inv_start _ _ _ _ _ _ Ha Hs Hinv) as Hstart.
  unfold UpdateNodes_node. rewrite Hs. simpl. unfold IsLeaf. simpl.
  set (s1 := set_Length (set_Depth s 1) (Arity s)) in *.
  assert (Hs1 : <[i:=s1]> c !! i = Some s1) by (apply list_lookup_insert_eq; lia).
  destruct (Z.eqb_spec (Arity s) 0) as [Hz|Hnz].
  - assert (a = 0%nat) by lia. subst a. eexists. split; [reflexivity|].
    rewrite <- (list_insert_insert_eq c i s1 s1).
    apply (children_inv_done _ _ 0%nat _ _ s1 s1); auto.
  - destruct (UpdateNodes_children_inv ar i a h Hn Ha Hh Hah a 0%nat _ 0%nat
                ltac:(lia) Hstart (span_zero _)) as (c2 & Hc2 & Hinv2).
    rewrite Hsa, Nat2Z.id.
    replace (Z.of_nat i - 1 - Z.of_nat 0) with (Z.of_nat i - 1) in Hc2 by lia.
    rewrite Hc2. simpl.
    pose proof Hinv2 as (_ & _ & _ & (x & s2 & _ & Hs2 & _)).
    rewrite Hs2. simpl. eexists. split; [reflexivity|].
    apply (children_inv_done _ _ a _ _ s2); auto.
Qed.

Lemma UpdateNodes_loop_inv ar hn :
  Z.of_nat (length ar) <= 65536 ->
  postfix_height 0 ar = Some hn ->
  forall cnt i h c, (i + cnt = length ar)%nat ->
    postfix_height 0 (take i ar) = Some h ->
    nodes_inv ar i h c ->
    exists c', UpdateNodes_loop (seq i cnt) c = Some c' /\ nodes_inv ar (length ar) hn c'.
Proof.
  intros Hn Hhn. induction cnt as [|cnt IH]; intros i h c Hi Hh Hinv.
  - assert (i = length ar) by lia. subst i. rewrite take_ge in Hh by lia.
    rewrite Hhn in Hh. inversion Hh; subst h. exists c. split; [reflexivity|exact Hinv].
  - destruct (lookup_lt_is_Some_2 ar i) as [a Ha]; [lia|].
    destruct (postfix_height_prefix ar hn (S i) Hhn) as [h' Hh'].
    destruct (UpdateNodes_node_inv ar i a h h' c Hn Ha Hh Hh' Hinv) as (c1 & Hc1 & Hinv1).
    simpl. rewrite Hc1. simpl. apply (IH (S i) h'); [lia|assumption|assumption].
Qed.

Lemma same_shape_refl c : same_shape c c.
Proof. split; [reflexivity|]. intros p s H. exists s. auto. Qed.

Lemma same_shape_trans c1 c2 c3 :
  same_shape c1 c2 -> same_shape c2 c3 -> same_shape c1 c3.
Proof.
  intros [L1 H1] [L2 H2]. split; [congruence|].
  intros p s3 H3. destruct (H2 _ _ H3) as (s2 & Hs2 & A2 & B2 & C2).
  destruct (H1 _ _ Hs2) as (s1 & Hs1 & A1 & B1 & C1).
  exists s1. repeat split; congruence.
Qed.

Lemma same_shape_set_Level c i s v :
  c !! i = Some s -> same_shape c (<[i := set_Level s v]> c).
Proof.
  intros Hs. split; [apply length_insert|].
  intros p s'. rewrite list_lookup_insert. case_decide as Hd.
  - destruct Hd as [-> _]. intros [= <-]. exists s. auto.
  - intros H. exists s'. auto.
Qed.

Lemma UpdateNodes_levels_ok idxs : forall c,
  (forall p s, p ∈ idxs -> c !! p = Some s -> 0 <= Parent s < Z.of_nat (length c)) ->
  (forall p, p ∈ idxs -> (p < length c)%nat) ->
  exists c', UpdateNodes_levels idxs c = Some c' /\ same_shape c c'.
Proof.
  induction idxs as [|i idxs IH]; intros c Hpar Hlt.
  - exists c. split; [reflexivity|apply same_shape_refl].
  - destruct (lookup_lt_is_Some_2 c i) as [s Hs]; [apply Hlt; left|].
    pose proof (Hpar i s ltac:(left) Hs) as Hp.
    destruct (lookup_lt_is_Some_2 c (Z.to_nat (Parent s))) as [p Hpn]; [lia|].
    simpl. unfold UpdateNodes_level. rewrite Hs. simpl.
    rewrite at_in_range by lia. rewrite Hpn. simpl.
    pose proof (same_shape_set_Level c i s (uint16 (Level p + 1)) Hs) as Hsh.
    destruct (IH (<[i:=set_Level s (uint16 (Level p + 1))]> c)) as (c' & Hc' & Hsh').
    + intros q t Hq Ht. destruct Hsh as [Hl Hsh]. rewrite Hl.
      destruct (Hsh _ _ Ht) as (t0 & Ht0 & _ & _ & HP). rewrite HP.
      apply (Hpar q t0); [right; exact Hq|exact Ht0].
    + intros q Hq. rewrite length_insert. apply Hlt. right. exact Hq.
    + exists c'. split; [exact Hc'|]. eapply same_shape_trans; eassumption.
Qed.

Lemma Children_walk_sum ar i h c :
  Z.of_nat (length ar) <= 65536 ->
  (i < length ar)%nat ->
  length c = length ar ->
  postfix_height 0 (take i ar) = Some h ->
  (forall p s, (p < i)%nat -> c !! p = Some s -> len_ok ar p s) ->
  forall r k x, (k + r <= h)%nat ->
    span (rev (take i ar)) k = Some x ->
    exists cs y, Children_walk r (size_t (Z.of_nat i - 1 - Z.of_nat x)) c = Some cs /\
      span (rev (take i ar)) (k + r) = Some y /\
      sum_child_lengths c cs = Z.of_nat y - Z.of_nat x /\
      length cs = r /\ Forall (fun q => (q < i)%nat) cs.
Proof.
  intros Hn Hi Hlen Hh Hlt. induction r as [|r IH]; intros k x Hk Hx.
  - exists [], x. rewrite Nat.add_0_r. simpl. repeat split; auto. lia.
  - destruct (span_complete _ _ Hh (k + 1)%nat) as [y Hy]; [lia|].
    destruct (span_next ar i k x y) as (Hxy & Hyi & Hsz); [lia|assumption|assumption|].
    set (j := (i - 1 - x)%nat) in *.
    assert (Hj : size_t (Z.of_nat i - 1 - Z.of_nat x) = Z.of_nat j)
      by (rewrite size_t_small; lia).
    destruct (lookup_lt_is_Some_2 c j) as [p Hp]; [lia|].
    destruct (Hlt j p ltac:(lia) Hp) as (sz & Hsz' & HpL).
    rewrite Hsz in Hsz'. inversion Hsz'; subst sz. clear Hsz'.
    destruct (IH (k + 1)%nat y ltac:(lia) Hy) as (cs & z & Hcs & Hz & Hsum & Hl & Hall).
    simpl. rewrite Hj, at_of_nat, Nat2Z.id by lia. rewrite Hp. simpl.
    replace (size_t (Z.of_nat j - (Length p + 1)))
      with (size_t (Z.of_nat i - 1 - Z.of_nat y)) by (f_equal; lia).
    rewrite Hcs. simpl. exists (j :: cs), z.
    split; [reflexivity|]. split; [rewrite <- Hz; f_equal; lia|].
    split; [|split].
    + simpl. unfold child_length at 1. rewrite Hp. simpl. lia.
    + simpl. lia.
    + constructor; [lia|exact Hall].
Qed.

Lemma valid_postfix_inv nodes :
  valid_postfix nodes = true ->
  Z.of_nat (length nodes) <= 65536 /\
  postfix_height 0 (arities nodes) = Some 1%nat /\
  nodes_inv (arities nodes) 0 0 nodes.
Proof.
  unfold valid_postfix. intros H. apply andb_prop in H as [H Hh].
  apply andb_prop in H as [Hwf Hn]. apply Z.leb_le in Hn.
  split; [exact Hn|]. split.
  - destruct (postfix_height 0 (arities nodes)) as [[|[|h]]|]; try discriminate. reflexivity.
  - split; [unfold arities; rewrite length_map; reflexivity|]. split; [|intros; lia].
    intros p s Hs. exists (Z.to_nat (Arity s)). split.
    + unfold arities. change (map ?f ?l) with (f <$> l).
      rewrite list_lookup_fmap, Hs. reflexivity.
    + rewrite forallb_forall in Hwf.
      assert (In s nodes) as Hin by (apply list_elem_of_In, list_elem_of_lookup; eauto).
      apply Hwf in Hin. unfold node_wf in Hin. apply andb_prop in Hin as [H0 _].
      apply Z.leb_le in H0. lia.
Qed.

Lemma arities_ar_ok ar c :
  length c = length ar ->
  (forall p s, c !! p = Some s -> ar_ok ar p s) ->
  arities c = ar.
Proof.
  intros Hlen Har. apply list_eq. intros p. unfold arities.
  change (map ?f ?l) with (f <$> l). rewrite list_lookup_fmap.
  destruct (c !! p) as [s|] eqn:Hs; simpl.
  - destruct (Har _ _ Hs) as (a & Ha & HsA). rewrite Ha, HsA, Nat2Z.id. reflexivity.
  - symmetry. apply lookup_ge_None. apply lookup_ge_None in Hs. lia.
Qed.

(** C5.  For a valid postfix layout (one tree, small enough for the 16 bit
    fields of a node) [UpdateNodes] succeeds, and afterwards the [Length] of
    every node [i] is [i] minus the index of its first descendant, that is the
    number of its descendants; for an internal node this is also the sum of
    [child.Length + 1] over its children. *)
Theorem UpdateNodes_Length_counts_descendants (nodes : list Node) :
  valid_postfix nodes = true ->
  exists nodes', UpdateNodes nodes = Some nodes' /\ length nodes' = length nodes /\
    forall i s, nodes' !! i = Some s ->
      (exists f, first_descendant_index nodes' i = Some f /\ (f <= i)%nat /\
                 Length s = Z.of_nat i - Z.of_nat f) /\
      (IsLeaf s = false ->
       exists cs, ChildIndices nodes' i = Some cs /\
                  Z.of_nat (length cs) = Arity s /\
                  Forall (fun c => (c < i)%nat) cs /\
                  Length s = sum_child_lengths nodes' cs).
Proof.
  intros Hvalid.
  destruct (valid_postfix_inv _ Hvalid) as (Hn & Hh & Hinv0).
  set (ar := arities nodes) in *.
  assert (Hlen : length ar = length nodes) by (unfold ar, arities; apply length_map).
  rewrite <- Hlen in Hn.
  destruct (UpdateNodes_loop_inv ar 1%nat Hn Hh (length ar) 0%nat 0%nat nodes
              ltac:(lia) eq_refl Hinv0) as (c1 & Hc1 & (Hl1 & Har1 & Hlt1)).
  assert (Hpos : (0 < length ar)%nat).
  { destruct ar; [discriminate Hh|simpl; lia]. }
  destruct (lookup_lt_is_Some_2 c1 (length ar - 1)) as [root Hroot]; [lia|].
  pose proof (same_shape_set_Level c1 _ root 1 Hroot) as Hsh2.
  set (c2 := <[(length ar - 1)%nat := set_Level root 1]> c1) in *.
  destruct (UpdateNodes_levels_ok (rev (seq 0 (length ar - 1))) c2) as (c3 & Hc3 & Hsh3).
  { intros p s Hp Hs. apply list_elem_of_In, in_rev, in_seq in Hp.
    destruct Hsh2 as [Hl2 Hsh2]. rewrite Hl2, Hl1.
    destruct (Hsh2 _ _ Hs) as (s1 & Hs1 & _ & _ & ->).
    destruct (Hlt1 p s1 ltac:(lia) Hs1) as [_ [Hpar|(m & x & Hm & Hx & Hpx)]]; [exact Hpar|].
    assert (m = 0%nat) by lia. subst m. rewrite span_zero in Hx. inversion Hx. lia. }
  { intros p Hp. apply list_elem_of_In, in_rev, in_seq in Hp.
    destruct Hsh2 as [Hl2 _]. rewrite Hl2, Hl1. lia. }
  pose proof (same_shape_trans _ _ _ Hsh2 Hsh3) as [Hl3 Hsh].
  assert (Hfin : forall p s, c3 !! p = Some s -> ar_ok ar p s /\ len_ok ar p s).
  { intros p s Hs. destruct (Hsh _ _ Hs) as (s1 & Hs1 & HA & HL & _).
    apply lookup_lt_Some in Hs1 as Hp.
    destruct (Har1 _ _ Hs1) as (a & Ha & Hsa).
    destruct (Hlt1 p s1 ltac:(lia) Hs1) as [(x & Hx & HsL) _].
    split; [exists a|exists x]; split; congruence. }
  assert (Har3 : arities c3 = ar).
  { apply arities_ar_ok; [congruence|]. intros p s Hs. apply (Hfin _ _ Hs). }
  exists c3. split.
  { unfold UpdateNodes. rewrite <- Hlen, Hc1. simpl. rewrite Hroot. simpl. exact Hc3. }
  split; [congruence|].
  intros i s Hs. destruct (Hfin _ _ Hs) as [(a & Ha & Hsa) (x & Hx & HsL)].
  apply lookup_lt_Some in Ha as Hi.
  pose proof Hx as Hx'. rewrite (subtree_size_snoc _ _ _ Ha) in Hx'.
  destruct (span (rev (take i ar)) a) as [y|] eqn:Hy; [|discriminate].
  simpl in Hx'. inversion Hx'; subst x. clear Hx'.
  pose proof (span_le _ _ _ Hy) as Hyi. rewrite length_rev, length_take in Hyi.
  split.
  - exists (S i - S y)%nat. unfold first_descendant_index. rewrite Har3, Hx. simpl.
    split; [reflexivity|]. split; lia.
  - intros Hleaf. unfold IsLeaf in Hleaf. apply Z.eqb_neq in Hleaf.
    destruct (postfix_height_prefix ar 1%nat i Hh) as [h Hhi].
    destruct (postfix_height_prefix ar 1%nat (S i) Hh) as [h' Hhi'].
    destruct (postfix_height_snoc _ _ _ _ _ Ha Hhi Hhi') as [Hah _].
    destruct (Children_walk_sum ar i h c3 Hn Hi ltac:(congruence) Hhi
                ltac:(intros p t _ Ht; apply (Hfin _ _ Ht)) a 0%nat 0%nat
                ltac:(lia) (span_zero _)) as (cs & z & Hcs & Hz & Hsum & Hlcs & Hall).
    simpl in Hz. rewrite Hy in Hz. inversion Hz; subst z.
    exists cs. unfold ChildIndices. rewrite Hs. simpl. unfold IsLeaf.
    rewrite (proj2 (Z.eqb_neq _ _) Hleaf), Hsa, Nat2Z.id.
    replace (Z.of_nat i - 1 - Z.of_nat 0) with (Z.of_nat i - 1) in Hcs by lia.
    split; [exact Hcs|]. split; [lia|]. split; [exact Hall|]. lia.
Qed.

Lemma UpdateNodes_Length_counts_descendants_witness :
  valid_postfix example_tree = true /\
  exists nodes', UpdateNodes example_tree = Some nodes' /\
    length nodes' = length example_tree /\
    forall i s, nodes' !! i = Some s ->
      (exists f, first_descendant_index nodes' i = Some f /\ (f <= i)%nat /\
                 Length s = Z.of_nat i - Z.of_nat f) /\
      (IsLeaf s = false ->
       exists cs, ChildIndices nodes' i = Some cs /\
                  Z.of_nat (length cs) = Arity s /\
                  Forall (fun c => (c < i)%nat) cs /\
                  Length s = sum_child_lengths nodes' cs).
Proof.
  split; [reflexivity|].
  apply (UpdateNodes_Length_counts_descendants example_tree). reflexivity.
Defined.

(** The derived fields of the example tree. *)
Example UpdateNodes_example :
  option_map (map (fun s => (Length s, Depth s, Level s, Parent s)))
             (UpdateNodes example_tree)
  = Some [(0, 1, 3, 2); (0, 1, 3, 2); (2, 2, 2, 5); (0, 1, 3, 4); (1, 2, 2, 5);
          (5, 3, 1, 0)].
Proof. reflexivity. Qed.

(** ** Coefficients *)

Lemma GetCoefficients_loop_app nodes : forall acc,
  GetCoefficients_loop nodes acc = acc ++ GetCoefficients_loop nodes [].
Proof.
  induction nodes as [|s rest IH]; intros acc; simpl.
  - rewrite app_nil_r. reflexivity.
  - destruct (IsLeaf s).
    + rewrite IH, (IH [Value s]), <- app_assoc. reflexivity.
    + apply IH.
Qed.

Lemma GetCoefficients_cons s rest :
  GetCoefficients (s :: rest) =
  (if IsLeaf s then [Value s] else []) ++ GetCoefficients rest.
Proof.
  unfold GetCoefficients. simpl. destruct (IsLeaf s); [|reflexivity].
  apply GetCoefficients_loop_app.
Qed.

Lemma SetCoefficients_loop_spec nodes coefficients : forall idx,
  (idx + leaf_count nodes <= length coefficients)%nat ->
  exists nodes', SetCoefficients_loop nodes coefficients idx = Some nodes' /\
    GetCoefficients nodes' = take (leaf_count nodes) (drop idx coefficients) /\
    map Arity nodes' = map Arity nodes.
Proof.
  induction nodes as [|s rest IH]; intros idx Hlen.
  - exists []. repeat split; reflexivity.
  - unfold leaf_count in *. simpl in *. rewrite filter_cons in *.
    destruct (decide (IsLeaf s = true)) as [Hl|Hl].
    + rewrite Hl. simpl in Hlen.
      destruct (lookup_lt_is_Some_2 coefficients idx) as [c Hc]; [lia|].
      destruct (IH (S idx)) as (rest' & Hr & Hg & Ha); [lia|].
      rewrite Hc, Hr. simpl. eexists. split; [reflexivity|]. split.
      * rewrite GetCoefficients_cons.
        replace (IsLeaf (set_Value s c)) with true by (symmetry; exact Hl).
        rewrite Hg, (drop_S _ _ _ Hc). reflexivity.
      * simpl. f_equal. exact Ha.
    + apply not_true_is_false in Hl. rewrite Hl.
      destruct (IH idx) as (rest' & Hr & Hg & Ha); [lia|].
      rewrite Hr. simpl. eexists. split; [reflexivity|]. split.
      * rewrite GetCoefficients_cons, Hl. exact Hg.
      * simpl. f_equal. exact Ha.
Qed.

(** C9.  With at least as many coefficients as the tree has leaves,
    [SetCoefficients] succeeds and [GetCoefficients] then returns the first
    [leaf_count] coefficients, in the array order of the leaves. *)
Theorem SetCoefficients_GetCoefficients (nodes : list Node) (coefficients : list Scalar) :
  (leaf_count nodes <= length coefficients)%nat ->
  exists nodes', SetCoefficients nodes coefficients = Some nodes' /\
    GetCoefficients nodes' = take (leaf_count nodes) coefficients.
Proof.
  intros Hlen.
  destruct (SetCoefficients_loop_spec nodes coefficients 0%nat Hlen) as (n' & H1 & H2 & _).
  exists n'. split; [exact H1|]. rewrite H2. reflexivity.
Qed.

Lemma SetCoefficients_GetCoefficients_witness :
  exists nodes',
    SetCoefficients example_tree [(7 # 2)%Q; (-1)%Q; (1 # 3)%Q; 9%Q] = Some nodes' /\
    GetCoefficients nodes' =
      take (leaf_count example_tree) [(7 # 2)%Q; (-1)%Q; (1 # 3)%Q; 9%Q].
Proof.
  apply (SetCoefficients_GetCoefficients example_tree). vm_compute. lia.
Defined.

(** The same round trip, evaluated. *)
Example SetCoefficients_example :
  option_map GetCoefficients
    (SetCoefficients example_tree [(7 # 2)%Q; (-1)%Q; (1 # 3)%Q; 9%Q])
  = Some [(7 # 2)%Q; (-1)%Q; (1 # 3)%Q].
Proof. reflexivity. Qed.

(** ** Sorting by insertion *)

Lemma insert_sorted_Permutation {A : Type} (lt : A -> A -> bool) x l :
  Permutation (insert_sorted lt x l) (x :: l).
Proof.
  induction l as [|y l IH]; simpl; [reflexivity|].
  destruct (lt y x); [|reflexivity].
  rewrite IH. apply perm_swap.
Qed.

Lemma sort_by_Permutation {A : Type} (lt : A -> A -> bool) l :
  Permutation (sort_by lt l) l.
Proof.
  induction l as [|x l IH]; simpl; [reflexivity|].
  rewrite insert_sorted_Permutation. constructor. exact IH.
Qed.

Lemma sorted_by_cons {A : Type} (lt : A -> A -> bool) x y l :
  sorted_by lt (x :: y :: l) = negb (lt y x) && sorted_by lt (y :: l).
Proof. reflexivity. Qed.

Lemma sorted_by_tail {A : Type} (lt : A -> A -> bool) x l :
  sorted_by lt (x :: l) = true -> sorted_by lt l = true.
Proof.
  destruct l as [|y l]; [reflexivity|]. rewrite sorted_by_cons.
  intros H. apply andb_prop in H as [_ H]. exact H.
Qed.

Lemma insert_sorted_hash_less x l :
  sorted_by hash_less l = true -> sorted_by hash_less (insert_sorted hash_less x l) = true.
Proof.
  induction l as [|y l IH]; intros Hs; [reflexivity|].
  simpl insert_sorted. destruct (hash_less y x) eqn:Hyx.
  - pose proof (IH (sorted_by_tail _ _ _ Hs)) as IH'.
    destruct l as [|z l].
    + simpl. unfold hash_less in *. apply Z.ltb_lt in Hyx.
      rewrite (proj2 (Z.ltb_ge _ _)) by lia. reflexivity.
    + simpl insert_sorted in *. rewrite sorted_by_cons in Hs.
      apply andb_prop in Hs as [Hzy _].
      destruct (hash_less z x).
      * rewrite sorted_by_cons, Hzy. exact IH'.
      * rewrite sorted_by_cons. unfold hash_less in *. apply Z.ltb_lt in Hyx.
        rewrite (proj2 (Z.ltb_ge _ _)) by lia. exact IH'.
  - rewrite sorted_by_cons, Hyx. exact Hs.
Qed.

Lemma sort_by_hash_less_sorted l : sorted_by hash_less (sort_by hash_less l) = true.
Proof.
  induction l as [|x l IH]; [reflexivity|]. simpl. apply insert_sorted_hash_less, IH.
Qed.

Lemma sorted_hash_head_le x l :
  sorted_by hash_less (x :: l) = true -> forall y, In y l -> Hash x <= Hash y.
Proof.
  revert x. induction l as [|z l IH]; intros x Hs y Hy; [destruct Hy|].
  rewrite sorted_by_cons in Hs. apply andb_prop in Hs as [Hzx Hs].
  unfold hash_less in Hzx. apply negb_true_iff, Z.ltb_ge in Hzx.
  destruct Hy as [<-|Hy]; [exact Hzx|].
  pose proof (IH z Hs y Hy). lia.
Qed.

Lemma sorted_hash_lookup_le l : sorted_by hash_less l = true ->
  forall i j x y, (i <= j)%nat -> l !! i = Some x -> l !! j = Some y -> Hash x <= Hash y.
Proof.
  induction l as [|z l IH]; intros Hs i j x y Hij Hi Hj; [discriminate|].
  destruct i as [|i]; destruct j as [|j]; simpl in *; try lia.
  - inversion Hi; inversion Hj; subst. lia.
  - inversion Hi; subst. apply (sorted_hash_head_le _ _ Hs).
    apply list_elem_of_In, list_elem_of_lookup. eauto.
  - apply (IH (sorted_by_tail _ _ _ Hs) i j); [lia|assumption|assumption].
Qed.

(** ** Binary search *)

Lemma partition_point_loop_spec {A : Type} (pred : A -> bool) (l : list A) (k : nat) :
  (forall i x, (i < k)%nat -> l !! i = Some x -> pred x = true) ->
  (forall i x, (k <= i)%nat -> l !! i = Some x -> pred x = false) ->
  forall fuel first len,
    (first + len <= length l)%nat -> (len <= fuel)%nat ->
    (first <= k <= first + len)%nat ->
    partition_point_loop fuel pred l first len = k.
Proof.
  intros Hlt Hge. induction fuel as [|fuel IH]; intros first len Hlen Hfuel Hk.
  - cbn [partition_point_loop]. lia.
  - cbn [partition_point_loop]. cbv zeta.
    destruct (Nat.eqb_spec len 0) as [->|Hne]; [lia|].
    assert (Hhalf : (len / 2 < len)%nat) by (apply Nat.div_lt; lia).
    destruct (lookup_lt_is_Some_2 l (first + len / 2)) as [x Hx]; [lia|].
    rewrite Hx. destruct (pred x) eqn:Hp.
    + apply IH; [lia|lia|].
      destruct (le_lt_dec k (first + len / 2)) as [Hle|Hgt]; [|lia].
      rewrite (Hge _ _ Hle Hx) in Hp. discriminate.
    + apply IH; [lia|lia|].
      destruct (le_lt_dec k (first + len / 2)) as [Hle|Hgt]; [lia|].
      rewrite (Hlt _ _ Hgt Hx) in Hp. discriminate.
Qed.

Lemma sorted_hash_partition h l :
  sorted_by hash_less l = true ->
  exists k, (k <= length l)%nat /\
    (forall i x, (i < k)%nat -> l !! i = Some x -> (Hash x <? h) = true) /\
    (forall i x, (k <= i)%nat -> l !! i = Some x -> (Hash x <? h) = false).
Proof.
  induction l as [|z l IH]; intros Hs.
  - exists 0%nat. split; [simpl; lia|]. split; intros i x _ Hx; discriminate.
  - destruct (Z.ltb_spec (Hash z) h) as [Hz|Hz].
    + destruct (IH (sorted_by_tail _ _ _ Hs)) as (k & Hk & Hlt & Hge).
      exists (S k). split; [simpl; lia|]. split.
      * intros [|i] x Hi Hx; simpl in Hx.
        -- inversion Hx; subst. apply Z.ltb_lt. exact Hz.
        -- apply (Hlt i); [lia|exact Hx].
      * intros [|i] x Hi Hx; [lia|]. apply (Hge i); [lia|exact Hx].
    + exists 0%nat. split; [lia|]. split; [intros; lia|].
      intros i x _ Hx. apply Z.ltb_ge.
      pose proof (sorted_hash_lookup_le _ Hs 0%nat i z x ltac:(lia) eq_refl Hx). lia.
Qed.

Lemma partition_point_sorted_hash (h : Z) (l : list DatasetVariable) :
  sorted_by hash_less l = true ->
  let k := partition_point (fun v => Hash v <? h) l in
  (k <= length l)%nat /\
  (forall i x, (i < k)%nat -> l !! i = Some x -> Hash x < h) /\
  (forall i x, (k <= i)%nat -> l !! i = Some x -> h <= Hash x).
Proof.
  intros Hs. destruct (sorted_hash_partition h l Hs) as (k & Hk & Hlt & Hge).
  cbv zeta. unfold partition_point.
  rewrite (partition_point_loop_spec _ l k Hlt Hge (length l) 0%nat (length l))
    by lia.
  split; [exact Hk|]. split.
  - intros i x Hi Hx. apply Z.ltb_lt. apply (Hlt i); assumption.
  - intros i x Hi Hx. apply Z.ltb_ge. apply (Hge i); assumption.
Qed.

(** ** [Dataset::GetVariable] *)

Lemma GetVariable_hash_Some d h v :
  GetVariable_hash d h = Some v -> In v (variables d) /\ Hash v = h.
Proof.
  unfold GetVariable_hash.
  destruct (variables d !! _) as [w|] eqn:Hw; [|discriminate].
  destruct (Z.eqb_spec (Hash w) h) as [He|]; [|discriminate].
  intros [= <-]. split; [|exact He].
  apply list_elem_of_In, list_elem_of_lookup. eauto.
Qed.

Lemma GetVariable_hash_found d h :
  sorted_by hash_less (variables d) = true ->
  (exists v, In v (variables d) /\ Hash v = h) ->
  exists v, GetVariable_hash d h = Some v.
Proof.
  intros Hs (v & Hin & Hv).
  destruct (partition_point_sorted_hash h _ Hs) as (Hk & Hlt & Hge).
  apply list_elem_of_In, list_elem_of_lookup in Hin as [j Hj].
  set (k := partition_point (fun v => Hash v <? h) (variables d)) in *.
  assert (k <= j)%nat as Hkj.
  { destruct (le_lt_dec k j) as [|Hjk]; [assumption|].
    pose proof (Hlt _ _ Hjk Hj). lia. }
  apply lookup_lt_Some in Hj as Hjl.
  destruct (lookup_lt_is_Some_2 (variables d) k) as [w Hw]; [lia|].
  pose proof (Hge k w ltac:(lia) Hw) as H1.
  pose proof (sorted_hash_lookup_le _ Hs k j w v Hkj Hw Hj) as H2.
  exists w. unfold GetVariable_hash. fold k. rewrite Hw.
  rewrite (proj2 (Z.eqb_eq _ _)) by lia. reflexivity.
Qed.

Section GetVariableByName.

Variable XXHash : string -> Z.

(** C10.  On a dataset whose variables are sorted by hash (the order every
    constructor and [SetVariableNames] establish), [GetVariable] returns a
    stored variable whose hash is the hash of the name when there is one,
    and [None] when there is none. *)
Theorem GetVariable_by_name (d : Dataset) (name : string) :
  sorted_by hash_less (variables d) = true ->
  ((exists v, In v (variables d) /\ Hash v = XXHash name) ->
   exists v, GetVariable XXHash d name = Some v /\
             In v (variables d) /\ Hash v = XXHash name) /\
  ((forall v, In v (variables d) -> Hash v <> XXHash name) ->
   GetVariable XXHash d name = None).
Proof.
  intros Hs. unfold GetVariable. split.
  - intros Hex. destruct (GetVariable_hash_found d _ Hs Hex) as [v Hv].
    exists v. split; [exact Hv|]. apply (GetVariable_hash_Some _ _ _ Hv).
  - intros Hnone. destruct (GetVariable_hash d (XXHash name)) as [v|] eqn:Hv;
      [|reflexivity].
    apply GetVariable_hash_Some in Hv as [Hin Hh]. destruct (Hnone v Hin Hh).
Qed.

(** The order is the one the code maintains. *)
Lemma defaultVariables_sorted count :
  sorted_by hash_less (defaultVariables XXHash count) = true.
Proof. apply sort_by_hash_less_sorted. Qed.

Lemma SetVariableNames_sorted names d d' :
  SetVariableNames XXHash names d = (inr tt, d') ->
  sorted_by hash_less (variables d') = true.
Proof.
  unfold SetVariableNames, throw.
  destruct (negb _); [discriminate|]. destruct (negb _); [discriminate|].
  intros [= <-]. apply sort_by_hash_less_sorted.
Qed.

End GetVariableByName.

Lemma GetVariable_by_name_witness :
  sorted_by hash_less (variables example_dataset) = true /\
  ((exists v, In v (variables example_dataset) /\ Hash v = fnv1 "X2") ->
   exists v, GetVariable fnv1 example_dataset "X2" = Some v /\
             In v (variables example_dataset) /\ Hash v = fnv1 "X2") /\
  ((forall v, In v (variables example_dataset) -> Hash v <> fnv1 "X2") ->
   GetVariable fnv1 example_dataset "X2" = None).
Proof.
  split; [vm_compute; reflexivity|].
  apply (GetVariable_by_name fnv1 example_dataset "X2"). vm_compute. reflexivity.
Defined.

(** A name that is bound is found, with its column; one that is not gives
    [None]. *)
Example GetVariable_example :
  option_map (fun v => (Name v, Index v)) (GetVariable fnv1 example_dataset "X2")
    = Some ("X2"%string, 1%nat) /\
  GetVariable fnv1 example_dataset "Y" = None.
Proof. split; vm_compute; reflexivity. Qed.

(** ** View mode *)

(** C7.  In view mode each of [Shuffle], [Normalize] and [Standardize] throws
    its "does not own the data" error and leaves the dataset as it was; on a
    dataset that owns its values none of them throws a [runtime_error]. *)
Theorem view_is_not_mutable {RG : Type} `{RandomSource RG}
  (d : Dataset) (random : RG) (i : nat) (range : Range) :
  (IsView d = true ->
     Shuffle random d = (inl (runtime_error cannot_shuffle), d) /\
     Normalize i range d = (inl (runtime_error cannot_normalize), d) /\
     Standardize i range d = (inl (runtime_error cannot_standardize), d)) /\
  (IsView d = false ->
     forall what,
       fst (Shuffle random d) <> inl (runtime_error what) /\
       fst (Normalize i range d) <> inl (runtime_error what) /\
       fst (Standardize i range d) <> inl (runtime_error what)).
Proof.
  split; intros Hview.
  - unfold Shuffle, Normalize, Standardize, throw. rewrite Hview. auto.
  - intros what. unfold Shuffle, Normalize, Standardize, throw. rewrite Hview.
    split; [|split].
    + destruct (shuffle_indices _ _). simpl. discriminate.
    + destruct (negb _); [simpl; discriminate|].
      destruct (columns (values d) !! i); [|simpl; discriminate].
      destruct (minCoeff _); [|simpl; discriminate].
      destruct (maxCoeff _); [|simpl; discriminate].
      destruct (scalar_is_zero _); simpl; discriminate.
    + destruct (negb _); [simpl; discriminate|].
      destruct (columns (values d) !! i); [|simpl; discriminate].
      destruct (accumulate _); [|simpl; discriminate].
      destruct (scalar_is_zero _); simpl; discriminate.
Qed.

(** The view of the example data refuses, the owner normalizes. *)
Example Normalize_example :
  Normalize 0 (mkRange 0 2) example_view
    = (inl (runtime_error cannot_normalize), example_view) /\
  Values example_view = example_matrix /\
  fst (Normalize 0 (mkRange 0 2) example_dataset) = inr tt /\
  columns (values (snd (Normalize 0 (mkRange 0 2) example_dataset)))
    = [[0%Q; 1%Q]; [1%Q; 3%Q]; [5%Q; 5%Q]].
Proof. repeat split; vm_compute; reflexivity. Qed.

(** ** [Dataset::Standardize] *)

(** What the code computes on an owned dataset: the column minus the mean,
    divided by the square of the variance. *)
Lemma Standardize_owned (d : Dataset) (i : nat) (range : Range)
  (col : list Scalar) (stats : univariate_statistics) :
  IsView d = false ->
  (Start range + Size range <= rows (values d))%nat ->
  columns (values d) !! i = Some col ->
  accumulate (segment col (Start range) (Size range)) = Some stats ->
  scalar_is_zero (scalar_mul (variance stats) (variance stats)) = false ->
  Standardize i range d =
    (inr tt,
     set_values d (set_col (values d) i
       (map (fun x => scalar_div (scalar_sub x (mean stats))
                                 (scalar_mul (variance stats) (variance stats)))
            col))).
Proof.
  intros Hview Hrange Hcol Hacc Hnz. unfold Standardize.
  rewrite Hview, (proj2 (Nat.leb_le _ _) Hrange), Hcol. simpl. rewrite Hacc, Hnz.
  reflexivity.
Qed.

(** C1 (the code departs from the claim).  The column [0; 4] has mean 2 and
    variance 4, so its standard deviation is 2 (2 * 2 = 4) and the
    standardized column would be [-1; 1]; the code divides by the squared
    variance 4 * 4 = 16 and stores [-1/8; 1/8]. *)
Theorem Standardize_divides_by_squared_variance :
  accumulate [0%Q; 4%Q] = Some (mkStats 2%Q 4%Q) /\
  scalar_mul 2%Q 2%Q = 4%Q /\
  map (fun x => scalar_div (scalar_sub x 2%Q) 2%Q) [0%Q; 4%Q] = [(-1)%Q; 1%Q] /\
  fst (Standardize 0 (mkRange 0 2) example_dataset) = inr tt /\
  columns (values (snd (Standardize 0 (mkRange 0 2) example_dataset))) !! 0%nat
    = Some [(-1 # 8)%Q; (1 # 8)%Q].
Proof. repeat split; vm_compute; reflexivity. Qed.

(** ** The hierarchical sorter *)

Lemma Sort_scan_spec pop q1 :
  (q1 < length pop)%nat ->
  forall fuel q dominated cnt,
    (cnt <= length q)%nat -> (length q - cnt <= fuel)%nat ->
    Forall (fun i => (i < length pop)%nat) (q ++ dominated) ->
    exists q' dom', Sort_scan fuel pop q1 q dominated cnt = Some (q', dom') /\
      Permutation (q' ++ dom') (q ++ dominated) /\ (length q' <= length q)%nat.
Proof.
  intros Hq1. induction fuel as [|fuel IH]; intros q dominated cnt Hcnt Hfuel Hall.
  - exists q, dominated. simpl.
    rewrite (proj2 (Nat.ltb_ge _ _)) by lia. repeat split; auto.
  - cbn [Sort_scan]. destruct (Nat.ltb_spec cnt (length q)) as [Hlt|Hge];
      [|exists q, dominated; repeat split; auto].
    destruct q as [|qj q']; [simpl in Hlt; lia|].
    pose proof Hall as Hall'. rewrite <- app_comm_cons in Hall'.
    apply Forall_cons in Hall' as [Hqj Hall'].
    destruct (lookup_lt_is_Some_2 pop q1 Hq1) as [x Hx].
    destruct (lookup_lt_is_Some_2 pop qj Hqj) as [y Hy].
    rewrite Hx, Hy. simpl in *.
    destruct (Dominance_eqb (ParetoCompare x y) None_).
    + destruct (IH (q' ++ [qj]) dominated (S cnt)) as (q2 & d2 & Hs & Hp & Hl).
      * rewrite length_app. simpl. lia.
      * rewrite length_app. simpl. lia.
      * rewrite <- app_assoc. apply Forall_app in Hall' as [Ha Hb].
        apply Forall_app. split; [exact Ha|]. constructor; assumption.
      * exists q2, d2. split; [exact Hs|]. split.
        -- rewrite Hp, <- app_assoc. simpl.
           rewrite <- Permutation_middle. reflexivity.
        -- rewrite length_app in Hl. simpl in Hl. lia.
    + destruct (IH q' (dominated ++ [qj]) cnt) as (q2 & d2 & Hs & Hp & Hl);
        [lia|lia| |].
      * apply Forall_app in Hall' as [Ha Hb].
        apply Forall_app. split; [exact Ha|].
        apply Forall_app. split; [exact Hb|]. constructor; [assumption|constructor].
      * exists q2, d2. split; [exact Hs|]. split; [|lia].
        rewrite Hp, app_assoc, <- Permutation_cons_append. reflexivity.
Qed.

Lemma Sort_front_spec pop :
  forall fuel q front dominated,
    (length q <= fuel)%nat ->
    Forall (fun i => (i < length pop)%nat) (q ++ dominated) ->
    exists front' dom', Sort_front fuel pop q front dominated = Some (front', dom') /\
      Permutation (front' ++ dom') (front ++ q ++ dominated) /\
      (q <> [] \/ front <> [] -> front' <> []).
Proof.
  induction fuel as [|fuel IH]; intros q front dominated Hfuel Hall.
  - destruct q; [|simpl in Hfuel; lia]. exists front, dominated.
    split; [reflexivity|]. split; [reflexivity|]. intros [H|H]; congruence.
  - destruct q as [|q1 q'].
    + exists front, dominated.
      split; [reflexivity|]. split; [reflexivity|]. intros [H|H]; congruence.
    + cbn [Sort_front]. rewrite <- app_comm_cons in Hall.
      apply Forall_cons in Hall as [Hq1 Hall].
      destruct (Sort_scan_spec pop q1 Hq1 (length q') q' dominated 0%nat)
        as (q2 & d2 & Hs & Hp & Hl); [lia|lia|exact Hall|].
      rewrite Hs. simpl.
      destruct (IH q2 (front ++ [q1]) d2) as (f3 & d3 & Hf & Hp3 & Hne).
      * simpl in Hfuel. lia.
      * rewrite Hp. exact Hall.
      * exists f3, d3. split; [exact Hf|]. split.
        -- rewrite Hp3, Hp, <- app_assoc. reflexivity.
        -- intros _. apply Hne. right. destruct front; discriminate.
Qed.

Lemma Sort_loop_spec pop :
  forall fuel q fronts,
    (length q <= fuel)%nat ->
    Forall (fun i => (i < length pop)%nat) q ->
    exists fronts', Sort_loop fuel pop q fronts = Some fronts' /\
      Permutation (concat fronts') (concat fronts ++ q) /\
      (Forall (fun f => f <> []) fronts -> Forall (fun f => f <> []) fronts').
Proof.
  induction fuel as [|fuel IH]; intros q fronts Hfuel Hall.
  - destruct q; [|simpl in Hfuel; lia]. exists fronts.
    split; [reflexivity|]. rewrite app_nil_r. split; [reflexivity|auto].
  - destruct q as [|q0 q'].
    + exists fronts. split; [reflexivity|]. rewrite app_nil_r. split; [reflexivity|auto].
    + cbn [Sort_loop].
      destruct (Sort_front_spec pop (length (q0 :: q')) (q0 :: q') [] [])
        as (front & dom & Hf & Hp & Hne); [lia|rewrite app_nil_r; exact Hall|].
      rewrite Hf. simpl fst. simpl snd. cbn [mbind option_bind].
      rewrite app_nil_r in Hp. simpl in Hp.
      assert (front <> []) as Hfront by (apply Hne; left; discriminate).
      assert (length front + length dom = length (q0 :: q'))%nat as Hlen.
      { rewrite <- length_app. apply Permutation_length. exact Hp. }
      destruct (IH (sort_by (index_less pop) dom) (fronts ++ [front]))
        as (fs & Hfs & Hpf & Hnef).
      * rewrite (Permutation_length (sort_by_Permutation _ _)).
        destruct front; [congruence|]. simpl in *. lia.
      * rewrite (sort_by_Permutation _ _).
        assert (Forall (fun i => (i < length pop)%nat) (front ++ dom)) as Hfd
          by (rewrite Hp; exact Hall).
        apply Forall_app in Hfd as [_ Hd]. exact Hd.
      * exists fs. split; [exact Hfs|]. split.
        -- rewrite Hpf, concat_app, (sort_by_Permutation _ _). simpl.
           rewrite app_nil_r, <- app_assoc, Hp. reflexivity.
        -- intros Hall'. apply Hnef. apply Forall_app. split; [exact Hall'|].
           constructor; [exact Hfront|constructor].
Qed.

Lemma NoDup_concat_unique {A : Type} (ls : list (list A)) (x : A) :
  NoDup (concat ls) ->
  forall k k' f f', ls !! k = Some f -> ls !! k' = Some f' ->
    In x f -> In x f' -> k = k'.
Proof.
  induction ls as [|l ls IH]; intros Hnd k k' f f' Hk Hk' Hx Hx'; [discriminate|].
  simpl in Hnd. apply NoDup_app in Hnd as (Hl & Hdisj & Hls).
  assert (forall j g, ls !! j = Some g -> In x g -> In x (concat ls)) as Hin.
  { intros j g Hj Hg. apply in_concat. exists g. split; [|exact Hg].
    apply list_elem_of_In, list_elem_of_lookup. eauto. }
  destruct k as [|k]; destruct k' as [|k']; simpl in *.
  - reflexivity.
  - inversion Hk; subst. exfalso.
    apply (Hdisj x); [apply list_elem_of_In; exact Hx|].
    apply list_elem_of_In. eapply Hin; eassumption.
  - inversion Hk'; subst. exfalso.
    apply (Hdisj x); [apply list_elem_of_In; exact Hx'|].
    apply list_elem_of_In. eapply Hin; eassumption.
  - f_equal. eapply IH; eassumption.
Qed.

(** C8.  [Sort] returns, and its fronts partition the population: together
    they hold every index below the population size exactly once, so every
    index lies in exactly one front, and no front is empty.  The sorter's call
    operator returns the same fronts when the first individual has at least
    two objectives. *)
Theorem Sort_partitions_population (pop : list Individual) :
  exists fronts, Sort pop = Some fronts /\
    Permutation (concat fronts) (seq 0 (length pop)) /\
    Forall (fun f => f <> []) fronts /\
    (forall i, (i < length pop)%nat ->
       exists k f, fronts !! k = Some f /\ In i f /\
         forall k' f', fronts !! k' = Some f' -> In i f' -> k' = k) /\
    ((exists p rest, pop = p :: rest /\ (1 < length (Fitness p))%nat) ->
     NondominatedSorter pop = Ok fronts).
Proof.
  destruct (Sort_loop_spec pop (length pop) (initial_queue pop) [])
    as (fronts & Hs & Hp & Hne).
  - unfold initial_queue. rewrite length_seq. lia.
  - unfold initial_queue. apply Forall_forall. intros i Hi.
    apply list_elem_of_In, in_seq in Hi. lia.
  - simpl in Hp. exists fronts. split; [exact Hs|]. split; [exact Hp|].
    split; [apply Hne; constructor|]. split.
    + intros i Hi.
      assert (In i (concat fronts)) as Hin.
      { apply (Permutation_in i (Permutation_sym Hp)). apply in_seq. lia. }
      apply in_concat in Hin as (f & Hf & Hif).
      apply list_elem_of_In, list_elem_of_lookup in Hf as [k Hk].
      exists k, f. split; [exact Hk|]. split; [exact Hif|].
      intros k' f' Hk' Hif'.
      assert (NoDup (concat fronts)) as Hnd.
      { apply NoDup_ListNoDup. apply (Permutation_NoDup (Permutation_sym Hp)).
        apply List.seq_NoDup. }
      eapply NoDup_concat_unique; eassumption.
    + intros (p & rest & -> & Hm).
      assert (Sort (p :: rest) = Some fronts) as HS by exact Hs.
      unfold NondominatedSorter.
      rewrite (proj2 (Nat.ltb_lt _ _) Hm), HS. reflexivity.
Qed.

(** The fifth individual is dominated by none of the others, and yet the
    sorter, given the population in this order, puts it in the second front. *)
Example Sort_example :
  Sort [individual [1%Q; 4%Q]; individual [2%Q; 3%Q]; individual [3%Q; 2%Q];
        individual [4%Q; 1%Q]; individual [2%Q; 2%Q]]
  = Some [[0; 1; 2; 3]; [4]]%nat.
Proof. vm_compute. reflexivity. Qed.

Lemma sorted_by_index_less_seq (l pre : list Individual) :
  sorted_by (index_less (pre ++ l)) (seq (length pre) (length l))
  = sorted_by LexicographicalComparison l.
Proof.
  revert pre. induction l as [|x l IH]; intros pre; [reflexivity|].
  destruct l as [|y l]; [reflexivity|].
  specialize (IH (pre ++ [x])). rewrite <- app_assoc, length_app in IH.
  change ([x] ++ y :: l) with (x :: y :: l) in IH.
  change (length [x]) with 1%nat in IH. rewrite Nat.add_1_r in IH.
  change (seq (length pre) (length (x :: y :: l)))
    with (length pre :: S (length pre) :: seq (S (S (length pre))) (length l)).
  rewrite !sorted_by_cons.
  change (S (length pre) :: seq (S (S (length pre))) (length l))
    with (seq (S (length pre)) (length (y :: l))).
  rewrite IH. f_equal. f_equal. unfold index_less.
  rewrite (lookup_app_r pre) by lia. rewrite (lookup_app_r pre) by lia.
  replace (S (length pre) - length pre)%nat with 1%nat by lia.
  rewrite Nat.sub_diag. reflexivity.
Qed.

(** C2 (the code departs from the claim).  The queue of lines 10-11 holds the
    indices in index order and nothing sorts it before the first front is
    taken: it is in lexicographic fitness order only when the population
    already is.  For the two individuals (2, 2), (1, 1) the queue is [0; 1],
    sorted it would be [1; 0]; the sorter puts (2, 2) alone in the first
    front although (1, 1) dominates it, where the sorted queue gives the
    fronts [[1]; [0]]. *)
Theorem Sort_initial_queue_unsorted :
  (forall pop, sorted_by (index_less pop) (initial_queue pop)
               = sorted_by LexicographicalComparison pop) /\
  initial_queue unsorted_pair = [0; 1]%nat /\
  sorted_by (index_less unsorted_pair) (initial_queue unsorted_pair) = false /\
  sort_by (index_less unsorted_pair) (initial_queue unsorted_pair) = [1; 0]%nat /\
  ParetoCompare (individual [1%Q; 1%Q]) (individual [2%Q; 2%Q]) = Left /\
  Sort unsorted_pair = Some [[0]; [1]]%nat /\
  Sort_loop (length unsorted_pair) unsorted_pair
    (sort_by (index_less unsorted_pair) (initial_queue unsorted_pair)) []
    = Some [[1]; [0]]%nat.
Proof.
  split; [intros pop; apply (sorted_by_index_less_seq pop [])|].
  repeat split; vm_compute; reflexivity.
Qed.

(** ** The proportional selector *)

(** C3 (amended).  For the fitness values [1; 2; 3] the stored pairs are
    [(0, 2); (1, 1); (3, 0)]: the prefix sums are [0; 1; 3].  A draw of 1/2
    selects index 1 and a draw of 5/2 selects index 0. *)
Theorem Prepare_Select_example :
  Prepare [individual [1%Q]; individual [2%Q]; individual [3%Q]] 0
    = Some [(0%Q, 2%nat); (1%Q, 1%nat); (3%Q, 0%nat)] /\
  Select [(0%Q, 2%nat); (1%Q, 1%nat); (3%Q, 0%nat)] (1 # 2)%Q = Some 1%nat /\
  Select [(0%Q, 2%nat); (1%Q, 1%nat); (3%Q, 0%nat)] (5 # 2)%Q = Some 0%nat.
Proof. repeat split; vm_compute; reflexivity. Qed.

(** C3 (counterexample).  The prefix sums are not [2; 3; 3], the draw 1/2
    does not select index 2 and the draw 5/2 does not select index 1. *)
Lemma Prepare_Select_not_as_claimed :
  ~ (exists fitness,
       Prepare [individual [1%Q]; individual [2%Q]; individual [3%Q]] 0
         = Some fitness /\
       map fst fitness = [2%Q; 3%Q; 3%Q] /\
       Select fitness (1 # 2)%Q = Some 2%nat /\
       Select fitness (5 # 2)%Q = Some 1%nat).
Proof.
  intros (fitness & Hp & Hm & _). vm_compute in Hp. inversion Hp; subst fitness.
  discriminate Hm.
Qed.

(** ** The creators at target length one *)

Lemma size_t_nonneg z : 0 <= size_t z.
Proof. unfold size_t. apply Z.mod_pos_bound. lia. Qed.

Lemma FunctionArityLimits_nonneg pset :
  0 <= fst (FunctionArityLimits pset) /\ 0 <= snd (FunctionArityLimits pset).
Proof.
  unfold FunctionArityLimits.
  assert (forall lim, 0 <= fst lim -> 0 <= snd lim ->
            0 <= fst (foldl (fun lim p =>
                               if enabled p && (1 <=? max_arity p)
                               then (Z.min (fst lim) (size_t (min_arity p)),
                                     Z.max (snd lim) (size_t (max_arity p)))
                               else lim) lim pset) /\
            0 <= snd (foldl (fun lim p =>
                               if enabled p && (1 <=? max_arity p)
                               then (Z.min (fst lim) (size_t (min_arity p)),
                                     Z.max (snd lim) (size_t (max_arity p)))
                               else lim) lim pset)) as Hgen.
  { induction pset as [|p pset IH]; intros lim H1 H2; [simpl; auto|].
    simpl. apply IH; destruct (enabled p && (1 <=? max_arity p)); simpl; auto.
    - pose proof (size_t_nonneg (min_arity p)). lia.
    - pose proof (size_t_nonneg (max_arity p)). lia. }
  apply Hgen; simpl; unfold SIZE_MAX; lia.
Qed.

Lemma UpdateNodes_single (s : Node) :
  Arity s = 0 ->
  UpdateNodes [s] = Some [set_Level (set_Length (set_Depth s 1) 0) 1].
Proof.
  intros Ha. unfold UpdateNodes. simpl. unfold UpdateNodes_node. simpl.
  unfold IsLeaf. simpl. rewrite Ha. reflexivity.
Qed.

Section CreatorFacts.

Context {RG : Type} `{RandomSource RG}.

Lemma SampleRandomSymbol_leaf_window (pset : PrimitiveSet) (g : RG) :
  has_enabled_leaf pset = true ->
  match SampleRandomSymbol pset 0 0 g with
  | Ok (node, _) => Arity node = 0
  | _ => False
  end.
Proof.
  intros Hleaf. unfold has_enabled_leaf in Hleaf.
  apply existsb_exists in Hleaf as (p & Hp & Hpl).
  assert (is_candidate 0 0 p = true) as Hc.
  { unfold is_enabled_leaf in Hpl. unfold is_candidate.
    apply andb_prop in Hpl as [Hpl H2]. apply andb_prop in Hpl as [H0 H1].
    apply Z.eqb_eq in H1. apply Z.eqb_eq in H2. rewrite H0, H1, H2. reflexivity. }
  unfold SampleRandomSymbol.
  remember (filter (fun p => is_candidate 0 0 p = true) pset) as candidates
    eqn:Hcand.
  assert (p ∈ candidates) as Hin.
  { rewrite Hcand. apply list_elem_of_filter.
    split; [exact Hc|apply list_elem_of_In; exact Hp]. }
  destruct candidates as [|c0 cs]; [inversion Hin|].
  unfold gen_bind, gen_draw.
  destruct (discrete (map frequency (c0 :: cs)) g) as [k g1] eqn:Hk.
  pose proof (discrete_range (map frequency (c0 :: cs)) g ltac:(discriminate))
    as Hrange.
  rewrite Hk in Hrange. simpl fst in Hrange. rewrite length_map in Hrange.
  destruct ((c0 :: cs) !! k) as [p'|] eqn:Hp';
    [|apply lookup_ge_None in Hp'; lia].
  assert (is_candidate 0 0 p' = true) as Hc'.
  { assert (p' ∈ c0 :: cs) as Hin' by (apply list_elem_of_lookup; eauto).
    rewrite Hcand in Hin'. apply list_elem_of_filter in Hin' as [Hc' _]. exact Hc'. }
  unfold is_candidate in Hc'. apply andb_prop in Hc' as [Hc' H2].
  apply andb_prop in Hc' as [_ H1]. apply Z.leb_le in H1. apply Z.leb_le in H2.
  cbv beta. rewrite Z.max_l, Z.min_l by lia.
  destruct (uniform_int 0 0 g1) as [a g2] eqn:Ha.
  pose proof (uniform_int_range 0 0 g1 ltac:(lia)) as Hr. rewrite Ha in Hr.
  simpl in Hr. simpl. lia.
Qed.

Lemma init_leaf (variables_ : list DatasetVariable) (hi : Z) (node : Node) (g : RG) :
  Arity node = 0 ->
  0 <= hi < Z.of_nat (length variables_) ->
  match init variables_ hi node g with
  | Ok (node', _) => Arity node' = 0
  | _ => False
  end.
Proof.
  intros Ha Hhi. unfold init, IsLeaf. rewrite Ha. simpl.
  unfold gen_bind, gen_draw, gen_ret.
  destruct (IsVariable node).
  - destruct (uniform_int 0 hi g) as [k g1] eqn:Hk.
    pose proof (uniform_int_range 0 hi g ltac:(lia)) as Hr.
    rewrite Hk in Hr. simpl in Hr.
    destruct (lookup_lt_is_Some_2 variables_ (Z.to_nat k)) as [v Hv]; [lia|].
    rewrite at_in_range by lia.
    rewrite Hv. destruct (normal_real g1) as [x g2]. simpl. exact Ha.
  - destruct (normal_real g) as [x g2]. simpl. exact Ha.
Qed.

Lemma size_t_pred_length {A : Type} (l : list A) :
  l <> [] -> 0 <= size_t (Z.of_nat (length l) - 1) < Z.of_nat (length l).
Proof.
  intros Hne. assert (0 < Z.of_nat (length l)) by (destruct l; [congruence|simpl; lia]).
  unfold size_t.
  pose proof (Z.mod_pos_bound (Z.of_nat (length l) - 1) 18446744073709551616
                ltac:(lia)).
  pose proof (Z.mod_le (Z.of_nat (length l) - 1) 18446744073709551616
                ltac:(lia) ltac:(lia)).
  lia.
Qed.

(** C6.  With an enabled leaf in the primitive set (and input variables to
    bind a variable leaf to), both creators called with target length 1
    return a tree of exactly one node, whose [Length] is 0, whatever the
    generator state and the fuel. *)
Theorem creators_single_leaf (fuel : nat) (pset : PrimitiveSet)
  (variables_ : list DatasetVariable) (irregularityBias : Scalar) (random : RG) :
  has_enabled_leaf pset = true ->
  variables_ <> [] ->
  (exists root random',
     BalancedTreeCreator fuel pset variables_ irregularityBias 1 random
       = Ok ([root], random') /\ Length root = 0) /\
  (exists root random',
     ProbabilisticTreeCreator fuel pset variables_ irregularityBias 1 random
       = Ok ([root], random') /\ Length root = 0).
Proof.
  intros Hleaf Hvars.
  destruct (FunctionArityLimits_nonneg pset) as [Hmin Hmax].
  assert (0 < Z.of_nat (length variables_)) as Hlen.
  { destruct variables_; [congruence|simpl; lia]. }
  pose proof (SampleRandomSymbol_leaf_window pset random Hleaf) as Hs.
  destruct (SampleRandomSymbol pset 0 0 random) as [[root0 g1]| |] eqn:Hs0;
    try contradiction.
  split.
  - pose proof (init_leaf variables_ (Z.of_nat (length variables_) - 1) root0 g1
                  Hs ltac:(lia)) as Hi.
    destruct (init variables_ (Z.of_nat (length variables_) - 1) root0 g1)
      as [[root g2]| |] eqn:Hi0; try contradiction.
    exists (set_Level (set_Length (set_Depth root 1) 0) 1), g2.
    split; [|reflexivity].
    unfold BalancedTreeCreator. cbv zeta.
    change (1 <? 1) with false. cbn [andb].
    change (size_t (1 - 1)) with 0.
    rewrite (Z.min_r _ 0) by lia. rewrite (Z.min_r _ 0) by lia.
    unfold gen_bind at 1. rewrite Hs0. unfold gen_bind at 1. rewrite Hi0.
    unfold IsLeaf. rewrite Hi. simpl. rewrite (UpdateNodes_single root Hi).
    reflexivity.
  - pose proof (init_leaf variables_ (size_t (Z.of_nat (length variables_) - 1))
                  root0 g1 Hs (size_t_pred_length variables_ Hvars)) as Hi.
    destruct (init variables_ (size_t (Z.of_nat (length variables_) - 1)) root0 g1)
      as [[root g2]| |] eqn:Hi0; try contradiction.
    exists (set_Level (set_Length (set_Depth root 1) 0) 1), g2.
    split; [|reflexivity].
    unfold ProbabilisticTreeCreator. cbv zeta.
    change (0 <? 1) with true. change (1 <? 1) with false. cbn [andb negb].
    change (size_t (1 - 1)) with 0.
    rewrite (Z.min_r _ 0) by lia. rewrite (Z.min_r _ 0) by lia.
    unfold gen_bind at 1. rewrite Hs0. unfold gen_bind at 1. rewrite Hi0.
    unfold IsLeaf. rewrite Hi. simpl. rewrite (UpdateNodes_single root Hi).
    reflexivity.
Qed.

End CreatorFacts.

(** *** The example generator satisfies the interface *)

Lemma jsf_uniform_int_range lo hi g :
  lo <= hi -> lo <= fst (jsf_uniform_int lo hi g) <= hi.
Proof.
  intros Hle. unfold jsf_uniform_int. cbv zeta. cbn [fst].
  rewrite (proj2 (Z.leb_le _ _) Hle).
  pose proof (Z.mod_pos_bound (fst (Jsf64.prng64 g)) (hi - lo + 1) ltac:(lia)).
  lia.
Qed.

Lemma jsf_discrete_range (ws : list Z) g :
  ws <> [] -> (fst (jsf_discrete ws g) < length ws)%nat.
Proof.
  intros Hne. unfold jsf_discrete. cbv zeta. cbn [fst].
  assert (0 < Z.of_nat (length ws)) as Hlen by (destruct ws; [congruence|simpl; lia]).
  pose proof (Z.mod_pos_bound (fst (Jsf64.prng64 g)) (Z.of_nat (length ws)) Hlen).
  lia.
Qed.

#[export] Instance Jsf64_RandomSource : RandomSource Jsf64.state := {|
  uniform_int := jsf_uniform_int;
  uniform_real := jsf_uniform_real;
  normal_real := jsf_normal_real;
  bernoulli := jsf_bernoulli;
  discrete := jsf_discrete;
  shuffle_indices := jsf_shuffle_indices;
  uniform_int_range := jsf_uniform_int_range;
  discrete_range := jsf_discrete_range
|}.

Lemma creators_single_leaf_witness :
  has_enabled_leaf example_pset = true /\
  variables example_dataset <> [] /\
  (exists root random',
     BalancedTreeCreator 16 example_pset (variables example_dataset) 0%Q 1
       (Jsf64.seed 3735928559) = Ok ([root], random') /\ Length root = 0) /\
  (exists root random',
     ProbabilisticTreeCreator 16 example_pset (variables example_dataset) 0%Q 1
       (Jsf64.seed 3735928559) = Ok ([root], random') /\ Length root = 0).
Proof.
  split; [reflexivity|]. split; [vm_compute; discriminate|].
  apply (creators_single_leaf 16 example_pset (variables example_dataset) 0%Q
           (Jsf64.seed 3735928559)); [reflexivity|vm_compute; discriminate].
Defined.

(** The creators on the example primitive set.  With binary and ternary
    functions only, the probabilistic creator asked for four nodes lowers its
    target on the way and returns three. *)
Example ProbabilisticTreeCreator_example :
  match ProbabilisticTreeCreator 16 example_pset (variables example_dataset) 0%Q 4
          (Jsf64.seed 1) with
  | Ok (tree, _) => map (fun s => (Type_ s, Arity s, Length s)) tree
  | _ => []
  end = [(Variable_, 0, 0); (Variable_, 0, 0); (Add, 2, 2)].
Proof. vm_compute. reflexivity. Qed.

Example BalancedTreeCreator_example :
  match BalancedTreeCreator 16 example_pset (variables example_dataset) 0%Q 7
          (Jsf64.seed 3735928559) with
  | Ok (tree, _) => map (fun s => (Type_ s, Arity s, Length s)) tree
  | _ => []
  end = [(Variable_, 0, 0); (Variable_, 0, 0); (Add, 2, 2); (Variable_, 0, 0);
         (Constant, 0, 0); (Mul, 2, 2); (Mul, 2, 6)].
Proof. vm_compute. reflexivity. Qed.

(** ** The probabilistic creator: the arity window *)

(** Without wrap-around the new target is the old one minus the shortfall,
    hence strictly smaller. *)
Lemma ptc2_lowered_target_below (minFunctionArity maxArity targetLen : Z) :
  0 < maxArity < minFunctionArity ->
  minFunctionArity + 1 <= targetLen < 18446744073709551616 ->
  size_t (targetLen - size_t (minFunctionArity - maxArity))
    = targetLen - (minFunctionArity - maxArity) /\
  size_t (targetLen - size_t (minFunctionArity - maxArity)) < targetLen.
Proof.
  intros Hm Ht. unfold size_t.
  rewrite (Z.mod_small (minFunctionArity - maxArity)) by lia.
  rewrite Z.mod_small by lia. lia.
Qed.

Section RunawayFacts.

Context {RG : Type} `{RandomSource RG}.

Lemma SampleRandomSymbol_ternary (g : RG) :
  exists g', SampleRandomSymbol ternary_pset 3 3 g = Ok (func Add 3, g').
Proof.
  unfold SampleRandomSymbol.
  change (filter (fun p => is_candidate 3 3 p = true) ternary_pset)
    with [mkPrimitive (func Add 3) 1 true 3 3].
  unfold gen_bind, gen_draw. cbn [map frequency].
  pose proof (discrete_range [1] g ltac:(discriminate)) as Hk.
  destruct (discrete [1] g) as [k g1]. cbn [fst length] in Hk.
  replace k with 0%nat by lia. cbn [lookup list_lookup symbol min_arity max_arity].
  change (Z.max 3 3) with 3. change (Z.min 3 3) with 3.
  pose proof (uniform_int_range 3 3 g1 ltac:(lia)) as Ha.
  destruct (uniform_int 3 3 g1) as [a g2]. cbn [fst] in Ha.
  replace a with 3 by lia. exists g2. reflexivity.
Qed.

Lemma random_dequeue_shortens (q : list Z) (g : RG) :
  q <> [] ->
  exists t q' g', random_dequeue q g = Ok (t, q', g') /\
    (length q' + 1 = length q)%nat.
Proof.
  intros Hne. destruct q as [|front rest]; [congruence|].
  unfold random_dequeue, gen_bind, gen_draw.
  pose proof (size_t_pred_length (front :: rest) Hne) as Hb.
  pose proof (uniform_int_range 0 (size_t (Z.of_nat (length (front :: rest)) - 1)) g
                ltac:(lia)) as Hr.
  destruct (uniform_int 0 (size_t (Z.of_nat (length (front :: rest)) - 1)) g)
    as [j g'].
  cbn [fst] in Hr. rewrite at_in_range by lia.
  destruct (lookup_lt_is_Some_2 (front :: rest) (Z.to_nat j)) as [qj Hqj]; [lia|].
  rewrite Hqj. unfold gen_ret. eexists _, _, _. split; [reflexivity|].
  destruct (Z.to_nat j); simpl; [lia|]. rewrite length_insert. lia.
Qed.

(** With the target lowered to 3 and at least three nodes placed or pending,
    the room left wraps around and the window is (3, 3) again. *)
Lemma ptc2_arity_window_wrapped (qsize nsize : Z) :
  0 <= qsize -> 0 <= nsize -> 3 <= qsize + nsize < 2 ^ 62 ->
  ptc2_arity_window 3 3 3 qsize nsize false = Ok (3, 3, 3).
Proof.
  intros Hq Hn Hs. unfold ptc2_arity_window, ptc2_max_arity.
  assert (3 <= size_t (3 - qsize - nsize - 1)) as Hwrap.
  { unfold size_t.
    replace (3 - qsize - nsize - 1)
      with ((18446744073709551616 + (2 - qsize - nsize))
            + (-1) * 18446744073709551616) by ring.
    rewrite Z.mod_add by lia. rewrite Z.mod_small; lia. }
  rewrite Z.min_l by lia. reflexivity.
Qed.

Lemma ptc2_loop_runs_away (variables_ : list DatasetVariable) :
  (forall g : RG, fst (bernoulli 0%Q g) = false) ->
  forall fuel targetLen q nodes (g : RG),
    q <> [] ->
    Z.of_nat (length q) + Z.of_nat (length nodes) + 3 * Z.of_nat fuel < 2 ^ 62 ->
    (targetLen = 5 /\ length q = 3%nat /\ length nodes = 1%nat) \/
    (targetLen = 3 /\ (4 <= length q + length nodes)%nat) ->
    ptc2_loop fuel ternary_pset variables_ 0%Q 3 3 targetLen q nodes g = OutOfFuel.
Proof.
  intros Hbern. induction fuel as [|fuel IH]; intros targetLen q nodes g Hne Hsize Hst.
  - destruct q; [congruence|reflexivity].
  - destruct q as [|q0 qr] eqn:Eq; [congruence|]. rewrite <- Eq in *.
    assert (ptc2_loop (S fuel) ternary_pset variables_ 0%Q 3 3 targetLen q nodes g
            = (gen_bind (random_dequeue q) (fun dq =>
                 gen_bind (if (1 <? Z.of_nat (length (snd dq)))
                           then gen_draw (bernoulli 0%Q) else gen_ret false)
                   (fun irregular =>
                 gen_bind (gen_lift (ptc2_arity_window 3 3 targetLen
                                       (Z.of_nat (length (snd dq)))
                                       (Z.of_nat (length nodes)) irregular))
                   (fun w =>
                 gen_bind (SampleRandomSymbol ternary_pset (snd (fst w)) (snd w))
                   (fun node0 =>
                 gen_bind (init variables_
                             (size_t (Z.of_nat (length variables_) - 1)) node0)
                   (fun node1 =>
                    ptc2_loop fuel ternary_pset variables_ 0%Q 3 3 (fst (fst w))
                      (snd dq ++ repeat (size_t (fst dq + 1))
                                        (Z.to_nat (Arity (set_Depth node1 (uint16 (fst dq))))))
                      (nodes ++ [set_Depth node1 (uint16 (fst dq))]))))))) g)
      as -> by (rewrite Eq; reflexivity).
    destruct (random_dequeue_shortens q g Hne) as (t & q1 & g1 & Hdq & Hlen).
    unfold gen_bind at 1. rewrite Hdq. cbn [fst snd].
    assert ((if 1 <? Z.of_nat (length q1)
             then gen_draw (bernoulli 0%Q) else gen_ret false) g1
            = Ok (false, snd (if 1 <? Z.of_nat (length q1)
                              then bernoulli 0%Q g1 else (false, g1)))) as Hirr.
    { destruct (1 <? Z.of_nat (length q1)); [|reflexivity].
      unfold gen_draw. pose proof (Hbern g1) as Hb.
      destruct (bernoulli 0%Q g1) as [b g2]. cbn [fst snd] in *. rewrite Hb.
      reflexivity. }
    unfold gen_bind at 1. rewrite Hirr.
    set (g2 := snd _).
    assert (ptc2_arity_window 3 3 targetLen (Z.of_nat (length q1))
              (Z.of_nat (length nodes)) false = Ok (3, 3, 3)) as Hw.
    { destruct Hst as [(-> & Hq & Hn)|(-> & Hqn)].
      - replace (length q1) with 2%nat by lia. rewrite Hn. reflexivity.
      - apply ptc2_arity_window_wrapped; lia. }
    unfold gen_bind at 1. rewrite Hw. cbn [gen_lift fst snd].
    destruct (SampleRandomSymbol_ternary g2) as (g3 & Hs).
    unfold gen_bind at 1. rewrite Hs.
    unfold gen_bind at 1.
    change (init variables_ (size_t (Z.of_nat (length variables_) - 1))
              (func Add 3) g3) with (Ok (func Add 3, g3) : Result (Node * RG)).
    cbv beta iota.
    apply IH.
    + destruct q1; discriminate.
    + rewrite !length_app, repeat_length. cbn [Arity set_Depth func length Z.to_nat].
      change (Pos.to_nat 3) with 3%nat. lia.
    + right. split; [reflexivity|]. rewrite !length_app, repeat_length.
      cbn [Arity set_Depth func length Z.to_nat]. change (Pos.to_nat 3) with 3%nat.
      destruct Hst as [(_ & Hq & Hn)|(_ & Hqn)]; lia.
Qed.

(** C4 (the code departs from the claim).  With ternary functions only and a
    target length of 5, the root takes three children; after the first
    dequeue two slots are open and the room left is 1, below the smallest
    function arity 3.  The code lowers the target by the shortfall, to 3; the
    room 3 - 2 - 1 - 1 then wraps around in [size_t] and the window is
    (3, 3).  Raised by the shortfall, to 7, the target would leave room for
    exactly one ternary function.  From there on every window is (3, 3)
    again: with an irregularity bias of 0 the loop places one ternary
    function after the other and has not ended after any number of
    iterations. *)
Theorem ptc2_lowered_target_runs_away
  (fuel : nat) (variables_ : list DatasetVariable) (random : RG) :
  (forall g : RG, fst (bernoulli 0%Q g) = false) ->
  Z.of_nat fuel < 2 ^ 60 ->
  FunctionArityLimits ternary_pset = (3, 3) /\
  ptc2_max_arity 3 5 2 1 = 1 /\
  ptc2_arity_window 3 3 5 2 1 false = Ok (3, 3, 3) /\
  ptc2_max_arity 3 (5 + (3 - 1)) 2 1 = 3 /\
  ProbabilisticTreeCreator fuel ternary_pset variables_ 0%Q 5 random = OutOfFuel.
Proof.
  intros Hbern Hfuel.
  split; [reflexivity|]. split; [reflexivity|]. split; [reflexivity|].
  split; [reflexivity|].
  unfold ProbabilisticTreeCreator.
  change (FunctionArityLimits ternary_pset) with (3, 3). cbv zeta. cbn [fst snd].
  change (negb (0 <? 5)) with false. cbv iota.
  change ((1 <? 5) && (5 <? size_t (3 + 1))) with false. cbv iota.
  change (Z.min 3 (size_t (5 - 1))) with 3. change (Z.min 3 3) with 3.
  destruct (SampleRandomSymbol_ternary random) as (g1 & Hs).
  unfold gen_bind at 1. rewrite Hs.
  unfold gen_bind at 1.
  change (init variables_ (size_t (Z.of_nat (length variables_) - 1))
            (func Add 3) g1) with (Ok (func Add 3, g1) : Result (Node * RG)).
  cbv beta iota.
  change (IsLeaf (func Add 3)) with false. cbv iota.
  unfold gen_bind at 1.
  rewrite (ptc2_loop_runs_away variables_ Hbern); [reflexivity|discriminate| |].
  - cbn [length repeat set_Depth Arity func Z.to_nat]. change (Pos.to_nat 3) with 3%nat.
    simpl length. lia.
  - left. split; [reflexivity|]. split; reflexivity.
Qed.

End RunawayFacts.

Lemma jsf_bernoulli_zero (g : Jsf64.state) : fst (jsf_bernoulli 0%Q g) = false.
Proof.
  unfold jsf_bernoulli, jsf_unit. cbv zeta. cbn [fst].
  unfold scalar_lt. apply negb_false_iff. apply Qle_bool_iff.
  rewrite Qred_correct.
  pose proof (Z.mod_pos_bound (fst (Jsf64.prng64 g)) 1048576 ltac:(lia)) as Hb.
  apply Qle_shift_div_l; [reflexivity|].
  rewrite Qmult_0_l. change 0%Q with (inject_Z 0). rewrite <- Zle_Qle. lia.
Qed.

Lemma ptc2_lowered_target_runs_away_witness :
  (forall g, fst (jsf_bernoulli 0%Q g) = false) /\
  8 < 2 ^ 60 /\
  ProbabilisticTreeCreator 8 ternary_pset (variables example_dataset) 0%Q 5
    (Jsf64.seed 1) = OutOfFuel.
Proof.
  split; [exact jsf_bernoulli_zero|]. split; [reflexivity|].
  apply (ptc2_lowered_target_runs_away (RG := Jsf64.state) 8
           (variables example_dataset) (Jsf64.seed 1));
    [exact jsf_bernoulli_zero|reflexivity].
Defined.

(* ================================================================== *)
(** * Part III: further properties of the code                        *)
(* ================================================================== *)

(** ** Comparisons of scalars *)

Lemma scalar_lt_true a b : scalar_lt a b = true <-> (a < b)%Q.
Proof.
  unfold scalar_lt. rewrite negb_true_iff. split.
  - intros H. apply Qnot_le_lt. intros Hle. apply Qle_bool_iff in Hle. congruence.
  - intros H. destruct (Qle_bool b a) eqn:E; [|reflexivity].
    apply Qle_bool_iff in E. exfalso. apply (Qlt_not_le _ _ H E).
Qed.

Lemma scalar_lt_false a b : scalar_lt a b = false <-> (b <= a)%Q.
Proof.
  unfold scalar_lt. rewrite negb_false_iff. apply Qle_bool_iff.
Qed.

Lemma scalar_max_ge a b : (a <= scalar_max a b)%Q /\ (b <= scalar_max a b)%Q.
Proof.
  unfold scalar_max. destruct (scalar_lt a b) eqn:E.
  - apply scalar_lt_true in E. split; [apply Qlt_le_weak; exact E|apply Qle_refl].
  - apply scalar_lt_false in E. split; [apply Qle_refl|exact E].
Qed.


(** ** Streaming statistics

    The equalities of this section are equalities of rationals: they state
    what the calculator computes in exact arithmetic.  The members of the
    C++ class are floating-point numbers, whose sums and products round. *)

Ltac unfold_scalar :=
  unfold scalar_add, scalar_sub, scalar_mul, scalar_div, Scalar in *;
  rewrite ?Qred_correct in *.

Lemma Qlen_pos xs : xs <> [] -> (0 < Qlen xs)%Q.
Proof.
  intros H. unfold Qlen. destruct xs; [congruence|].
  change 0%Q with (inject_Z 0). rewrite <- Zlt_Qlt. simpl length. lia.
Qed.

Lemma Qsum_app xs ys : (Qsum (xs ++ ys) == Qsum xs + Qsum ys)%Q.
Proof. induction xs as [|x xs IH]; simpl; [ring|]. rewrite IH. ring. Qed.

Lemma Qsumsq_app xs ys : (Qsumsq (xs ++ ys) == Qsumsq xs + Qsumsq ys)%Q.
Proof. induction xs as [|x xs IH]; simpl; [ring|]. rewrite IH. ring. Qed.

Lemma Qlen_app xs ys : (Qlen (xs ++ ys) == Qlen xs + Qlen ys)%Q.
Proof. unfold Qlen. rewrite length_app, Nat2Z.inj_add, inject_Z_plus. reflexivity. Qed.

Lemma Qlen_cons x xs : (Qlen (x :: xs) == 1 + Qlen xs)%Q.
Proof. apply (Qlen_app [x] xs). Qed.

Lemma Qssd_expand xs m :
  (Qssd xs m == Qsumsq xs - 2 * m * Qsum xs + Qlen xs * m * m)%Q.
Proof.
  induction xs as [|x xs IH].
  - unfold Qlen. simpl. ring.
  - simpl Qssd. simpl Qsumsq. simpl Qsum. rewrite IH, Qlen_cons. ring.
Qed.

Lemma Qssd_mean xs : xs <> [] ->
  (Qssd xs (Qmean xs) == Qsumsq xs - Qsum xs * Qsum xs / Qlen xs)%Q.
Proof.
  intros Hne. pose proof (Qlen_pos xs Hne). rewrite Qssd_expand. unfold Qmean.
  field. lra.
Qed.

Lemma scalar_le_false a : (0 < a)%Q -> scalar_le a 0%Q = false.
Proof.
  intros H. unfold scalar_le. destruct (Qle_bool a 0) eqn:E; [|reflexivity].
  apply Qle_bool_iff in E. exfalso. apply (Qlt_not_le _ _ H E).
Qed.

Lemma scalar_le_true a : (a <= 0)%Q -> scalar_le a 0%Q = true.
Proof. intros H. apply Qle_bool_iff. exact H. Qed.

Lemma scalar_is_zero_false a : ~ (a == 0)%Q -> scalar_is_zero a = false.
Proof.
  intros H. unfold scalar_is_zero. destruct (Qeq_bool a 0) eqn:E; [|reflexivity].
  apply Qeq_bool_iff in E. contradiction.
Qed.

Lemma scalar_is_zero_true a : (a == 0)%Q -> scalar_is_zero a = true.
Proof. intros H. apply Qeq_bool_iff. exact H. Qed.

Lemma checked_div_ok a b : ~ (b == 0)%Q ->
  exists q, checked_div a b = Ok q /\ (q == a / b)%Q.
Proof.
  intros Hb. unfold checked_div. rewrite scalar_is_zero_false by exact Hb.
  eexists. split; [reflexivity|]. unfold scalar_div. apply Qred_correct.
Qed.

Lemma Calculator_Add_first x c :
  (calc_n c <= 0)%Q -> calc_inv [x] (Calculator_Add x c).
Proof.
  intros Hn. unfold Calculator_Add. rewrite scalar_le_true by exact Hn.
  unfold calc_inv, Qlen, Scalar in *. simpl. repeat split; try ring. field.
Qed.

Lemma Calculator_Add_inv xs x c :
  xs <> [] -> calc_inv xs c -> calc_inv (xs ++ [x]) (Calculator_Add x c).
Proof.
  intros Hne (Hn & Hs & Hm). pose proof (Qlen_pos xs Hne) as Hpos.
  unfold Calculator_Add. rewrite scalar_le_false by (rewrite Hn; exact Hpos).
  unfold calc_inv. cbn [calc_n calc_sum calc_m2]. unfold_scalar.
  rewrite Qlen_app, Qsum_app, Qsumsq_app, Hn, Hs, Hm.
  change (Qlen [x]) with 1%Q. simpl Qsum. simpl Qsumsq.
  split; [reflexivity|]. split; [ring|].
  field. split; lra.
Qed.

Lemma Calculator_feed_inv xs : forall ys c,
  ys <> [] -> calc_inv ys c -> calc_inv (ys ++ xs) (Calculator_feed xs c).
Proof.
  induction xs as [|x xs IH]; intros ys c Hne Hinv.
  - rewrite app_nil_r. exact Hinv.
  - simpl. replace (ys ++ x :: xs) with ((ys ++ [x]) ++ xs)
      by (rewrite <- app_assoc; reflexivity).
    apply IH; [destruct ys; discriminate|]. apply Calculator_Add_inv; assumption.
Qed.

Lemma Calculator_feed_fresh x xs c :
  (calc_n c <= 0)%Q -> calc_inv (x :: xs) (Calculator_feed (x :: xs) c).
Proof.
  intros Hn. simpl. apply (Calculator_feed_inv xs [x]); [discriminate|].
  apply Calculator_Add_first. exact Hn.
Qed.

(** X1.  Feeding values one at a time into a fresh calculator gives the
    statistics of the whole list: [Count] is the number of values, [Mean]
    their mean, [SumOfSquares] the sum of the squared deviations from the
    mean (the textbook two-pass value), [NaiveVariance] that sum divided by
    the count and, from two values on, [SampleVariance] the sum divided by
    the count minus one. *)
Theorem Calculator_feed_statistics (xs : list Scalar) :
  xs <> [] ->
  (Calculator_Count (Calculator_feed xs Calculator_Reset) == Qlen xs)%Q /\
  (Calculator_SumOfSquares (Calculator_feed xs Calculator_Reset)
     == Qssd xs (Qmean xs))%Q /\
  (exists m, Calculator_Mean (Calculator_feed xs Calculator_Reset) = Ok m /\
             (m == Qmean xs)%Q) /\
  (exists v, Calculator_NaiveVariance (Calculator_feed xs Calculator_Reset) = Ok v /\
             (v == Qssd xs (Qmean xs) / Qlen xs)%Q) /\
  ((1 < length xs)%nat ->
   exists v, Calculator_SampleVariance (Calculator_feed xs Calculator_Reset) = Ok v /\
             (v == Qssd xs (Qmean xs) / (Qlen xs - 1))%Q).
Proof.
  intros Hne. destruct xs as [|x xs]; [congruence|].
  pose proof (Calculator_feed_fresh x xs Calculator_Reset ltac:(simpl; lra))
    as (Hn & Hs & Hm).
  pose proof (Qlen_pos (x :: xs) Hne) as Hpos.
  set (c := Calculator_feed (x :: xs) Calculator_Reset) in *.
  unfold Calculator_Count, Calculator_SumOfSquares, Calculator_Mean,
    Calculator_NaiveVariance, Calculator_SampleVariance.
  split; [exact Hn|]. split; [rewrite Qssd_mean by exact Hne; exact Hm|].
  split; [|split].
  - destruct (checked_div_ok (calc_sum c) (calc_n c)) as (q & Hq & Hqv);
      [intros H0; rewrite Hn in H0; lra|].
    exists q. split; [exact Hq|]. rewrite Hqv, Hn, Hs. reflexivity.
  - rewrite (proj2 (scalar_lt_true _ _)) by (rewrite Hn; exact Hpos). simpl negb.
    destruct (checked_div_ok (calc_m2 c) (calc_n c)) as (q & Hq & Hqv);
      [intros H0; rewrite Hn in H0; lra|].
    exists q. split; [exact Hq|]. rewrite Hqv, Hn, Hm, Qssd_mean by exact Hne.
    reflexivity.
  - intros Hlen.
    assert (1 < Qlen (x :: xs))%Q as Hgt.
    { unfold Qlen. change 1%Q with (inject_Z 1). rewrite <- Zlt_Qlt. lia. }
    rewrite (proj2 (scalar_lt_true _ _)) by (rewrite Hn; exact Hgt). simpl negb.
    destruct (checked_div_ok (calc_m2 c) (scalar_sub (calc_n c) 1%Q)) as (q & Hq & Hqv).
    { unfold scalar_sub. rewrite Qred_correct, Hn. intros H0. lra. }
    exists q. split; [exact Hq|]. rewrite Hqv. unfold scalar_sub.
    rewrite Qred_correct, Hn, Hm, Qssd_mean by exact Hne. reflexivity.
Qed.

Lemma Calculator_Combine_value c other :
  (0 < calc_n c)%Q -> (0 < calc_n other)%Q ->
  exists r, Calculator_Combine c other = Ok r /\
    (calc_n r == calc_n c + calc_n other)%Q /\
    (calc_sum r == calc_sum c + calc_sum other)%Q /\
    (calc_m2 r == calc_m2 c + calc_m2 other +
       (calc_n c * calc_sum other - calc_sum c * calc_n other) *
       (calc_n c * calc_sum other - calc_sum c * calc_n other) /
       (calc_n other * (calc_n c + calc_n other) * calc_n c))%Q.
Proof.
  intros Hc Ho. unfold Calculator_Combine.
  match goal with |- context [checked_div ?a ?b] =>
    destruct (checked_div_ok a b) as (q & Hq & Hqv) end.
  { unfold_scalar. intros H0.
    assert (0 < calc_n other * (calc_n c + calc_n other) * calc_n c)%Q as Hp.
    { apply Qmult_lt_0_compat; [apply Qmult_lt_0_compat|]; lra. }
    lra. }
  rewrite Hq. simpl. eexists. split; [reflexivity|].
  cbn [calc_n calc_sum calc_m2]. unfold_scalar. rewrite Hqv. unfold_scalar.
  split; [reflexivity|]. split; [reflexivity|]. ring.
Qed.

Lemma Calculator_Combine_inv xs ys c other :
  xs <> [] -> ys <> [] -> calc_inv xs c -> calc_inv ys other ->
  exists r, Calculator_Combine c other = Ok r /\ calc_inv (xs ++ ys) r.
Proof.
  intros Hx Hy (Hn & Hs & Hm) (Hn' & Hs' & Hm').
  pose proof (Qlen_pos xs Hx) as Hpx. pose proof (Qlen_pos ys Hy) as Hpy.
  destruct (Calculator_Combine_value c other) as (r & Hr & Rn & Rs & Rm);
    [rewrite Hn; exact Hpx|rewrite Hn'; exact Hpy|].
  exists r. split; [exact Hr|]. unfold calc_inv.
  rewrite Rn, Rs, Rm, Qlen_app, Qsum_app, Qsumsq_app, Hn, Hs, Hm, Hn', Hs', Hm'.
  split; [reflexivity|]. split; [reflexivity|]. field. repeat split; lra.
Qed.

Lemma calc_inv_eq xs c1 c2 : xs <> [] -> calc_inv xs c1 -> calc_inv xs c2 -> calc_eq c1 c2.
Proof.
  intros _ (Hn & Hs & Hm) (Hn' & Hs' & Hm'). unfold calc_eq.
  rewrite Hn, Hs, Hm, Hn', Hs', Hm'. repeat split; reflexivity.
Qed.

(** X4.  In exact arithmetic, combining the calculators of two non-empty
    batches gives the calculator of the two batches fed as one: count, sum
    and sum of squared deviations agree. *)
Theorem Calculator_Combine_concat (xs ys : list Scalar) :
  xs <> [] -> ys <> [] ->
  exists r,
    Calculator_Combine (Calculator_feed xs Calculator_Reset)
                       (Calculator_feed ys Calculator_Reset) = Ok r /\
    calc_eq r (Calculator_feed (xs ++ ys) Calculator_Reset).
Proof.
  intros Hx Hy. destruct xs as [|x xs]; [congruence|]. destruct ys as [|y ys]; [congruence|].
  destruct (Calculator_Combine_inv (x :: xs) (y :: ys)
              (Calculator_feed (x :: xs) Calculator_Reset)
              (Calculator_feed (y :: ys) Calculator_Reset) Hx Hy)
    as (r & Hr & Hinv);
    [apply Calculator_feed_fresh; simpl; lra|apply Calculator_feed_fresh; simpl; lra|].
  exists r. split; [exact Hr|].
  apply (calc_inv_eq ((x :: xs) ++ y :: ys)); [discriminate|exact Hinv|].
  apply (Calculator_feed_fresh x (xs ++ y :: ys)). simpl. lra.
Qed.

(** X5.  In exact arithmetic, on calculators that hold something, [Combine]
    is commutative and associative (up to the value of the three members):
    partial results can be merged in any order and grouping.  (In
    floating-point arithmetic the merged values depend on the order.) *)
Theorem Calculator_Combine_comm_assoc (a b c : MeanVarianceCalculator) :
  (0 < calc_n a)%Q -> (0 < calc_n b)%Q -> (0 < calc_n c)%Q ->
  (exists l r,
     Calculator_Combine a b = Ok l /\ Calculator_Combine b a = Ok r /\ calc_eq l r) /\
  (exists ab bc l r,
     Calculator_Combine a b = Ok ab /\ Calculator_Combine b c = Ok bc /\
     Calculator_Combine ab c = Ok l /\ Calculator_Combine a bc = Ok r /\
     calc_eq l r).
Proof.
  intros Ha Hb Hc.
  destruct (Calculator_Combine_value a b Ha Hb) as (ab & Hab & ABn & ABs & ABm).
  destruct (Calculator_Combine_value b a Hb Ha) as (ba & Hba & BAn & BAs & BAm).
  destruct (Calculator_Combine_value b c Hb Hc) as (bc & Hbc & BCn & BCs & BCm).
  destruct (Calculator_Combine_value ab c) as (l & Hl & Ln & Ls & Lm);
    [rewrite ABn; lra|exact Hc|].
  destruct (Calculator_Combine_value a bc) as (r & Hr & Rn & Rs & Rm);
    [exact Ha|rewrite BCn; lra|].
  split.
  - exists ab, ba. repeat (split; [assumption|]).
    unfold calc_eq. rewrite ABm, ABs, ABn, BAm, BAs, BAn.
    split; [|split; ring]. field. repeat split; lra.
  - exists ab, bc, l, r. repeat (split; [assumption|]).
    unfold calc_eq. rewrite Lm, Ls, Ln, Rm, Rs, Rn, ABm, ABs, ABn, BCm, BCs, BCn.
    split; [|split; ring]. field. repeat split; lra.
Qed.

(** X6.  [Combine] does not accept an empty side: when either calculator
    has count zero the correction term is a division by zero and the merged
    [m2] is not a number. *)
Theorem Calculator_Combine_empty (c other : MeanVarianceCalculator) :
  (calc_n c == 0)%Q \/ (calc_n other == 0)%Q ->
  Calculator_Combine c other = Throw not_representable.
Proof.
  intros H. unfold Calculator_Combine, checked_div.
  rewrite scalar_is_zero_true; [reflexivity|].
  unfold_scalar. destruct H as [H|H]; rewrite H; ring.
Qed.

Lemma scalar_le_cases a :
  (scalar_le a 0%Q = true /\ (a <= 0)%Q) \/ (scalar_le a 0%Q = false /\ (0 < a)%Q).
Proof.
  unfold scalar_le. destruct (Qle_bool a 0) eqn:E.
  - left. split; [reflexivity|]. apply Qle_bool_iff. exact E.
  - right. split; [reflexivity|]. apply Qnot_le_lt. intros H.
    apply Qle_bool_iff in H. congruence.
Qed.

Lemma Qlen_nonneg xs : (0 <= Qlen xs)%Q.
Proof. unfold Qlen. change 0%Q with (inject_Z 0). rewrite <- Zle_Qle. lia. Qed.

Lemma Calculator_feed_value xs : forall c,
  (0 < calc_n c)%Q ->
  (calc_n (Calculator_feed xs c) == calc_n c + Qlen xs)%Q /\
  (calc_sum (Calculator_feed xs c) == calc_sum c + Qsum xs)%Q /\
  (calc_m2 (Calculator_feed xs c) ==
     calc_m2 c + calc_sum c * calc_sum c / calc_n c + Qsumsq xs
     - (calc_sum c + Qsum xs) * (calc_sum c + Qsum xs) / (calc_n c + Qlen xs))%Q.
Proof.
  induction xs as [|x xs IH]; intros c Hc.
  - destruct c as [m s n]. unfold Qlen, Scalar in *. simpl in *.
    split; [ring|]. split; [ring|]. field. lra.
  - pose proof (Qlen_nonneg xs) as HL.
    assert (calc_n (Calculator_Add x c) == calc_n c + 1 /\
            calc_sum (Calculator_Add x c) == calc_sum c + x /\
            calc_m2 (Calculator_Add x c) ==
              calc_m2 c + (calc_n c * x - calc_sum c) * (calc_n c * x - calc_sum c)
                          / ((calc_n c + 1) * calc_n c))%Q as (An & As & Am).
    { unfold Calculator_Add. rewrite scalar_le_false by exact Hc.
      cbn [calc_n calc_sum calc_m2]. unfold_scalar. repeat split; reflexivity. }
    destruct (IH (Calculator_Add x c)) as (Hn & Hs & Hm); [rewrite An; lra|].
    change (Calculator_feed (x :: xs) c) with (Calculator_feed xs (Calculator_Add x c)).
    rewrite Hn, Hs, Hm, An, As, Am, Qlen_cons. simpl Qsum. simpl Qsumsq.
    clear - Hc HL. destruct c as [m s n]. cbn [calc_n calc_sum calc_m2] in *.
    unfold Scalar in *.
    split; [ring|]. split; [ring|]. field. repeat split; lra.
Qed.

Lemma foldl_scalar_add xs : forall acc,
  (foldl scalar_add acc xs == acc + Qsum xs)%Q.
Proof.
  induction xs as [|x xs IH]; intros acc; simpl.
  - unfold Scalar in *. ring.
  - rewrite IH. unfold_scalar. ring.
Qed.

Lemma Calculator_second_pass_value xs om1 : forall acc,
  (fst (Calculator_second_pass xs om1 acc) == fst acc + Qssd xs om1)%Q /\
  (snd (Calculator_second_pass xs om1 acc) == snd acc + Qsum xs - Qlen xs * om1)%Q.
Proof.
  induction xs as [|x xs IH]; intros acc.
  - destruct acc as [a b]. unfold Qlen, Scalar in *. simpl. split; ring.
  - cbn [Calculator_second_pass]. destruct (IH
      (scalar_add (fst acc) (scalar_mul (scalar_sub x om1) (scalar_sub x om1)),
       scalar_add (snd acc) (scalar_sub x om1))) as (H1 & H2).
    rewrite H1, H2, Qlen_cons. cbn [fst snd]. simpl Qssd. simpl Qsum. unfold_scalar.
    split; ring.
Qed.

(** X2.  The bulk [Add] of a span (two passes over the values, with an
    error term) leaves the calculator in the state that adding the values
    one by one gives, whatever the calculator held before. *)
Theorem Calculator_Add_span_sequential (vals : list Scalar) (c : MeanVarianceCalculator) :
  calc_eq (Calculator_Add_span vals c) (Calculator_feed vals c).
Proof.
  destruct vals as [|x [|y vals]];
    [unfold calc_eq; repeat split; reflexivity
    |unfold calc_eq; repeat split; reflexivity|].
  unfold Calculator_Add_span. cbv beta iota zeta.
  set (xs := x :: y :: vals).
  assert (xs <> []) as Hne by discriminate.
  pose proof (Qlen_pos xs Hne) as HL.
  set (l := inject_Z (Z.of_nat (length xs))).
  assert (l == Qlen xs)%Q as Hl by reflexivity.
  set (s1 := foldl scalar_add 0%Q xs).
  assert (s1 == Qsum xs)%Q as Hs1.
  { unfold s1. rewrite foldl_scalar_add. ring. }
  set (om1 := scalar_div s1 l).
  assert (om1 == Qsum xs / Qlen xs)%Q as Hom1.
  { unfold om1. unfold_scalar. rewrite Hs1, Hl. reflexivity. }
  destruct (Calculator_second_pass_value xs om1 (0%Q, 0%Q)) as (Hp1 & Hp2).
  set (pass := Calculator_second_pass xs om1 (0%Q, 0%Q)) in *.
  cbn [fst snd] in Hp1, Hp2.
  assert (snd pass == 0)%Q as Herr.
  { rewrite Hp2, Hom1. field. lra. }
  assert (fst pass == Qsumsq xs - Qsum xs * Qsum xs / Qlen xs)%Q as Hom2.
  { rewrite Hp1, Qssd_expand, Hom1. field. lra. }
  destruct (scalar_le_cases (calc_n c)) as [(E & Hn)|(E & Hn)]; rewrite E.
  - destruct (Calculator_feed_fresh x (y :: vals) c Hn) as (Fn & Fs & Fm).
    fold xs in Fn, Fs, Fm. unfold calc_eq. cbn [calc_n calc_sum calc_m2].
    rewrite Fn, Fs, Fm. unfold_scalar. rewrite Herr, Hom2, Hs1, Hl.
    split; [|split; [ring|reflexivity]]. field. lra.
  - destruct (Calculator_feed_value xs c Hn) as (Fn & Fs & Fm).
    unfold calc_eq. cbn [calc_n calc_sum calc_m2].
    rewrite Fn, Fs, Fm. unfold_scalar. rewrite Herr, Hom2, Hs1, Hl.
    split; [|split; [ring|reflexivity]]. field. repeat split; lra.
Qed.

Lemma Qwsum_app xs ws ys vs : length xs = length ws ->
  (Qwsum (xs ++ ys) (ws ++ vs) == Qwsum xs ws + Qwsum ys vs)%Q.
Proof.
  revert ws. induction xs as [|x xs IH]; intros [|w ws] Hlen; try discriminate.
  - simpl. ring.
  - simpl. rewrite IH by (simpl in Hlen; lia). ring.
Qed.

Lemma Qwsumsq_app xs ws ys vs : length xs = length ws ->
  (Qwsumsq (xs ++ ys) (ws ++ vs) == Qwsumsq xs ws + Qwsumsq ys vs)%Q.
Proof.
  revert ws. induction xs as [|x xs IH]; intros [|w ws] Hlen; try discriminate.
  - simpl. ring.
  - simpl. rewrite IH by (simpl in Hlen; lia). ring.
Qed.

Lemma Qsum_nonneg ws : Forall (fun w => 0 <= w)%Q ws -> (0 <= Qsum ws)%Q.
Proof.
  induction 1 as [|w ws Hw _ IH]; simpl; [lra|]. lra.
Qed.

Lemma scalar_is_zero_cases a :
  (scalar_is_zero a = true /\ (a == 0)%Q) \/ (scalar_is_zero a = false /\ ~ (a == 0)%Q).
Proof.
  unfold scalar_is_zero. destruct (Qeq_bool a 0) eqn:E.
  - left. split; [reflexivity|]. apply Qeq_bool_iff. exact E.
  - right. split; [reflexivity|]. intros H. apply Qeq_bool_iff in H. congruence.
Qed.

Lemma Calculator_Add_weighted_inv xs ws x w c :
  length xs = length ws -> (0 <= Qsum ws)%Q -> (0 <= w)%Q ->
  calc_winv xs ws c ->
  exists r, Calculator_Add_weighted x w c = Ok r /\ calc_winv (xs ++ [x]) (ws ++ [w]) r.
Proof.
  intros Hlen HW Hw (Hn & Hs & Hz & Hp).
  assert (Qsum (ws ++ [w]) == Qsum ws + w)%Q as EW.
  { rewrite Qsum_app. simpl. ring. }
  assert (Qwsum (xs ++ [x]) (ws ++ [w]) == Qwsum xs ws + w * x)%Q as ES.
  { rewrite Qwsum_app by exact Hlen. simpl. ring. }
  assert (Qwsumsq (xs ++ [x]) (ws ++ [w]) == Qwsumsq xs ws + w * x * x)%Q as ESS.
  { rewrite Qwsumsq_app by exact Hlen. simpl. ring. }
  unfold Calculator_Add_weighted.
  destruct (scalar_is_zero_cases w) as [(E & Hw0)|(E & Hw0)]; rewrite E.
  - exists c. split; [reflexivity|]. unfold calc_winv. rewrite EW, ES, ESS, Hw0.
    split; [rewrite Hn; ring|]. split; [rewrite Hs; ring|]. split.
    + intros H0. assert (Qsum ws == 0)%Q as H1 by lra.
      destruct (Hz H1) as (Z1 & Z2 & Z3). rewrite Z1, Z2. split; [ring|split; [ring|exact Z3]].
    + intros H0. assert (0 < Qsum ws)%Q as H1 by lra. rewrite (Hp H1).
      field. lra.
  - assert (0 < w)%Q as Hwp by lra.
    destruct (scalar_le_cases (calc_n c)) as [(E' & Hn0)|(E' & Hn0)]; rewrite E'.
    + assert (Qsum ws == 0)%Q as H1 by (rewrite Hn in Hn0; lra).
      destruct (Hz H1) as (Z1 & Z2 & Z3).
      eexists. split; [reflexivity|]. unfold calc_winv. cbn [calc_n calc_sum calc_m2].
      rewrite EW, ES, ESS, Z1, Z2, Z3, H1. unfold_scalar.
      split; [ring|]. split; [ring|]. split; [intros; lra|]. intros _. field. lra.
    + assert (0 < Qsum ws)%Q as H1 by (rewrite Hn in Hn0; lra).
      match goal with |- context [checked_div ?a ?b] =>
        destruct (checked_div_ok a b) as (q & Hq & Hqv) end.
      { unfold_scalar. rewrite Hn. intros H0.
        assert (0 < w * (Qsum ws + w) * Qsum ws)%Q as Hpos.
        { apply Qmult_lt_0_compat; [apply Qmult_lt_0_compat|]; lra. }
        lra. }
      rewrite Hq. simpl result_bind. eexists. split; [reflexivity|].
      unfold calc_winv. cbn [calc_n calc_sum calc_m2].
      rewrite EW, ES, ESS. unfold_scalar. rewrite Hqv. unfold_scalar.
      rewrite Hn, Hs, (Hp H1).
      split; [ring|]. split; [ring|]. split; [intros; lra|]. intros _.
      field. repeat split; lra.
Qed.

Lemma Calculator_Add_weighted_loop_inv vals : forall weights xs ws c,
  length vals = length weights -> length xs = length ws ->
  Forall (fun w => 0 <= w)%Q ws -> Forall (fun w => 0 <= w)%Q weights ->
  calc_winv xs ws c ->
  exists r, Calculator_Add_weighted_loop vals weights c = Ok r /\
            calc_winv (xs ++ vals) (ws ++ weights) r.
Proof.
  induction vals as [|x vals IH]; intros [|w weights] xs ws c Hl1 Hl2 Hws Hwt Hinv;
    try discriminate.
  - exists c. split; [reflexivity|]. rewrite !app_nil_r. exact Hinv.
  - inversion Hwt as [|? ? Hw Hwt']; subst.
    destruct (Calculator_Add_weighted_inv xs ws x w c Hl2 (Qsum_nonneg ws Hws) Hw Hinv)
      as (r1 & Hr1 & Hinv1).
    destruct (IH weights (xs ++ [x]) (ws ++ [w]) r1) as (r & Hr & Hinv2);
      [simpl in Hl1; lia|rewrite !length_app; simpl; lia
      |apply Forall_app; split; [exact Hws|constructor; [exact Hw|constructor]]
      |exact Hwt'|exact Hinv1|].
    exists r. split.
    + cbn [Calculator_Add_weighted_loop]. rewrite Hr1. exact Hr.
    + rewrite <- !app_assoc in Hinv2. exact Hinv2.
Qed.

(** X3.  In exact arithmetic, fed values with weights that are not negative,
    a fresh calculator holds the weighted statistics: [Count] is the sum of
    the weights, the sum is the weighted sum, [SumOfSquares] the weighted sum
    of squared deviations and [Mean] the weighted mean.  Pairs of weight zero
    are skipped. *)
Theorem Calculator_Add_span_weighted_statistics (vals weights : list Scalar) :
  length vals = length weights ->
  Forall (fun w => 0 <= w)%Q weights ->
  exists r,
    Calculator_Add_span_weighted vals weights Calculator_Reset = Ok r /\
    (Calculator_Count r == Qsum weights)%Q /\
    (calc_sum r == Qwsum vals weights)%Q /\
    ((0 < Qsum weights)%Q ->
       (Calculator_SumOfSquares r ==
          Qwsumsq vals weights - Qwsum vals weights * Qwsum vals weights / Qsum weights)%Q /\
       exists m, Calculator_Mean r = Ok m /\ (m == Qwsum vals weights / Qsum weights)%Q).
Proof.
  intros Hlen Hw.
  destruct (Calculator_Add_weighted_loop_inv vals weights [] [] Calculator_Reset)
    as (r & Hr & Hn & Hs & _ & Hp);
    [exact Hlen|reflexivity|constructor|exact Hw
    |unfold calc_winv; simpl; repeat split; intros; lra|].
  simpl app in *. exists r. split.
  - unfold Calculator_Add_span_weighted. rewrite Hlen, Nat.eqb_refl. exact Hr.
  - unfold Calculator_Count, Calculator_SumOfSquares, Calculator_Mean.
    split; [exact Hn|]. split; [exact Hs|]. intros Hpos. split; [exact (Hp Hpos)|].
    destruct (checked_div_ok (calc_sum r) (calc_n r)) as (q & Hq & Hqv);
      [intros H0; rewrite Hn in H0; lra|].
    exists q. split; [exact Hq|]. rewrite Hqv, Hn, Hs. reflexivity.
Qed.

(** ** Coefficients, continued *)

Lemma set_Value_same s : set_Value s (Value s) = s.
Proof. destruct s; reflexivity. Qed.

Lemma SetCoefficients_loop_restores nodes : forall pre,
  SetCoefficients_loop nodes (pre ++ GetCoefficients nodes) (length pre) = Some nodes.
Proof.
  induction nodes as [|s rest IH]; intros pre; [reflexivity|].
  rewrite GetCoefficients_cons. cbn [SetCoefficients_loop].
  destruct (IsLeaf s) eqn:Hl.
  - rewrite lookup_app_r by lia. rewrite Nat.sub_diag. simpl lookup.
    cbn [app]. replace (pre ++ Value s :: GetCoefficients rest)
      with ((pre ++ [Value s]) ++ GetCoefficients rest)
      by (rewrite <- app_assoc; reflexivity).
    replace (S (length pre)) with (length (pre ++ [Value s]))
      by (rewrite length_app; simpl; lia).
    rewrite IH. simpl. rewrite set_Value_same. reflexivity.
  - simpl app. rewrite IH. reflexivity.
Qed.

(** X7.  Writing back the coefficients that were read changes nothing:
    [SetCoefficients] on the result of [GetCoefficients] succeeds and returns
    the same nodes. *)
Theorem SetCoefficients_restores (nodes : list Node) :
  SetCoefficients nodes (GetCoefficients nodes) = Some nodes.
Proof. apply (SetCoefficients_loop_restores nodes []). Qed.

Lemma SetCoefficients_loop_None nodes coefficients : forall idx,
  (idx <= length coefficients < idx + leaf_count nodes)%nat ->
  SetCoefficients_loop nodes coefficients idx = None.
Proof.
  induction nodes as [|s rest IH]; intros idx Hlen.
  - unfold leaf_count in Hlen. simpl in Hlen. lia.
  - unfold leaf_count in *. rewrite filter_cons in Hlen. cbn [SetCoefficients_loop].
    destruct (decide (IsLeaf s = true)) as [Hl|Hl].
    + rewrite Hl. simpl in Hlen.
      destruct (coefficients !! idx) as [c|] eqn:Hc; [|reflexivity].
      apply lookup_lt_Some in Hc. simpl. rewrite IH by lia. reflexivity.
    + apply not_true_is_false in Hl. rewrite Hl, IH by lia. reflexivity.
Qed.

(** X8.  [SetCoefficients] reads past the end of the span exactly when there
    are fewer coefficients than leaves. *)
Theorem SetCoefficients_too_few (nodes : list Node) (coefficients : list Scalar) :
  SetCoefficients nodes coefficients = None <->
  (length coefficients < leaf_count nodes)%nat.
Proof.
  split.
  - intros HN. destruct (Nat.lt_ge_cases (length coefficients) (leaf_count nodes))
      as [Hlt|Hge]; [exact Hlt|].
    destruct (SetCoefficients_loop_spec nodes coefficients 0%nat Hge) as (n' & Hn' & _).
    unfold SetCoefficients in HN. congruence.
  - intros Hlt. apply SetCoefficients_loop_None. lia.
Qed.

Lemma SetCoefficients_loop_frame nodes coefficients : forall idx nodes',
  SetCoefficients_loop nodes coefficients idx = Some nodes' ->
  Forall2 (fun s s' => s' = set_Value s (Value s') /\ (IsLeaf s = false -> s' = s))
          nodes nodes'.
Proof.
  induction nodes as [|s rest IH]; intros idx nodes' H.
  - inversion H. constructor.
  - cbn [SetCoefficients_loop] in H. destruct (IsLeaf s) eqn:Hl.
    + destruct (coefficients !! idx) as [c|]; [|discriminate]. simpl in H.
      destruct (SetCoefficients_loop rest coefficients (S idx)) as [rest'|] eqn:Hr;
        [|discriminate].
      inversion H; subst. constructor; [|eapply IH; exact Hr].
      split; [destruct s; reflexivity|intros; congruence].
    + destruct (SetCoefficients_loop rest coefficients idx) as [rest'|] eqn:Hr;
        [|discriminate].
      inversion H; subst. constructor; [|eapply IH; exact Hr].
      split; [symmetry; apply set_Value_same|reflexivity].
Qed.

(** X9.  [SetCoefficients] touches nothing but the values of the leaves: the
    node count stays, a node changes at most in its [Value], and a node
    that is not a leaf does not change. *)
Theorem SetCoefficients_only_leaf_values (nodes nodes' : list Node)
  (coefficients : list Scalar) :
  SetCoefficients nodes coefficients = Some nodes' ->
  length nodes' = length nodes /\
  forall i s, nodes !! i = Some s ->
    exists s', nodes' !! i = Some s' /\ s' = set_Value s (Value s') /\
               (IsLeaf s = false -> s' = s).
Proof.
  intros H. apply SetCoefficients_loop_frame in H.
  split; [symmetry; eapply Forall2_length; exact H|].
  intros i s Hs. destruct (Forall2_lookup_l _ _ _ _ _ H Hs) as (s' & Hs' & Hrel).
  exists s'. split; [exact Hs'|exact Hrel].
Qed.

(** ** [Tree::UpdateNodes]: parents, depths and levels *)

(** *** One step of the child loop *)

Lemma UpdateNodes_children_step ar i a h k c x :
  Z.of_nat (length ar) <= 65536 ->
  ar !! i = Some a ->
  postfix_height 0 (take i ar) = Some h ->
  (a <= h)%nat -> (k < a)%nat ->
  children_inv ar i a h k c ->
  span (rev (take i ar)) k = Some x ->
  exists y p s,
    span (rev (take i ar)) (k + 1) = Some y /\ (x < y <= i)%nat /\
    c !! (i - 1 - x)%nat = Some p /\ c !! i = Some s /\
    size_t (Z.of_nat i - 1 - Z.of_nat x) = Z.of_nat (i - 1 - x) /\
    size_t (Z.of_nat (i - 1 - x) - (Length p + 1)) = size_t (Z.of_nat i - 1 - Z.of_nat y) /\
    uint16 (Z.of_nat i) = Z.of_nat i /\
    children_inv ar i a h (k + 1)
      (<[(i - 1 - x)%nat := set_Parent p (uint16 (Z.of_nat i))]>
         (<[i := set_Depth (set_Length s (uint16 (Length s + Length p)))
                           (Z.max (Depth s) (Depth p))]> c)).
Proof.
  intros Hn Ha Hh Hah Hk Hinv Hx. apply lookup_lt_Some in Ha as Hi.
  destruct (span_complete _ _ Hh (k + 1)%nat) as [y Hy]; [lia|].
  destruct (span_next ar i k x y) as (Hxy & Hyi & Hsz); [lia|assumption|assumption|].
  destruct (span_complete _ _ Hh a Hah) as [xa Hxa].
  assert (Hbound : (y + (a - (k + 1)) <= i)%nat).
  { pose proof (span_le _ _ _ Hxa) as Hle. rewrite length_rev, length_take in Hle.
    replace a with ((k + 1) + (a - (k + 1)))%nat in Hxa by lia.
    rewrite (span_add _ _ _ _ Hy) in Hxa.
    destruct (span (drop y (rev (take i ar))) (a - (k + 1))) as [z|] eqn:E;
      simpl in Hxa; [|discriminate].
    apply span_ge in E. inversion Hxa. lia. }
  destruct Hinv as (Hlen & Har & Hlt & (x' & s & Hx' & Hs & HsL)).
  rewrite Hx in Hx'. inversion Hx'; subst x'. clear Hx'.
  set (j := (i - 1 - x)%nat) in *.
  assert (Hj : size_t (Z.of_nat i - 1 - Z.of_nat x) = Z.of_nat j)
    by (rewrite size_t_small; lia).
  destruct (lookup_lt_is_Some_2 c j) as [p Hp]; [lia|].
  destruct (Hlt j p ltac:(lia) Hp) as [(sz & Hsz' & HpL) _].
  rewrite Hsz in Hsz'. inversion Hsz'; subst sz. clear Hsz'.
  exists y, p, s. split; [exact Hy|]. split; [lia|]. split; [exact Hp|].
  split; [exact Hs|]. split; [exact Hj|].
  split; [f_equal; lia|]. split; [rewrite uint16_small; lia|].
  assert (Hu16 : uint16 (Length s + Length p)
                 = Z.of_nat a + Z.of_nat y - Z.of_nat (k + 1))
    by (rewrite uint16_small; lia).
  split; [rewrite !length_insert; exact Hlen|].
  split; [|split].
  + intros q t Hq. apply lookup_insert2 in Hq as [[-> ->]|[(_ & -> & ->)|(_ & _ & Hq)]].
    * apply (Har _ _ Hp).
    * apply (Har _ _ Hs).
    * apply (Har _ _ Hq).
  + intros q t Hqi Hq. apply lookup_insert2 in Hq as [[-> ->]|[(_ & -> & ->)|(Hqi' & Hqj & Hq)]].
    * split; [exists (y - x)%nat; split; [exact Hsz|simpl; lia]|].
      left. simpl. rewrite uint16_small; lia.
    * lia.
    * destruct (Hlt q t Hqi Hq) as [Hl Hpar]. split; [exact Hl|].
      destruct Hpar as [Hpar|(m & xm & Hm & Hxm & Hqm)]; [left; exact Hpar|].
      right. exists m, xm. split; [|split; assumption].
      destruct (decide (m = k)) as [->|]; [|lia].
      rewrite Hx in Hxm. inversion Hxm; subst xm. unfold j in Hqj. lia.
  + exists y. eexists. split; [exact Hy|]. split.
    * rewrite list_lookup_insert_ne by (unfold j; lia).
      apply list_lookup_insert_eq. lia.
    * simpl. exact Hu16.
Qed.

(** *** Depths do not move when other fields are written *)

Lemma depth_at_insert_ne c i s q :
  q <> i -> depth_at (<[i := s]> c) q = depth_at c q.
Proof. intros Hq. unfold depth_at. rewrite list_lookup_insert_ne by auto. reflexivity. Qed.

Lemma depth_at_insert_same c j p p' q :
  c !! j = Some p -> Depth p' = Depth p -> depth_at (<[j := p']> c) q = depth_at c q.
Proof.
  intros Hp Hd. unfold depth_at. destruct (decide (q = j)) as [->|Hne].
  - rewrite list_lookup_insert_eq by (apply lookup_lt_Some in Hp; exact Hp).
    rewrite Hp. simpl. exact Hd.
  - rewrite list_lookup_insert_ne by auto. reflexivity.
Qed.

Lemma max_child_depth_ext c c' cs :
  (forall q, q ∈ cs -> depth_at c' q = depth_at c q) ->
  max_child_depth c' cs = max_child_depth c cs.
Proof.
  unfold max_child_depth. generalize 1. induction cs as [|q cs IH]; intros z H; [reflexivity|].
  simpl. rewrite (H q ltac:(left)). apply IH. intros q' Hq'. apply H. right. exact Hq'.
Qed.

Lemma max_child_depth_snoc c cs q :
  max_child_depth c (cs ++ [q]) = Z.max (max_child_depth c cs) (depth_at c q).
Proof. unfold max_child_depth. rewrite foldl_app. reflexivity. Qed.

Lemma child_positions_le ar p : forall a cs,
  child_positions ar p a = Some cs -> Forall (fun q => (q <= p)%nat) cs.
Proof.
  induction a as [|a IH]; intros cs H; simpl in H.
  - inversion H. constructor.
  - destruct (child_positions ar p a) as [cs0|]; [|discriminate]. simpl in H.
    destruct (span (rev (take p ar)) a) as [x|]; [|discriminate]. simpl in H.
    inversion H; subst. apply Forall_app. split; [apply IH; reflexivity|].
    constructor; [lia|constructor].
Qed.

Lemma depth_ok_stable ar c c' p s s' :
  (forall q, (q <= p)%nat -> depth_at c' q = depth_at c q) ->
  Depth s' = Depth s ->
  depth_ok ar c p s -> depth_ok ar c' p s'.
Proof.
  intros Hst Hd (a & cs & Ha & Hcs & HD). exists a, cs.
  split; [exact Ha|]. split; [exact Hcs|]. rewrite Hd, HD.
  rewrite (max_child_depth_ext c c' cs); [reflexivity|].
  intros q Hq. apply Hst. pose proof (child_positions_le _ _ _ _ Hcs) as Hall.
  rewrite Forall_forall in Hall. apply Hall, Hq.
Qed.

(** *** The child loop *)

Lemma UpdateNodes_children_inv2 ar i a h :
  Z.of_nat (length ar) <= 65536 ->
  ar !! i = Some a ->
  postfix_height 0 (take i ar) = Some h ->
  (a <= h)%nat ->
  forall r k c x, (k + r = a)%nat ->
    children_inv ar i a h k c ->
    children_inv2 ar i h k c ->
    span (rev (take i ar)) k = Some x ->
    exists c', UpdateNodes_children r i (size_t (Z.of_nat i - 1 - Z.of_nat x)) c = Some c'
               /\ children_inv ar i a h a c' /\ children_inv2 ar i h a c'.
Proof.
  intros Hn Ha Hh Hah. apply lookup_lt_Some in Ha as Hi.
  induction r as [|r IH]; intros k c x Hk Hinv Hinv2 Hx.
  - assert (k = a) by lia. subst k. exists c. split; [reflexivity|]. split; assumption.
  - destruct (UpdateNodes_children_step ar i a h k c x Hn Ha Hh Hah ltac:(lia) Hinv Hx)
      as (y & p & s & Hy & Hxy & Hp & Hs & Hj & Hj' & Hu & Hnext).
    set (j := (i - 1 - x)%nat) in *.
    assert (j < i)%nat as Hji by (unfold j; lia).
    simpl. rewrite Hj, at_of_nat by (apply lookup_lt_Some in Hp; exact Hp).
    rewrite Hp. simpl. rewrite Hs. simpl. rewrite Nat2Z.id, Hj'.
    set (s' := set_Depth (set_Length s (uint16 (Length s + Length p)))
                         (Z.max (Depth s) (Depth p))) in *.
    set (p' := set_Parent p (uint16 (Z.of_nat i))) in *.
    set (c2 := <[j := p']> (<[i := s']> c)) in *.
    apply (IH (k + 1)%nat c2 y); [lia|exact Hnext| |exact Hy].
    assert (Hstable : forall q, q <> i -> depth_at c2 q = depth_at c q).
    { intros q Hq. unfold c2.
      rewrite (depth_at_insert_same _ j p p' q);
        [apply depth_at_insert_ne; exact Hq| |reflexivity].
      rewrite list_lookup_insert_ne by lia. exact Hp. }
    destruct Hinv2 as (Hlt & cs & s0 & Hcs & Hcsi & Hs0 & HD).
    rewrite Hs in Hs0. inversion Hs0; subst s0. clear Hs0.
    split.
    + intros q t Hqi Hq. unfold c2 in Hq.
      apply lookup_insert2 in Hq as [[-> ->]|[(_ & -> & ->)|(Hqi' & Hqj & Hq)]].
      * destruct (Hlt j p Hji Hp) as [_ Hdep]. split.
        -- left. exists i, k. split; [|unfold p'; simpl; exact Hu].
           exists a, x. split; [exact Ha|]. split; [lia|]. split; [exact Hx|]. unfold j. lia.
        -- apply (depth_ok_stable ar c c2 j p p'); [|reflexivity|exact Hdep].
           intros q Hq. apply Hstable. lia.
      * lia.
      * destruct (Hlt q t Hqi Hq) as [Hpar Hdep]. split.
        -- destruct Hpar as [Hpar|(m & xm & Hm & Hxm & Hqm)]; [left; exact Hpar|].
           right. exists m, xm. split; [|split; assumption].
           destruct (decide (m = k)) as [->|]; [|lia].
           rewrite Hx in Hxm. inversion Hxm; subst xm. unfold j in Hqj. lia.
        -- apply (depth_ok_stable ar c c2 q t t); [|reflexivity|exact Hdep].
           intros q' Hq'. apply Hstable. lia.
    + exists (cs ++ [j]), s'. split.
      { replace (k + 1)%nat with (S k) by lia. simpl. rewrite Hcs. simpl.
        rewrite Hx. reflexivity. }
      split; [apply Forall_app; split; [exact Hcsi|constructor; [exact Hji|constructor]]|].
      split.
      { unfold c2. rewrite list_lookup_insert_ne by lia.
        apply list_lookup_insert_eq. apply lookup_lt_Some in Hs. exact Hs. }
      rewrite (max_child_depth_ext c c2).
      * rewrite max_child_depth_snoc. unfold s'. simpl. rewrite HD.
        unfold depth_at. rewrite Hp. reflexivity.
      * intros q Hq. apply Hstable. apply elem_of_app in Hq as [Hq|Hq].
        -- rewrite Forall_forall in Hcsi. specialize (Hcsi q Hq). lia.
        -- apply list_elem_of_singleton in Hq. lia.
Qed.

Lemma pending_root_shift ar i a h p :
  ar !! i = Some a -> (a <= h)%nat ->
  pending_root ar i h a p -> pending_root ar (S i) (h - a + 1) 0 p.
Proof.
  intros Ha Hah (m & x & Hm & Hx & Hp).
  exists (S (m - a)), (S x). split; [lia|]. split; [|lia].
  rewrite (take_S_r _ _ _ Ha), rev_app_distr. simpl.
  replace (m - a + a)%nat with m by lia. rewrite Hx. reflexivity.
Qed.

Lemma children_inv2_start ar i h c s :
  c !! i = Some s ->
  nodes_inv2 ar i h c ->
  children_inv2 ar i h 0 (<[i := set_Length (set_Depth s 1) (Arity s)]> c).
Proof.
  intros Hs Hinv. split.
  - intros p t Hp Ht. rewrite list_lookup_insert_ne in Ht by lia.
    destruct (Hinv p t Hp Ht) as [Hpar Hdep]. split; [exact Hpar|].
    apply (depth_ok_stable ar c _ p t t); [|reflexivity|exact Hdep].
    intros q Hq. apply depth_at_insert_ne. lia.
  - exists [], (set_Length (set_Depth s 1) (Arity s)). split; [reflexivity|].
    split; [constructor|]. split; [|reflexivity].
    apply list_lookup_insert_eq. apply lookup_lt_Some in Hs. exact Hs.
Qed.

Lemma children_inv2_done ar i a h c s t :
  ar !! i = Some a -> (a <= h)%nat ->
  children_inv2 ar i h a c ->
  c !! i = Some s ->
  Depth t = (if (a =? 0)%nat then 1 else uint16 (Depth s + 1)) ->
  (a = 0%nat -> Depth s = 1) ->
  nodes_inv2 ar (S i) (h - a + 1) (<[i := t]> c).
Proof.
  intros Ha Hah (Hlt & cs & s0 & Hcs & Hcsi & Hs0 & HD) Hs HtD Hleaf.
  rewrite Hs in Hs0. inversion Hs0; subst s0. clear Hs0.
  assert (Hstable : forall q, q <> i -> depth_at (<[i := t]> c) q = depth_at c q)
    by (intros q Hq; apply depth_at_insert_ne; exact Hq).
  intros q u Hq Hu. destruct (decide (q = i)) as [->|Hne].
  - rewrite list_lookup_insert_eq in Hu by (apply lookup_lt_Some in Hs; exact Hs).
    inversion Hu; subst u. split.
    + right. exists 0%nat, 0%nat. split; [lia|]. split; [apply span_zero|lia].
    + exists a, cs. split; [exact Ha|]. split; [exact Hcs|]. rewrite HtD.
      destruct (Nat.eqb_spec a 0) as [Hz|Hnz]; [reflexivity|].
      rewrite HD. rewrite (max_child_depth_ext c (<[i := t]> c)); [reflexivity|].
      intros q Hq'. apply Hstable. rewrite Forall_forall in Hcsi.
      specialize (Hcsi q Hq'). lia.
  - rewrite list_lookup_insert_ne in Hu by auto.
    destruct (Hlt q u ltac:(lia) Hu) as [Hpar Hdep]. split.
    + destruct Hpar as [Hpar|Hpend]; [left; exact Hpar|].
      right. apply pending_root_shift; assumption.
    + apply (depth_ok_stable ar c _ q u u); [|reflexivity|exact Hdep].
      intros q' Hq'. apply Hstable. lia.
Qed.

Lemma UpdateNodes_node_inv2 ar i a h h' c :
  Z.of_nat (length ar) <= 65536 ->
  ar !! i = Some a ->
  postfix_height 0 (take i ar) = Some h ->
  postfix_height 0 (take (S i) ar) = Some h' ->
  nodes_inv ar i h c -> nodes_inv2 ar i h c ->
  exists c', UpdateNodes_node i c = Some c' /\
             nodes_inv ar (S i) h' c' /\ nodes_inv2 ar (S i) h' c'.
Proof.
  intros Hn Ha Hh Hh' Hinv Hinv2.
  destruct (postfix_height_snoc _ _ _ _ _ Ha Hh Hh') as [Hah ->].
  pose proof Hinv as (Hlen & Har & _).
  apply lookup_lt_Some in Ha as Hi.
  destruct (lookup_lt_is_Some_2 c i) as [s Hs]; [lia|].
  destruct (Har _ _ Hs) as (a' & Ha' & Hsa). rewrite Ha in Ha'. inversion Ha'; subst a'.
  pose proof (children_inv_start _ _ _ _ _ _ Ha Hs Hinv) as Hstart.
  pose proof (children_inv2_start _ _ _ _ _ Hs Hinv2) as Hstart2.
  unfold UpdateNodes_node. rewrite Hs. simpl. unfold IsLeaf. simpl.
  set (s1 := set_Length (set_Depth s 1) (Arity s)) in *.
  assert (Hs1 : <[i:=s1]> c !! i = Some s1) by (apply list_lookup_insert_eq; lia).
  destruct (Z.eqb_spec (Arity s) 0) as [Hz|Hnz].
  - assert (a = 0%nat) by lia. subst a. eexists. split; [reflexivity|].
    rewrite <- (list_insert_insert_eq c i s1 s1). split.
    + apply (children_inv_done _ _ 0%nat _ _ s1 s1); auto.
    + apply (children_inv2_done _ _ 0%nat _ _ s1 s1); auto.
  - destruct (UpdateNodes_children_inv2 ar i a h Hn Ha Hh Hah a 0%nat _ 0%nat
                ltac:(lia) Hstart Hstart2 (span_zero _)) as (c2 & Hc2 & Hinv' & Hinv2').
    rewrite Hsa, Nat2Z.id.
    replace (Z.of_nat i - 1 - Z.of_nat 0) with (Z.of_nat i - 1) in Hc2 by lia.
    rewrite Hc2. simpl.
    pose proof Hinv' as (_ & _ & _ & (x & s2 & _ & Hs2 & _)).
    rewrite Hs2. simpl. eexists. split; [reflexivity|]. split.
    + apply (children_inv_done _ _ a _ _ s2); auto.
    + apply (children_inv2_done _ _ a _ _ s2); auto.
      * simpl. destruct (Nat.eqb_spec a 0); [lia|reflexivity].
      * intros; lia.
Qed.

Lemma UpdateNodes_loop_inv2 ar hn :
  Z.of_nat (length ar) <= 65536 ->
  postfix_height 0 ar = Some hn ->
  forall cnt i h c, (i + cnt = length ar)%nat ->
    postfix_height 0 (take i ar) = Some h ->
    nodes_inv ar i h c -> nodes_inv2 ar i h c ->
    exists c', UpdateNodes_loop (seq i cnt) c = Some c' /\
      nodes_inv ar (length ar) hn c' /\ nodes_inv2 ar (length ar) hn c'.
Proof.
  intros Hn Hhn. induction cnt as [|cnt IH]; intros i h c Hi Hh Hinv Hinv2.
  - assert (i = length ar) by lia. subst i. rewrite take_ge in Hh by lia.
    rewrite Hhn in Hh. inversion Hh; subst h. exists c. split; [reflexivity|].
    split; assumption.
  - destruct (lookup_lt_is_Some_2 ar i) as [a Ha]; [lia|].
    destruct (postfix_height_prefix ar hn (S i) Hhn) as [h' Hh'].
    destruct (UpdateNodes_node_inv2 ar i a h h' c Hn Ha Hh Hh' Hinv Hinv2)
      as (c1 & Hc1 & Hinv1 & Hinv21).
    simpl. rewrite Hc1. simpl. apply (IH (S i) h'); [lia|assumption|assumption|assumption].
Qed.

(** *** The child iterator visits the positions of the layout *)

Lemma Children_walk_positions ar i h c :
  Z.of_nat (length ar) <= 65536 ->
  (i < length ar)%nat ->
  length c = length ar ->
  postfix_height 0 (take i ar) = Some h ->
  (forall p s, (p < i)%nat -> c !! p = Some s -> len_ok ar p s) ->
  forall r k x pre, (k + r <= h)%nat ->
    span (rev (take i ar)) k = Some x ->
    child_positions ar i k = Some pre ->
    exists cs, Children_walk r (size_t (Z.of_nat i - 1 - Z.of_nat x)) c = Some cs /\
      child_positions ar i (k + r) = Some (pre ++ cs).
Proof.
  intros Hn Hi Hlen Hh Hlt. induction r as [|r IH]; intros k x pre Hk Hx Hpre.
  - exists []. rewrite Nat.add_0_r, app_nil_r. split; [reflexivity|exact Hpre].
  - destruct (span_complete _ _ Hh (k + 1)%nat) as [y Hy]; [lia|].
    destruct (span_next ar i k x y) as (Hxy & Hyi & Hsz); [lia|assumption|assumption|].
    set (j := (i - 1 - x)%nat) in *.
    assert (Hj : size_t (Z.of_nat i - 1 - Z.of_nat x) = Z.of_nat j)
      by (rewrite size_t_small; lia).
    destruct (lookup_lt_is_Some_2 c j) as [p Hp]; [lia|].
    destruct (Hlt j p ltac:(lia) Hp) as (sz & Hsz' & HpL).
    rewrite Hsz in Hsz'. inversion Hsz'; subst sz. clear Hsz'.
    assert (child_positions ar i (k + 1) = Some (pre ++ [j])) as Hpre'.
    { replace (k + 1)%nat with (S k) by lia. simpl. rewrite Hpre. simpl.
      rewrite Hx. reflexivity. }
    destruct (IH (k + 1)%nat y (pre ++ [j]) ltac:(lia) Hy Hpre') as (cs & Hcs & Hpos).
    simpl. rewrite Hj, at_of_nat, Nat2Z.id by lia. rewrite Hp. simpl.
    replace (size_t (Z.of_nat j - (Length p + 1)))
      with (size_t (Z.of_nat i - 1 - Z.of_nat y)) by (f_equal; lia).
    rewrite Hcs. simpl. exists (j :: cs). split; [reflexivity|].
    replace (k + S r)%nat with (k + 1 + r)%nat by lia.
    rewrite Hpos, <- app_assoc. reflexivity.
Qed.

(** *** The level loop *)

Lemma same_but_Level_refl s : same_but_Level s s.
Proof. destruct s; reflexivity. Qed.

Lemma same_but_Level_set s s' v : same_but_Level s s' -> same_but_Level s (set_Level s' v).
Proof. unfold same_but_Level. intros ->. destruct s; reflexivity. Qed.

Lemma same_but_Level_fields s s' :
  same_but_Level s s' ->
  Arity s' = Arity s /\ Length s' = Length s /\ Depth s' = Depth s /\ Parent s' = Parent s.
Proof. unfold same_but_Level. intros ->. destruct s; simpl; auto. Qed.

Lemma UpdateNodes_levels_inv (c0 : list Node) :
  (forall p s, (p < length c0 - 1)%nat -> c0 !! p = Some s ->
     exists q, Parent s = Z.of_nat q /\ (p < q < length c0)%nat) ->
  forall k c, (k <= length c0 - 1)%nat ->
    Forall2 same_but_Level c0 c ->
    (forall p s, (k <= p < length c0 - 1)%nat -> c !! p = Some s ->
       exists t, at_ c (Parent s) = Some t /\ Level s = uint16 (Level t + 1)) ->
    exists c', UpdateNodes_levels (rev (seq 0 k)) c = Some c' /\
      Forall2 same_but_Level c0 c' /\
      (forall p s, (p < length c0 - 1)%nat -> c' !! p = Some s ->
         exists t, at_ c' (Parent s) = Some t /\ Level s = uint16 (Level t + 1)) /\
      (forall p, (k <= p)%nat -> c' !! p = c !! p).
Proof.
  intros Hpar. induction k as [|k IH]; intros c Hk Hsame Hdone.
  - exists c. split; [reflexivity|]. split; [exact Hsame|]. split; [|reflexivity].
    intros p s Hp Hs. apply (Hdone p s); [lia|exact Hs].
  - rewrite seq_S, rev_app_distr. simpl.
    pose proof (Forall2_length _ _ _ Hsame) as Hlen.
    destruct (lookup_lt_is_Some_2 c k) as [s Hs]; [lia|].
    destruct (Forall2_lookup_r _ _ _ _ _ Hsame Hs) as (s0 & Hs0 & Hss).
    destruct (Hpar k s0 ltac:(lia) Hs0) as (q & Hq & Hkq).
    destruct (same_but_Level_fields _ _ Hss) as (_ & _ & _ & HP).
    destruct (lookup_lt_is_Some_2 c q) as [t Ht]; [lia|].
    unfold UpdateNodes_level. rewrite Hs. simpl. rewrite HP, Hq.
    rewrite at_of_nat by lia. rewrite Ht. simpl.
    set (s' := set_Level s (uint16 (Level t + 1))).
    destruct (IH (<[k := s']> c)) as (c' & Hc' & Hsame' & Hdone' & Hkeep).
    + lia.
    + rewrite <- (list_insert_id c0 k s0 Hs0). apply Forall2_insert; [exact Hsame|].
      apply same_but_Level_set. exact Hss.
    + intros p u Hp Hu. destruct (decide (p = k)) as [->|Hne].
      * rewrite list_lookup_insert_eq in Hu by lia. inversion Hu; subst u.
        exists t. split; [|reflexivity]. unfold s'. simpl. rewrite HP, Hq.
        rewrite at_of_nat by (rewrite length_insert; lia).
        rewrite list_lookup_insert_ne by lia. exact Ht.
      * rewrite list_lookup_insert_ne in Hu by auto.
        destruct (Hdone p u ltac:(lia) Hu) as (t' & Ht' & HL).
        exists t'. split; [|exact HL].
        destruct (Forall2_lookup_r _ _ _ _ _ Hsame Hu) as (u0 & Hu0 & Huu).
        destruct (Hpar p u0 ltac:(lia) Hu0) as (q' & Hq' & Hpq').
        destruct (same_but_Level_fields _ _ Huu) as (_ & _ & _ & HP').
        rewrite HP', Hq' in Ht' |- *.
        rewrite at_of_nat in Ht' |- * by (rewrite ?length_insert; lia).
        rewrite list_lookup_insert_ne by lia. exact Ht'.
    + exists c'. split; [exact Hc'|]. split; [exact Hsame'|]. split; [exact Hdone'|].
      intros p Hp. rewrite Hkeep by lia. apply list_lookup_insert_ne. lia.
Qed.

(** *** What [UpdateNodes] never writes *)

Lemma same_payload_refl s : same_payload s s.
Proof. unfold same_payload. auto 10. Qed.

Lemma same_payload_trans s1 s2 s3 :
  same_payload s1 s2 -> same_payload s2 s3 -> same_payload s1 s3.
Proof. unfold same_payload. intuition congruence. Qed.

Lemma Forall2_same_payload_refl c : Forall2 same_payload c c.
Proof. induction c; constructor; [apply same_payload_refl|assumption]. Qed.

Lemma Forall2_same_payload_trans c1 c2 c3 :
  Forall2 same_payload c1 c2 -> Forall2 same_payload c2 c3 -> Forall2 same_payload c1 c3.
Proof.
  intros H12. revert c3. induction H12 as [|s1 s2 c1 c2 Hs H12 IH]; intros c3 H23.
  - inversion H23. constructor.
  - inversion H23; subst. constructor; [eapply same_payload_trans; eassumption|].
    apply IH. assumption.
Qed.

Lemma Forall2_same_payload_insert c i s s' :
  c !! i = Some s -> same_payload s s' -> Forall2 same_payload c (<[i := s']> c).
Proof.
  intros Hs Hp. rewrite <- (list_insert_id c i s Hs) at 1.
  apply Forall2_insert; [apply Forall2_same_payload_refl|exact Hp].
Qed.

Lemma at_Some {A : Type} (v : list A) (j : Z) (x : A) :
  at_ v j = Some x -> v !! Z.to_nat j = Some x.
Proof. unfold at_. destruct (_ && _); [auto|discriminate]. Qed.

Lemma UpdateNodes_children_payload k : forall i j c c',
  UpdateNodes_children k i j c = Some c' -> Forall2 same_payload c c'.
Proof.
  induction k as [|k IH]; intros i j c c' H; simpl in H.
  - inversion H. apply Forall2_same_payload_refl.
  - destruct (at_ c j) as [p|] eqn:Hp; [|discriminate]. simpl in H.
    destruct (c !! i) as [s|] eqn:Hs; [|discriminate]. simpl in H.
    apply at_Some in Hp. apply IH in H.
    set (s' := set_Depth (set_Length s (uint16 (Length s + Length p)))
                         (Z.max (Depth s) (Depth p))) in *.
    set (p' := set_Parent p (uint16 (Z.of_nat i))) in *.
    apply (Forall2_same_payload_trans _ (<[Z.to_nat j := p']> (<[i := s']> c)));
      [|exact H].
    apply (Forall2_same_payload_trans _ (<[i := s']> c)).
    + apply (Forall2_same_payload_insert c i s s' Hs). unfold same_payload. simpl. auto 10.
    + destruct (decide (Z.to_nat j = i)) as [Hji|Hji].
      * rewrite Hji. rewrite Hji, Hs in Hp. inversion Hp; subst p.
        apply (Forall2_same_payload_insert _ i s' p').
        -- apply list_lookup_insert_eq. apply lookup_lt_Some in Hs. exact Hs.
        -- unfold same_payload. simpl. auto 10.
      * apply (Forall2_same_payload_insert _ _ p p').
        -- rewrite list_lookup_insert_ne by auto. exact Hp.
        -- unfold same_payload. simpl. auto 10.
Qed.

Lemma UpdateNodes_node_payload i c c' :
  UpdateNodes_node i c = Some c' -> Forall2 same_payload c c'.
Proof.
  unfold UpdateNodes_node. destruct (c !! i) as [s|] eqn:Hs; [|discriminate]. simpl.
  set (s1 := set_Length (set_Depth s 1) (Arity s)).
  assert (Forall2 same_payload c (<[i := s1]> c)) as H1.
  { apply (Forall2_same_payload_insert c i s s1 Hs). unfold same_payload. simpl. auto 10. }
  destruct (IsLeaf s1); [intros [= <-]; exact H1|].
  destruct (UpdateNodes_children _ _ _ _) as [c2|] eqn:Hc2; [|discriminate]. simpl.
  destruct (c2 !! i) as [s2|] eqn:Hs2; [|discriminate]. simpl. intros [= <-].
  apply UpdateNodes_children_payload in Hc2.
  eapply Forall2_same_payload_trans; [exact H1|].
  eapply Forall2_same_payload_trans; [exact Hc2|].
  apply (Forall2_same_payload_insert c2 i s2 (set_Depth s2 (uint16 (Depth s2 + 1))) Hs2).
  unfold same_payload. simpl. auto 10.
Qed.

Lemma UpdateNodes_loop_payload idxs : forall c c',
  UpdateNodes_loop idxs c = Some c' -> Forall2 same_payload c c'.
Proof.
  induction idxs as [|i idxs IH]; intros c c' H; simpl in H.
  - inversion H. apply Forall2_same_payload_refl.
  - destruct (UpdateNodes_node i c) as [c1|] eqn:Hc1; [|discriminate]. simpl in H.
    eapply Forall2_same_payload_trans; [apply (UpdateNodes_node_payload _ _ _ Hc1)|].
    apply IH. exact H.
Qed.

Lemma UpdateNodes_levels_payload idxs : forall c c',
  UpdateNodes_levels idxs c = Some c' -> Forall2 same_payload c c'.
Proof.
  induction idxs as [|i idxs IH]; intros c c' H; simpl in H.
  - inversion H. apply Forall2_same_payload_refl.
  - unfold UpdateNodes_level in H. destruct (c !! i) as [s|] eqn:Hs; [|discriminate].
    simpl in H. destruct (at_ c (Parent s)) as [p|]; [|discriminate]. simpl in H.
    eapply Forall2_same_payload_trans; [|apply IH; exact H].
    apply (Forall2_same_payload_insert c i s (set_Level s (uint16 (Level p + 1))) Hs).
    unfold same_payload. simpl. auto 10.
Qed.

Lemma UpdateNodes_payload nodes nodes' :
  UpdateNodes nodes = Some nodes' -> Forall2 same_payload nodes nodes'.
Proof.
  unfold UpdateNodes. destruct (UpdateNodes_loop _ _) as [c1|] eqn:Hc1; [|discriminate].
  simpl. destruct (c1 !! _) as [root|] eqn:Hroot; [|discriminate]. simpl. intros H.
  eapply Forall2_same_payload_trans; [apply (UpdateNodes_loop_payload _ _ _ Hc1)|].
  eapply Forall2_same_payload_trans; [|apply (UpdateNodes_levels_payload _ _ _ H)].
  apply (Forall2_same_payload_insert c1 _ root (set_Level root 1) Hroot).
  unfold same_payload. simpl. auto 10.
Qed.

Lemma GetCoefficients_payload c c' :
  Forall2 same_payload c c' -> GetCoefficients c' = GetCoefficients c.
Proof.
  induction 1 as [|s s' c c' Hs _ IH]; [reflexivity|].
  rewrite !GetCoefficients_cons, IH. unfold IsLeaf.
  destruct Hs as (_ & -> & _ & _ & -> & _). reflexivity.
Qed.

(** X10.  [UpdateNodes] computes [Length], [Depth], [Level] and [Parent];
    whenever it returns, it has kept the number of nodes and every other
    field, and so the coefficients. *)
Theorem UpdateNodes_keeps_payload (nodes nodes' : list Node) :
  UpdateNodes nodes = Some nodes' ->
  length nodes' = length nodes /\
  (forall i s s', nodes !! i = Some s -> nodes' !! i = Some s' ->
     Type_ s' = Type_ s /\ Arity s' = Arity s /\ HashValue s' = HashValue s /\
     CalculatedHashValue s' = CalculatedHashValue s /\ Value s' = Value s /\
     IsEnabled s' = IsEnabled s /\ Optimize s' = Optimize s) /\
  GetCoefficients nodes' = GetCoefficients nodes.
Proof.
  intros H. apply UpdateNodes_payload in H.
  split; [symmetry; eapply Forall2_length; exact H|]. split.
  - intros i s s' Hs Hs'. exact (Forall2_lookup_lr _ _ _ _ _ _ H Hs Hs').
  - apply GetCoefficients_payload. exact H.
Qed.

(** *** A node has one parent *)

Lemma span_lt l m m2 x x2 :
  (m < m2)%nat -> span l m = Some x -> span l m2 = Some x2 -> (x < x2)%nat.
Proof.
  intros Hm Hx Hx2. replace m2 with (m + (m2 - m))%nat in Hx2 by lia.
  rewrite (span_add _ _ _ _ Hx) in Hx2.
  destruct (span (drop x l) (m2 - m)) as [z|] eqn:E; simpl in Hx2; [|discriminate].
  apply span_ge in E. inversion Hx2. lia.
Qed.

Lemma span_take_S ar i a m :
  ar !! i = Some a ->
  span (rev (take (S i) ar)) (S m) = S <$> span (rev (take i ar)) (m + a).
Proof. intros Ha. rewrite (take_S_r _ _ _ Ha), rev_app_distr. reflexivity. Qed.

Lemma pending_back ar : forall d i p m x,
  (p < i)%nat -> (i + d <= length ar)%nat ->
  span (rev (take (i + d) ar)) m = Some x -> (p + x + 1 = i + d)%nat ->
  exists m' x', span (rev (take i ar)) m' = Some x' /\ (p + x' + 1 = i)%nat /\
    ((0 < d)%nat -> exists a, ar !! i = Some a /\ (a <= m')%nat).
Proof.
  induction d as [|d IH]; intros i p m x Hp Hd Hx Hpx.
  - rewrite Nat.add_0_r in *. exists m, x. split; [exact Hx|]. split; [exact Hpx|].
    intros; lia.
  - replace (i + S d)%nat with (S (i + d)) in * by lia.
    destruct (lookup_lt_is_Some_2 ar (i + d)) as [a Ha]; [lia|].
    destruct m as [|m0].
    + rewrite span_zero in Hx. inversion Hx; subst x. lia.
    + rewrite (span_take_S _ _ _ _ Ha) in Hx.
      destruct (span (rev (take (i + d) ar)) (m0 + a)) as [x0|] eqn:Hx0;
        simpl in Hx; [|discriminate].
      inversion Hx; subst x. destruct d as [|d'].
      * rewrite Nat.add_0_r in *. exists (m0 + a)%nat, x0.
        split; [exact Hx0|]. split; [lia|]. intros _. exists a. split; [exact Ha|lia].
      * destruct (IH i p (m0 + a)%nat x0 Hp ltac:(lia) Hx0 ltac:(lia))
          as (m' & x' & Hm' & Hpx' & Hge).
        exists m', x'. split; [exact Hm'|]. split; [exact Hpx'|]. intros _.
        apply Hge. lia.
Qed.

Lemma is_child_unique ar q q' m m' p :
  is_child ar q m p -> is_child ar q' m' p -> q = q'.
Proof.
  assert (forall q q' m m', (q < q')%nat ->
            is_child ar q m p -> is_child ar q' m' p -> False) as Hlt.
  { clear. intros q q' m m' Hqq (a & x & Ha & Hm & Hx & Hp) (a' & x' & Ha' & Hm' & Hx' & Hp').
    apply lookup_lt_Some in Ha' as Hq'.
    replace q' with (q + (q' - q))%nat in Hx', Hp' by lia.
    destruct (pending_back ar (q' - q) q p m' x' ltac:(lia) ltac:(lia) Hx' Hp')
      as (m2 & x2 & Hx2 & Hp2 & Hge).
    destruct (Hge ltac:(lia)) as (a2 & Ha2 & Hle). rewrite Ha in Ha2.
    inversion Ha2; subst a2.
    assert (m < m2)%nat as Hmm by lia.
    pose proof (span_lt _ _ _ _ _ Hmm Hx Hx2). lia. }
  intros H1 H2. destruct (Nat.lt_total q q') as [H|[H|H]]; [|exact H|].
  - destruct (Hlt _ _ _ _ H H1 H2).
  - destruct (Hlt _ _ _ _ H H2 H1).
Qed.

Lemma child_positions_elem ar q : forall a cs p,
  child_positions ar q a = Some cs -> p ∈ cs ->
  exists m x, (m < a)%nat /\ span (rev (take q ar)) m = Some x /\ p = (q - 1 - x)%nat.
Proof.
  induction a as [|a IH]; intros cs p H Hp; simpl in H.
  - inversion H; subst. inversion Hp.
  - destruct (child_positions ar q a) as [cs0|]; [|discriminate]. simpl in H.
    destruct (span (rev (take q ar)) a) as [x|] eqn:Hx; [|discriminate]. simpl in H.
    inversion H; subst. apply elem_of_app in Hp as [Hp|Hp].
    + destruct (IH cs0 p eq_refl Hp) as (m & x' & Hm & Hx' & ->).
      exists m, x'. split; [lia|]. split; [exact Hx'|reflexivity].
    + apply list_elem_of_singleton in Hp. subst p. exists a, x.
      split; [lia|]. split; [exact Hx|reflexivity].
Qed.

Lemma child_positions_mem ar q : forall a cs m x,
  child_positions ar q a = Some cs -> (m < a)%nat ->
  span (rev (take q ar)) m = Some x -> (q - 1 - x)%nat ∈ cs.
Proof.
  induction a as [|a IH]; intros cs m x H Hm Hx; [lia|]. simpl in H.
  destruct (child_positions ar q a) as [cs0|]; [|discriminate]. simpl in H.
  destruct (span (rev (take q ar)) a) as [xa|] eqn:Hxa; [|discriminate]. simpl in H.
  inversion H; subst. apply elem_of_app. destruct (decide (m = a)) as [->|Hne].
  - right. rewrite Hx in Hxa. inversion Hxa; subst. left.
  - left. apply (IH cs0 m x eq_refl); [lia|exact Hx].
Qed.

(** *** The parent of the root is not written *)

Lemma UpdateNodes_children_parents ar i a h :
  Z.of_nat (length ar) <= 65536 ->
  ar !! i = Some a ->
  postfix_height 0 (take i ar) = Some h ->
  (a <= h)%nat ->
  forall r k c x c', (k + r = a)%nat ->
    children_inv ar i a h k c ->
    span (rev (take i ar)) k = Some x ->
    UpdateNodes_children r i (size_t (Z.of_nat i - 1 - Z.of_nat x)) c = Some c' ->
    forall q, (i <= q)%nat -> Parent <$> c' !! q = Parent <$> c !! q.
Proof.
  intros Hn Ha Hh Hah. induction r as [|r IH]; intros k c x c' Hk Hinv Hx Hc' q Hq.
  - inversion Hc'. reflexivity.
  - destruct (UpdateNodes_children_step ar i a h k c x Hn Ha Hh Hah ltac:(lia) Hinv Hx)
      as (y & p & s & Hy & Hxy & Hp & Hs & Hj & Hj' & Hu & Hnext).
    simpl in Hc'. rewrite Hj, at_of_nat in Hc' by (apply lookup_lt_Some in Hp; exact Hp).
    rewrite Hp in Hc'. simpl in Hc'. rewrite Hs in Hc'. simpl in Hc'.
    rewrite Nat2Z.id, Hj' in Hc'.
    rewrite (IH (k + 1)%nat _ y c' ltac:(lia) Hnext Hy Hc' q Hq).
    rewrite list_lookup_insert_ne by lia.
    destruct (decide (q = i)) as [->|Hne].
    + rewrite list_lookup_insert_eq by (apply lookup_lt_Some in Hs; exact Hs).
      rewrite Hs. reflexivity.
    + rewrite list_lookup_insert_ne by auto. reflexivity.
Qed.

Lemma UpdateNodes_node_parents ar i a h h' c c' :
  Z.of_nat (length ar) <= 65536 ->
  ar !! i = Some a ->
  postfix_height 0 (take i ar) = Some h ->
  postfix_height 0 (take (S i) ar) = Some h' ->
  nodes_inv ar i h c ->
  UpdateNodes_node i c = Some c' ->
  forall q, (i <= q)%nat -> Parent <$> c' !! q = Parent <$> c !! q.
Proof.
  intros Hn Ha Hh Hh' Hinv Hc' q Hq.
  destruct (postfix_height_snoc _ _ _ _ _ Ha Hh Hh') as [Hah ->].
  pose proof Hinv as (Hlen & Har & _).
  apply lookup_lt_Some in Ha as Hi.
  destruct (lookup_lt_is_Some_2 c i) as [s Hs]; [lia|].
  destruct (Har _ _ Hs) as (a' & Ha' & Hsa). rewrite Ha in Ha'. inversion Ha'; subst a'.
  pose proof (children_inv_start _ _ _ _ _ _ Ha Hs Hinv) as Hstart.
  unfold UpdateNodes_node in Hc'. rewrite Hs in Hc'. simpl in Hc'.
  set (s1 := set_Length (set_Depth s 1) (Arity s)) in *.
  assert (Parent <$> <[i := s1]> c !! q = Parent <$> c !! q) as H1.
  { destruct (decide (q = i)) as [->|Hne].
    - rewrite list_lookup_insert_eq by lia. rewrite Hs. reflexivity.
    - rewrite list_lookup_insert_ne by auto. reflexivity. }
  destruct (IsLeaf s1) eqn:Hleaf; [inversion Hc'; subst c'; exact H1|].
  destruct (UpdateNodes_children _ _ _ _) as [c2|] eqn:Hc2; [|discriminate].
  simpl in Hc'. destruct (c2 !! i) as [s2|] eqn:Hs2; [|discriminate]. simpl in Hc'.
  inversion Hc'; subst c'. clear Hc'.
  replace (Z.to_nat (Arity s)) with a in Hc2 by lia.
  replace (Z.of_nat i - 1) with (Z.of_nat i - 1 - Z.of_nat 0) in Hc2 by lia.
  pose proof (UpdateNodes_children_parents ar i a h Hn Ha Hh Hah a 0%nat _ 0%nat c2
                ltac:(lia) Hstart (span_zero _) Hc2 q Hq) as H2.
  rewrite <- H1, <- H2. destruct (decide (q = i)) as [->|Hne].
  - rewrite list_lookup_insert_eq by (apply lookup_lt_Some in Hs2; exact Hs2).
    rewrite Hs2. reflexivity.
  - rewrite list_lookup_insert_ne by auto. reflexivity.
Qed.

Lemma UpdateNodes_loop_parents ar hn :
  Z.of_nat (length ar) <= 65536 ->
  postfix_height 0 ar = Some hn ->
  forall cnt i h c c', (i + cnt = length ar)%nat ->
    postfix_height 0 (take i ar) = Some h ->
    nodes_inv ar i h c ->
    UpdateNodes_loop (seq i cnt) c = Some c' ->
    forall q, (length ar - 1 <= q)%nat -> Parent <$> c' !! q = Parent <$> c !! q.
Proof.
  intros Hn Hhn. induction cnt as [|cnt IH]; intros i h c c' Hi Hh Hinv Hc' q Hq.
  - inversion Hc'. reflexivity.
  - destruct (lookup_lt_is_Some_2 ar i) as [a Ha]; [lia|].
    destruct (postfix_height_prefix ar hn (S i) Hhn) as [h' Hh'].
    destruct (UpdateNodes_node_inv ar i a h h' c Hn Ha Hh Hh' Hinv) as (c1 & Hc1 & Hinv1).
    simpl in Hc'. rewrite Hc1 in Hc'. simpl in Hc'.
    rewrite (IH (S i) h' c1 c' ltac:(lia) Hh' Hinv1 Hc' q Hq).
    apply (UpdateNodes_node_parents ar i a h h' c c1 Hn Ha Hh Hh' Hinv Hc1). lia.
Qed.

Lemma nodes_inv2_start nodes : nodes_inv2 (arities nodes) 0 0 nodes.
Proof. intros p s Hp. lia. Qed.

Lemma parent_assigned_range ar p s :
  parent_assigned ar p s ->
  exists q, Parent s = Z.of_nat q /\ (p < q < length ar)%nat.
Proof.
  intros (q & m & (a & x & Ha & _ & _ & Hp) & HP). exists q. split; [exact HP|].
  apply lookup_lt_Some in Ha. lia.
Qed.

Lemma UpdateNodes_updated nodes :
  valid_postfix nodes = true ->
  exists root0 nodes', nodes !! (length nodes - 1)%nat = Some root0 /\
    UpdateNodes nodes = Some nodes' /\
    updated (arities nodes) (Parent root0) nodes'.
Proof.
  intros Hvalid.
  destruct (valid_postfix_inv _ Hvalid) as (Hn & Hh & Hinv0).
  pose proof (nodes_inv2_start nodes) as Hinv20.
  set (ar := arities nodes) in *.
  assert (Hlen : length ar = length nodes) by (unfold ar, arities; apply length_map).
  rewrite <- Hlen in Hn.
  destruct (UpdateNodes_loop_inv2 ar 1%nat Hn Hh (length ar) 0%nat 0%nat nodes
              ltac:(lia) eq_refl Hinv0 Hinv20) as (c1 & Hc1 & (Hl1 & Har1 & Hlt1) & Hinv21).
  pose proof (UpdateNodes_loop_parents ar 1%nat Hn Hh (length ar) 0%nat 0%nat nodes c1
                ltac:(lia) eq_refl Hinv0 Hc1 (length ar - 1)%nat ltac:(lia)) as Hrp.
  assert (Hpos : (0 < length ar)%nat).
  { destruct ar; [discriminate Hh|simpl; lia]. }
  destruct (lookup_lt_is_Some_2 c1 (length ar - 1)) as [root Hroot]; [lia|].
  destruct (lookup_lt_is_Some_2 nodes (length ar - 1)) as [root0 Hroot0]; [lia|].
  rewrite Hroot, Hroot0 in Hrp. simpl in Hrp. inversion Hrp as [HrootP].
  assert (Hassigned : forall p s, (p < length ar - 1)%nat -> c1 !! p = Some s ->
                        parent_assigned ar p s).
  { intros p s Hp Hs. destruct (Hinv21 p s ltac:(lia) Hs) as [[Hpar|Hpend] _];
      [exact Hpar|].
    destruct Hpend as (m & x & Hm & Hx & Hpx). assert (m = 0%nat) by lia. subst m.
    rewrite span_zero in Hx. inversion Hx. lia. }
  set (c2 := <[(length ar - 1)%nat := set_Level root 1]> c1) in *.
  assert (Forall2 same_but_Level c1 c2) as Hsame2.
  { unfold c2. rewrite <- (list_insert_id c1 _ root Hroot) at 1.
    apply Forall2_insert.
    - clear. induction c1; constructor; [apply same_but_Level_refl|assumption].
    - reflexivity. }
  destruct (UpdateNodes_levels_inv c1) with (k := (length c1 - 1)%nat) (c := c2)
    as (c3 & Hc3 & Hsame3 & Hlev & Hkeep).
  { intros p s Hp Hs. rewrite Hl1 in *. apply parent_assigned_range.
    apply Hassigned; assumption. }
  { lia. }
  { exact Hsame2. }
  { intros; lia. }
  rewrite Hl1 in *.
  exists root0, c3. split; [rewrite <- Hlen; exact Hroot0|]. split.
  { unfold UpdateNodes. rewrite <- Hlen, Hc1. simpl. rewrite Hroot. simpl. exact Hc3. }
  pose proof (Forall2_length _ _ _ Hsame3) as Hl3.
  assert (Hdepth : forall q, depth_at c3 q = depth_at c1 q).
  { intros q. unfold depth_at. destruct (c3 !! q) as [s3|] eqn:Hs3.
    - destruct (Forall2_lookup_r _ _ _ _ _ Hsame3 Hs3) as (s1 & Hs1 & Hss).
      rewrite Hs1. simpl. apply (same_but_Level_fields _ _ Hss).
    - apply lookup_ge_None in Hs3. rewrite (proj2 (lookup_ge_None c1 q)) by lia.
      reflexivity. }
  split; [lia|]. split; [|split].
  - intros p s Hs. destruct (Forall2_lookup_r _ _ _ _ _ Hsame3 Hs) as (s1 & Hs1 & Hss).
    destruct (same_but_Level_fields _ _ Hss) as (HA & HL & HD & HP).
    apply lookup_lt_Some in Hs1 as Hp.
    destruct (Har1 _ _ Hs1) as (a & Ha & Hsa).
    destruct (Hlt1 p s1 ltac:(lia) Hs1) as [(x & Hx & HsL) _].
    destruct (Hinv21 p s1 ltac:(lia) Hs1) as [_ Hdep].
    split; [exists a; split; congruence|]. split; [exists x; split; congruence|].
    apply (depth_ok_stable ar c1 c3 p s1 s); [intros; apply Hdepth|exact HD|exact Hdep].
  - intros p s Hp Hs. split; [|apply (Hlev p s); [lia|exact Hs]].
    destruct (Forall2_lookup_r _ _ _ _ _ Hsame3 Hs) as (s1 & Hs1 & Hss).
    destruct (same_but_Level_fields _ _ Hss) as (_ & _ & _ & HP).
    destruct (Hassigned p s1 Hp Hs1) as (q & m & Hc & HPq).
    exists q, m. split; [exact Hc|congruence].
  - exists (set_Level root 1). split; [|split; [reflexivity|simpl; congruence]].
    rewrite Hkeep by lia. unfold c2. apply list_lookup_insert_eq. lia.
Qed.

Lemma updated_ChildIndices ar rp c :
  Z.of_nat (length ar) <= 65536 ->
  postfix_height 0 ar = Some 1%nat ->
  updated ar rp c ->
  forall i s, c !! i = Some s ->
    exists a cs, ar !! i = Some a /\ Arity s = Z.of_nat a /\
      ChildIndices c i = Some cs /\ child_positions ar i a = Some cs /\
      forall p, p ∈ cs -> (p < i)%nat /\ exists m, is_child ar i m p.
Proof.
  intros Hn Hh (Hlen & Hall & _ & _) i s Hs.
  destruct (Hall i s Hs) as ((a & Ha & Hsa) & _ & _).
  apply lookup_lt_Some in Ha as Hi.
  destruct (postfix_height_prefix ar 1%nat i Hh) as [h Hhi].
  destruct (postfix_height_prefix ar 1%nat (S i) Hh) as [h' Hhi'].
  destruct (postfix_height_snoc _ _ _ _ _ Ha Hhi Hhi') as [Hah _].
  destruct (Children_walk_positions ar i h c Hn Hi Hlen Hhi
              ltac:(intros p t _ Ht; apply (Hall _ _ Ht)) a 0%nat 0%nat []
              ltac:(lia) (span_zero _) eq_refl) as (cs & Hcs & Hpos).
  simpl in Hpos.
  exists a, cs. split; [exact Ha|]. split; [exact Hsa|]. split; [|split; [exact Hpos|]].
  - unfold ChildIndices. rewrite Hs. simpl. unfold IsLeaf.
    destruct (Z.eqb_spec (Arity s) 0) as [Hz|Hnz].
    + assert (a = 0%nat) by lia. subst a. simpl in Hcs. exact Hcs.
    + rewrite Hsa, Nat2Z.id.
      replace (Z.of_nat i - 1 - Z.of_nat 0) with (Z.of_nat i - 1) in Hcs by lia.
      exact Hcs.
  - intros p Hp. destruct (child_positions_elem _ _ _ _ _ Hpos Hp) as (m & x & Hm & Hx & ->).
    destruct (span_complete _ _ Hhi (m + 1)%nat ltac:(lia)) as [y Hy].
    destruct (span_next ar i m x y ltac:(lia) Hx Hy) as (Hxy & Hyi & _).
    split; [lia|]. exists m, a, x. split; [exact Ha|]. split; [exact Hm|].
    split; [exact Hx|lia].
Qed.

Lemma valid_postfix_heights nodes :
  valid_postfix nodes = true ->
  Z.of_nat (length (arities nodes)) <= 65536 /\
  postfix_height 0 (arities nodes) = Some 1%nat.
Proof.
  intros Hvalid. destruct (valid_postfix_inv _ Hvalid) as (Hn & Hh & _).
  split; [|exact Hh]. unfold arities. rewrite length_map. exact Hn.
Qed.

(** X11.  After [UpdateNodes] the [Depth] of a leaf is 1 and the [Depth] of
    any other node is one more, in 16 bits, than the largest of 1 and the
    [Depth]s of its children. *)
Theorem UpdateNodes_Depth_over_children (nodes : list Node) :
  valid_postfix nodes = true ->
  exists nodes', UpdateNodes nodes = Some nodes' /\
    forall i s, nodes' !! i = Some s ->
      exists cs, ChildIndices nodes' i = Some cs /\
        Depth s = if IsLeaf s then 1 else uint16 (max_child_depth nodes' cs + 1).
Proof.
  intros Hvalid. destruct (valid_postfix_heights _ Hvalid) as [Hn Hh].
  destruct (UpdateNodes_updated nodes Hvalid) as (root0 & c & _ & Hc & Hup).
  exists c. split; [exact Hc|]. intros i s Hs.
  destruct (updated_ChildIndices _ _ _ Hn Hh Hup i s Hs)
    as (a & cs & Ha & Hsa & Hci & Hpos & _).
  exists cs. split; [exact Hci|].
  destruct Hup as (_ & Hall & _). destruct (Hall i s Hs) as (_ & _ & (a' & cs' & Ha' & Hcs' & HD)).
  rewrite Ha in Ha'. inversion Ha'; subst a'. rewrite Hpos in Hcs'. inversion Hcs'; subst cs'.
  rewrite HD. unfold IsLeaf. rewrite Hsa.
  destruct (Nat.eqb_spec a 0) as [->|Hnz]; [reflexivity|].
  destruct (Z.eqb_spec (Z.of_nat a) 0); [lia|reflexivity].
Qed.

(** X12.  After [UpdateNodes] the [Parent] of every child of a node is that node,
    every node but the root is a child of the node its [Parent] names, which
    comes later in the array, and the [Parent] of the root is left as it was. *)
Theorem UpdateNodes_Parent_of_children (nodes : list Node) :
  valid_postfix nodes = true ->
  exists nodes', UpdateNodes nodes = Some nodes' /\
    (forall q cs p, ChildIndices nodes' q = Some cs -> p ∈ cs ->
       exists s, nodes' !! p = Some s /\ Parent s = Z.of_nat q /\ (p < q)%nat) /\
    (forall p s, (p < length nodes - 1)%nat -> nodes' !! p = Some s ->
       exists q cs, Parent s = Z.of_nat q /\ (p < q < length nodes)%nat /\
         ChildIndices nodes' q = Some cs /\ p ∈ cs) /\
    (Parent <$> last nodes' = Parent <$> last nodes).
Proof.
  intros Hvalid. destruct (valid_postfix_heights _ Hvalid) as [Hn Hh].
  destruct (UpdateNodes_updated nodes Hvalid) as (root0 & c & Hroot0 & Hc & Hup).
  set (ar := arities nodes) in *.
  assert (Hlen : length ar = length nodes) by (unfold ar, arities; apply length_map).
  exists c. split; [exact Hc|].
  pose proof Hup as (Hl & Hall & Hpar & (root & Hroot & _ & HrootP)).
  split; [|split].
  - intros q cs p Hq Hp.
    destruct (c !! q) as [sq|] eqn:Hsq; [|unfold ChildIndices in Hq; rewrite Hsq in Hq;
                                           discriminate].
    destruct (updated_ChildIndices _ _ _ Hn Hh Hup q sq Hsq)
      as (a & cs' & Ha & Hsa & Hci & Hpos & Helem).
    rewrite Hq in Hci. inversion Hci; subst cs'.
    destruct (Helem p Hp) as (Hpq & m & Hchild).
    apply lookup_lt_Some in Hsq as Hql.
    destruct (lookup_lt_is_Some_2 c p ltac:(lia)) as [s Hs].
    exists s. split; [exact Hs|]. split; [|exact Hpq].
    destruct (Hpar p s ltac:(lia) Hs) as [(q' & m' & Hchild' & HP) _].
    rewrite HP. f_equal. eapply is_child_unique; eassumption.
  - intros p s Hp Hs. rewrite <- Hlen in Hp.
    destruct (Hpar p s Hp Hs) as [(q & m & Hchild & HP) _].
    pose proof Hchild as (a & x & Ha & Hm & Hx & Hpx).
    apply lookup_lt_Some in Ha as Hq.
    destruct (lookup_lt_is_Some_2 c q ltac:(lia)) as [sq Hsq].
    destruct (updated_ChildIndices _ _ _ Hn Hh Hup q sq Hsq)
      as (a' & cs & Ha' & _ & Hci & Hpos & _).
    rewrite Ha in Ha'. inversion Ha'; subst a'.
    exists q, cs. split; [exact HP|]. split; [lia|]. split; [exact Hci|].
    replace p with (q - 1 - x)%nat by lia.
    apply (child_positions_mem _ _ _ _ _ _ Hpos Hm Hx).
  - rewrite !last_lookup. rewrite Hl, Hlen.
    replace (Init.Nat.pred (length nodes)) with (length nodes - 1)%nat by lia.
    rewrite <- Hlen at 1. rewrite Hroot, Hroot0. simpl. congruence.
Qed.

(** X13.  After [UpdateNodes] the root has [Level] 1 and every other node has the
    [Level] of its parent plus one: the second loop meets a parent before its
    children. *)
Theorem UpdateNodes_Level_below_parent (nodes : list Node) :
  valid_postfix nodes = true ->
  exists nodes', UpdateNodes nodes = Some nodes' /\
    (exists root, last nodes' = Some root /\ Level root = 1) /\
    (forall p s, (p < length nodes - 1)%nat -> nodes' !! p = Some s ->
       exists q t, Parent s = Z.of_nat q /\ (p < q < length nodes)%nat /\
         nodes' !! q = Some t /\ Level s = uint16 (Level t + 1)).
Proof.
  intros Hvalid.
  destruct (UpdateNodes_updated nodes Hvalid) as (root0 & c & Hroot0 & Hc & Hup).
  set (ar := arities nodes) in *.
  assert (Hlen : length ar = length nodes) by (unfold ar, arities; apply length_map).
  exists c. split; [exact Hc|].
  destruct Hup as (Hl & Hall & Hpar & (root & Hroot & HrootL & _)).
  split.
  - exists root. split; [|exact HrootL]. rewrite last_lookup, Hl.
    replace (Init.Nat.pred (length ar)) with (length ar - 1)%nat by lia. exact Hroot.
  - intros p s Hp Hs. rewrite <- Hlen in Hp.
    destruct (Hpar p s Hp Hs) as [Hassigned (t & Ht & HL)].
    destruct (parent_assigned_range _ _ _ Hassigned) as (q & HP & Hq).
    exists q, t. split; [exact HP|]. split; [lia|]. split; [|exact HL].
    rewrite HP, at_of_nat in Ht by lia. exact Ht.
Qed.

(** *** Running [UpdateNodes] again *)

Lemma Node_eq (s s' : Node) :
  Type_ s' = Type_ s -> Arity s' = Arity s -> Length s' = Length s ->
  Depth s' = Depth s -> Level s' = Level s -> Parent s' = Parent s ->
  HashValue s' = HashValue s -> CalculatedHashValue s' = CalculatedHashValue s ->
  Value s' = Value s -> IsEnabled s' = IsEnabled s -> Optimize s' = Optimize s ->
  s' = s.
Proof. destruct s, s'. simpl. intros. subst. reflexivity. Qed.

Lemma updated_unique ar rp c c' :
  postfix_height 0 ar = Some 1%nat ->
  updated ar rp c -> updated ar rp c' -> Forall2 same_payload c c' -> c' = c.
Proof.
  intros Hh (Hl & Hall & Hpar & (root & Hroot & HrootL & HrootP))
         (Hl' & Hall' & Hpar' & (root' & Hroot' & HrootL' & HrootP')) Hpay.
  assert (Hleaf0 : forall a, ar !! 0%nat = Some a -> a = 0%nat).
  { intros a Ha. destruct (postfix_height_prefix ar 1%nat 1 Hh) as [h' Hh'].
    destruct (postfix_height_snoc ar 0 a 0 h' Ha eq_refl Hh') as [Hle _]. lia. }
  assert (Hdepth : forall p, depth_at c' p = depth_at c p).
  { intros p. induction p as [p IH] using lt_wf_ind.
    unfold depth_at. destruct (c !! p) as [s|] eqn:Hs.
    - destruct (Forall2_lookup_l _ _ _ _ _ Hpay Hs) as (s' & Hs' & _). rewrite Hs'. simpl.
      destruct (Hall p s Hs) as (_ & _ & (a & cs & Ha & Hcs & HD)).
      destruct (Hall' p s' Hs') as (_ & _ & (a' & cs' & Ha' & Hcs' & HD')).
      rewrite Ha in Ha'. inversion Ha'; subst a'.
      rewrite Hcs in Hcs'. inversion Hcs'; subst cs'.
      rewrite HD, HD'. destruct (Nat.eqb_spec a 0) as [Hz|Hnz]; [reflexivity|].
      f_equal. f_equal. apply max_child_depth_ext. intros q Hq. apply IH.
      destruct (child_positions_elem _ _ _ _ _ Hcs Hq) as (m & x & _ & _ & ->).
      destruct p as [|p]; [|lia]. specialize (Hleaf0 a Ha). lia.
    - apply lookup_ge_None in Hs. rewrite (proj2 (lookup_ge_None c' p)) by lia.
      reflexivity. }
  assert (Hparent : forall p s s', c !! p = Some s -> c' !! p = Some s' ->
                      Parent s' = Parent s).
  { intros p s s' Hs Hs'. apply lookup_lt_Some in Hs as Hp.
    destruct (decide (p = length ar - 1)%nat) as [->|Hne].
    - rewrite Hroot in Hs. rewrite Hroot' in Hs'. inversion Hs; inversion Hs'; subst.
      congruence.
    - destruct (Hpar p s ltac:(lia) Hs) as [(q & m & Hc & HP) _].
      destruct (Hpar' p s' ltac:(lia) Hs') as [(q' & m' & Hc' & HP') _].
      rewrite HP, HP'. f_equal. eapply is_child_unique; eassumption. }
  assert (Hlevel : forall d p s s', (p + d = length ar - 1)%nat ->
                     c !! p = Some s -> c' !! p = Some s' -> Level s' = Level s).
  { induction d as [d IH] using lt_wf_ind. intros p s s' Hd Hs Hs'.
    destruct (decide (p = length ar - 1)%nat) as [->|Hne].
    - rewrite Hroot in Hs. rewrite Hroot' in Hs'. inversion Hs; inversion Hs'; subst.
      congruence.
    - apply lookup_lt_Some in Hs as Hp.
      destruct (Hpar p s ltac:(lia) Hs) as [Hassigned (t & Ht & HL)].
      destruct (Hpar' p s' ltac:(lia) Hs') as [_ (t' & Ht' & HL')].
      destruct (parent_assigned_range _ _ _ Hassigned) as (q & HP & Hq).
      rewrite (Hparent p s s' Hs Hs') in Ht'. rewrite HP in Ht, Ht'.
      rewrite at_of_nat in Ht, Ht' by lia.
      rewrite HL, HL'. f_equal. f_equal.
      apply (IH (length ar - 1 - q)%nat ltac:(lia) q t t'); [lia|exact Ht|exact Ht']. }
  apply list_eq. intros p. destruct (c !! p) as [s|] eqn:Hs.
  - destruct (Forall2_lookup_l _ _ _ _ _ Hpay Hs) as (s' & Hs' & Hp).
    rewrite Hs'. f_equal. destruct Hp as (H1 & H2 & H3 & H4 & H5 & H6 & H7).
    apply Node_eq; try assumption.
    + destruct (Hall p s Hs) as (_ & (x & Hx & HL) & _).
      destruct (Hall' p s' Hs') as (_ & (x' & Hx' & HL') & _).
      rewrite Hx in Hx'. inversion Hx'; subst. congruence.
    + pose proof (Hdepth p) as HD. unfold depth_at in HD. rewrite Hs, Hs' in HD. exact HD.
    + apply lookup_lt_Some in Hs as Hpl.
      apply (Hlevel (length ar - 1 - p)%nat p s s'); [lia|exact Hs|exact Hs'].
    + apply (Hparent p s s' Hs Hs').
  - apply lookup_ge_None in Hs. apply lookup_ge_None. lia.
Qed.

(** X14.  A second [UpdateNodes] changes nothing: on a valid layout the
    result of [UpdateNodes] is a fixed point of [UpdateNodes]. *)
Theorem UpdateNodes_idempotent (nodes : list Node) :
  valid_postfix nodes = true ->
  exists nodes', UpdateNodes nodes = Some nodes' /\ UpdateNodes nodes' = Some nodes'.
Proof.
  intros Hvalid. destruct (valid_postfix_heights _ Hvalid) as [Hn Hh].
  destruct (UpdateNodes_updated nodes Hvalid) as (root0 & c & Hroot0 & Hc & Hup).
  exists c. split; [exact Hc|].
  pose proof (UpdateNodes_payload _ _ Hc) as Hpay.
  assert (arities c = arities nodes) as Har.
  { clear - Hpay. induction Hpay as [|s s' l l' Hs _ IH]; [reflexivity|].
    unfold arities in *. simpl. rewrite IH. destruct Hs as (_ & -> & _). reflexivity. }
  assert (valid_postfix c = true) as Hvalid'.
  { unfold valid_postfix in *. rewrite Har.
    apply andb_prop in Hvalid as [Hv Hv3]. apply andb_prop in Hv as [Hv1 Hv2].
    rewrite Hv3, andb_true_r. rewrite <- (Forall2_length _ _ _ Hpay), Hv2, andb_true_r.
    clear - Hpay Hv1. induction Hpay as [|s s' l l' Hs _ IH]; [reflexivity|].
    simpl in *. apply andb_prop in Hv1 as [Hs1 Hl]. rewrite (IH Hl), andb_true_r.
    unfold node_wf in *. destruct Hs as (_ & -> & _). exact Hs1. }
  destruct (UpdateNodes_updated c Hvalid') as (root1 & c' & Hroot1 & Hc' & Hup').
  rewrite Har in Hup'.
  assert (Parent root1 = Parent root0) as HrP.
  { destruct Hup as (Hl & _ & _ & (root & Hroot & _ & HrootP)).
    rewrite Hl in Hroot1. unfold arities in Hroot1. rewrite length_map in Hroot1.
    unfold arities in Hroot. rewrite length_map in Hroot.
    rewrite Hroot in Hroot1. inversion Hroot1; subst. exact HrootP. }
  rewrite HrP in Hup'.
  rewrite Hc'. f_equal.
  apply (updated_unique (arities nodes) (Parent root0) c c' Hh Hup Hup').
  apply (UpdateNodes_payload _ _ Hc').
Qed.

(** ** Variable names and values *)

Section VariableNamesFacts.

Variable XXHash : string -> Z.

Lemma SetVariableNames_loop_spec (names : list string) (vs : list DatasetVariable) :
  forall n, (n <= length names)%nat -> (n <= length vs)%nat ->
    let r := foldl (fun vs i =>
                      match names !! i with
                      | Some nm => <[i := mkVariable nm (XXHash nm) i]> vs
                      | None => vs
                      end) vs (seq 0 n) in
    length r = length vs /\
    (forall i nm, (i < n)%nat -> names !! i = Some nm ->
       r !! i = Some (mkVariable nm (XXHash nm) i)) /\
    (forall i, (n <= i)%nat -> r !! i = vs !! i).
Proof.
  induction n as [|n IH]; intros Hn Hv.
  - simpl. split; [reflexivity|]. split; [intros; lia|reflexivity].
  - cbv zeta. rewrite seq_S, foldl_app. simpl.
    destruct (IH ltac:(lia) ltac:(lia)) as (Hl & Hlt & Hge). cbv zeta in Hl, Hlt, Hge.
    set (r := foldl _ vs (seq 0 n)) in *.
    destruct (lookup_lt_is_Some_2 names n ltac:(lia)) as [nm Hnm]. rewrite Hnm.
    split; [rewrite length_insert; exact Hl|]. split.
    + intros i nm' Hi Hnm'. destruct (decide (i = n)) as [->|Hne].
      * rewrite Hnm in Hnm'. inversion Hnm'; subst.
        apply list_lookup_insert_eq. lia.
      * rewrite list_lookup_insert_ne by lia. apply Hlt; [lia|exact Hnm'].
    + intros i Hi. rewrite list_lookup_insert_ne by lia. apply Hge. lia.
Qed.

Lemma SetVariableNames_variables names d d' :
  SetVariableNames XXHash names d = (inr tt, d') ->
  length (variables d) = length (columns (Values d)) ->
  exists r, variables d' = sort_by hash_less r /\ Values d' = Values d /\
    length r = length names /\
    forall i nm, names !! i = Some nm -> r !! i = Some (mkVariable nm (XXHash nm) i).
Proof.
  unfold SetVariableNames, throw.
  destruct (Nat.eqb_spec (length names) (length (columns (Values d)))) as [Hlen|];
    [|discriminate].
  simpl negb. cbv iota.
  destruct (Nat.leb_spec (length (columns (Values d))) (length (variables d))) as [Hle|];
    [|discriminate].
  simpl negb. cbv iota. intros [= <-] Hv.
  destruct (SetVariableNames_loop_spec names (variables d) (length (columns (Values d))))
    as (Hl & Hlt & _); [lia|lia|].
  cbv zeta in Hl, Hlt. eexists. split; [reflexivity|]. split; [reflexivity|].
  split; [rewrite Hl; lia|].
  intros i nm Hnm. apply Hlt; [|exact Hnm]. apply lookup_lt_Some in Hnm. lia.
Qed.

(** X15.  After [SetVariableNames] the dataset lists the given names, in the order
    of their hashes and not in the order of the columns. *)
Theorem VariableNames_after_SetVariableNames (names : list string) (d d' : Dataset) :
  SetVariableNames XXHash names d = (inr tt, d') ->
  length (variables d) = length (columns (Values d)) ->
  VariableNames d' ≡ₚ names /\
  sorted_by hash_less (variables d') = true.
Proof.
  intros HS Hv. destruct (SetVariableNames_variables names d d' HS Hv)
    as (r & Hr & _ & Hl & Hlk).
  split; [|rewrite Hr; apply sort_by_hash_less_sorted].
  unfold VariableNames. rewrite Hr.
  rewrite (Permutation_map Name (sort_by_Permutation hash_less r)).
  replace (map Name r) with names; [reflexivity|].
  apply list_eq. intros i. change (map Name r) with (Name <$> r).
  rewrite list_lookup_fmap. destruct (names !! i) as [nm|] eqn:Hnm.
  - rewrite (Hlk i nm Hnm). reflexivity.
  - apply lookup_ge_None in Hnm. rewrite (proj2 (lookup_ge_None r i)) by lia. reflexivity.
Qed.

(** X16.  With names whose hashes differ, [SetVariableNames] binds the i-th name to
    column i: looking the name up gives the variable with that index, and the
    values by name are the values of column i. *)
Theorem SetVariableNames_binds_columns (names : list string) (d d' : Dataset)
  (i : nat) (nm : string) :
  SetVariableNames XXHash names d = (inr tt, d') ->
  length (variables d) = length (columns (Values d)) ->
  NoDup (map XXHash names) ->
  names !! i = Some nm ->
  GetVariable XXHash d' nm = Some (mkVariable nm (XXHash nm) i) /\
  exists col, columns (Values d) !! i = Some col /\
    GetValues XXHash d' nm = Ok col /\
    GetValues_index d' (Z.of_nat i) = Ok col.
Proof.
  intros HS Hv Hnd Hnm.
  destruct (SetVariableNames_variables names d d' HS Hv) as (r & Hr & HV & Hl & Hlk).
  assert (sorted_by hash_less (variables d') = true) as Hsorted
    by (rewrite Hr; apply sort_by_hash_less_sorted).
  assert (forall v, In v (variables d') -> Hash v = XXHash nm ->
            v = mkVariable nm (XXHash nm) i) as Huniq.
  { intros v Hin Hh. rewrite Hr in Hin.
    apply (Permutation_in _ (sort_by_Permutation hash_less r)) in Hin.
    apply list_elem_of_In, list_elem_of_lookup in Hin as [j Hj].
    apply lookup_lt_Some in Hj as Hjl.
    destruct (lookup_lt_is_Some_2 names j ltac:(lia)) as [nm' Hnm'].
    rewrite (Hlk j nm' Hnm') in Hj. inversion Hj; subst v. simpl in Hh.
    assert (j = i) as ->.
    { apply (NoDup_lookup _ _ _ (XXHash nm) Hnd).
      - change (map XXHash names) with (XXHash <$> names).
        rewrite list_lookup_fmap, Hnm'. simpl. congruence.
      - change (map XXHash names) with (XXHash <$> names).
        rewrite list_lookup_fmap, Hnm. reflexivity. }
    rewrite Hnm in Hnm'. inversion Hnm'; subst. reflexivity. }
  assert (In (mkVariable nm (XXHash nm) i) (variables d')) as Hin.
  { rewrite Hr. apply (Permutation_in _ (Permutation_sym (sort_by_Permutation _ r))).
    apply list_elem_of_In, list_elem_of_lookup. exists i. apply Hlk, Hnm. }
  destruct (GetVariable_hash_found d' (XXHash nm) Hsorted) as [v Hv'].
  { eexists. split; [exact Hin|reflexivity]. }
  pose proof (GetVariable_hash_Some _ _ _ Hv') as [Hvin Hvh].
  rewrite (Huniq v Hvin Hvh) in Hv'.
  split; [exact Hv'|].
  assert (i < length (columns (Values d)))%nat as Hi.
  { apply lookup_lt_Some in Hnm. unfold SetVariableNames, throw in HS.
    destruct (Nat.eqb_spec (length names) (length (columns (Values d)))) as [Hlen|];
      [lia|discriminate]. }
  destruct (lookup_lt_is_Some_2 _ i Hi) as [col Hcol]. exists col.
  split; [exact Hcol|]. split.
  - unfold GetValues, GetValues_hash. unfold GetVariable_hash in Hv'.
    destruct (variables d' !! _) as [w|]; [|discriminate].
    destruct (Hash w =? XXHash nm); [|discriminate]. inversion Hv'; subst w.
    cbn [Index]. rewrite HV, Hcol. reflexivity.
  - unfold GetValues_index. rewrite HV, at_of_nat by exact Hi.
    rewrite Hcol. reflexivity.
Qed.

End VariableNamesFacts.

(** ** [Normalize], [Standardize] and [Shuffle] on owned data *)

Lemma scalar_min_le a b : (scalar_min a b <= a)%Q /\ (scalar_min a b <= b)%Q.
Proof.
  unfold scalar_min. destruct (scalar_lt b a) eqn:E.
  - apply scalar_lt_true in E. split; [apply Qlt_le_weak; exact E|apply Qle_refl].
  - apply scalar_lt_false in E. split; [apply Qle_refl|exact E].
Qed.

Lemma foldl_scalar_min_spec r : forall x,
  (foldl scalar_min x r <= x)%Q /\
  (forall y, y ∈ r -> (foldl scalar_min x r <= y)%Q) /\
  foldl scalar_min x r ∈ x :: r.
Proof.
  induction r as [|z r IH]; intros x; simpl.
  - split; [apply Qle_refl|]. split; [intros y Hy; inversion Hy|left].
  - destruct (IH (scalar_min x z)) as (H1 & H2 & H3).
    destruct (scalar_min_le x z) as [Hx Hz].
    split; [eapply Qle_trans; eassumption|]. split.
    + intros y Hy. apply elem_of_cons in Hy as [->|Hy];
        [eapply Qle_trans; eassumption|apply H2; exact Hy].
    + apply elem_of_cons in H3 as [H3|H3]; [|right; right; exact H3].
      rewrite H3. unfold scalar_min. destruct (scalar_lt z x); [right; left|left].
Qed.

Lemma foldl_scalar_max_spec r : forall x,
  (x <= foldl scalar_max x r)%Q /\
  (forall y, y ∈ r -> (y <= foldl scalar_max x r)%Q) /\
  foldl scalar_max x r ∈ x :: r.
Proof.
  induction r as [|z r IH]; intros x; simpl.
  - split; [apply Qle_refl|]. split; [intros y Hy; inversion Hy|left].
  - destruct (IH (scalar_max x z)) as (H1 & H2 & H3).
    destruct (scalar_max_ge x z) as [Hx Hz].
    split; [eapply Qle_trans; eassumption|]. split.
    + intros y Hy. apply elem_of_cons in Hy as [->|Hy];
        [eapply Qle_trans; eassumption|apply H2; exact Hy].
    + apply elem_of_cons in H3 as [H3|H3]; [|right; right; exact H3].
      rewrite H3. unfold scalar_max. destruct (scalar_lt x z); [right; left|left].
Qed.

Lemma minCoeff_spec seg m :
  minCoeff seg = Some m -> m ∈ seg /\ forall y, y ∈ seg -> (m <= y)%Q.
Proof.
  destruct seg as [|x r]; [discriminate|]. intros [= <-].
  destruct (foldl_scalar_min_spec r x) as (H1 & H2 & H3). split; [exact H3|].
  intros y Hy. apply elem_of_cons in Hy as [->|Hy]; [exact H1|apply H2; exact Hy].
Qed.

Lemma maxCoeff_spec seg m :
  maxCoeff seg = Some m -> m ∈ seg /\ forall y, y ∈ seg -> (y <= m)%Q.
Proof.
  destruct seg as [|x r]; [discriminate|]. intros [= <-].
  destruct (foldl_scalar_max_spec r x) as (H1 & H2 & H3). split; [exact H3|].
  intros y Hy. apply elem_of_cons in Hy as [->|Hy]; [exact H1|apply H2; exact Hy].
Qed.

Lemma segment_lookup col start n k :
  (k < n)%nat -> segment col start n !! k = col !! (start + k)%nat.
Proof.
  intros Hk. unfold segment. rewrite lookup_take_lt by exact Hk.
  apply lookup_drop.
Qed.

Lemma segment_elem col start n x :
  x ∈ segment col start n <->
  exists r, (start <= r < start + n)%nat /\ col !! r = Some x.
Proof.
  split.
  - intros Hx. apply list_elem_of_lookup in Hx as [k Hk].
    assert (k < n)%nat as Hkn.
    { apply lookup_lt_Some in Hk. unfold segment in Hk. rewrite length_take in Hk. lia. }
    rewrite segment_lookup in Hk by exact Hkn. exists (start + k)%nat. split; [lia|exact Hk].
  - intros (r & Hr & Hx). apply list_elem_of_lookup. exists (r - start)%nat.
    rewrite segment_lookup by lia. replace (start + (r - start))%nat with r by lia.
    exact Hx.
Qed.

(** What a call of [Normalize] that returned has done: the rows of the range
    lie in [0, 1] and reach both ends, the other columns and the variables
    are as before. *)
Lemma Normalize_returned (i : nat) (range : Range) (d d' : Dataset) :
  Normalize i range d = (inr tt, d') ->
  variables d' = variables d /\
  exists col col',
    columns (values d) !! i = Some col /\
    columns (values d') = <[i := col']> (columns (values d)) /\
    length col' = length col /\
    (forall r x, (Start range <= r < Start range + Size range)%nat ->
       col' !! r = Some x -> (0 <= x <= 1)%Q) /\
    (exists r, (Start range <= r < Start range + Size range)%nat /\
       col' !! r = Some 0%Q) /\
    (exists r, (Start range <= r < Start range + Size range)%nat /\
       col' !! r = Some 1%Q).
Proof.
  unfold Normalize, throw. destruct (IsView d); [discriminate|].
  destruct (negb _); [discriminate|].
  destruct (columns (values d) !! i) as [col|] eqn:Hcol; [|discriminate].
  destruct (minCoeff _) as [min|] eqn:Hmin; [|discriminate].
  destruct (maxCoeff _) as [max|] eqn:Hmax; [|discriminate].
  destruct (scalar_is_zero (scalar_sub max min)) eqn:Hz; [discriminate|].
  intros [= <-]. split; [reflexivity|].
  apply minCoeff_spec in Hmin as [Hmin_in Hmin_le].
  apply maxCoeff_spec in Hmax as [Hmax_in Hmax_ge].
  assert (0 < max - min)%Q as Hpos.
  { pose proof (Hmin_le max Hmax_in) as Hle.
    unfold scalar_is_zero in Hz. destruct (Qeq_dec (max - min) 0) as [He|Hne].
    - exfalso. assert (Qeq_bool (scalar_sub max min) 0 = true) as Ht.
      { apply Qeq_bool_iff. unfold scalar_sub. rewrite Qred_correct. exact He. }
      congruence.
    - unfold Scalar in *. lra. }
  set (f := fun x : Scalar => scalar_div (scalar_sub x min) (scalar_sub max min)).
  exists col, (map f col). split; [reflexivity|]. split; [reflexivity|].
  split; [apply length_map|].
  assert (forall x, (f x == (x - min) / (max - min))%Q) as Hf.
  { intros x. unfold f, scalar_div, scalar_sub. rewrite !Qred_correct. reflexivity. }
  assert (forall r x', col !! r = Some x' -> map f col !! r = Some (f x')) as Hmap.
  { intros r x' Hr. change (map f col) with (f <$> col).
    rewrite list_lookup_fmap, Hr. reflexivity. }
  split; [|split].
  - intros r x Hr Hx. change (map f col) with (f <$> col) in Hx.
    rewrite list_lookup_fmap in Hx. destruct (col !! r) as [x0|] eqn:Hx0; [|discriminate].
    inversion Hx; subst x. rewrite Hf.
    assert (x0 ∈ segment col (Start range) (Size range)) as Hin
      by (apply segment_elem; eauto).
    pose proof (Hmin_le _ Hin) as H1. pose proof (Hmax_ge _ Hin) as H2.
    split.
    + apply Qle_shift_div_l; [exact Hpos|]. unfold Scalar in *. lra.
    + apply Qle_shift_div_r; [exact Hpos|]. unfold Scalar in *. lra.
  - apply segment_elem in Hmin_in as (r & Hr & Hx). exists r. split; [exact Hr|].
    etrans; [exact (Hmap r min Hx)|]. f_equal. unfold f, scalar_div, scalar_sub.
    transitivity (Qred 0); [|reflexivity].
    apply Qred_complete. rewrite !Qred_correct. unfold Scalar in *. field. lra.
  - apply segment_elem in Hmax_in as (r & Hr & Hx). exists r. split; [exact Hr|].
    etrans; [exact (Hmap r max Hx)|]. f_equal. unfold f, scalar_div, scalar_sub.
    transitivity (Qred 1); [|reflexivity].
    apply Qred_complete. rewrite !Qred_correct. unfold Scalar in *. field. lra.
Qed.

Lemma Qsum_map_centre (seg : list Scalar) (m s : Scalar) :
  ~ (s == 0)%Q ->
  (Qsum (map (fun x => scalar_div (scalar_sub x m) s) seg)
   == (Qsum seg - Qlen seg * m) / s)%Q.
Proof.
  intros Hs. induction seg as [|x seg IH].
  - unfold Qlen, Scalar in *. simpl. field. exact Hs.
  - simpl map. simpl Qsum. rewrite IH, Qlen_cons. unfold scalar_div, scalar_sub.
    rewrite !Qred_correct. unfold Scalar in *. field. exact Hs.
Qed.

(** What a call of [Standardize] that returned has done: the rows of the
    range sum to zero, whatever the divisor was. *)
Lemma Standardize_returned (i : nat) (range : Range) (d d' : Dataset) :
  Standardize i range d = (inr tt, d') ->
  variables d' = variables d /\
  exists col col',
    columns (values d) !! i = Some col /\
    columns (values d') = <[i := col']> (columns (values d)) /\
    length col' = length col /\
    (Qsum (segment col' (Start range) (Size range)) == 0)%Q.
Proof.
  unfold Standardize, throw. destruct (IsView d); [discriminate|].
  destruct (negb _); [discriminate|].
  destruct (columns (values d) !! i) as [col|] eqn:Hcol; [|discriminate].
  destruct (accumulate _) as [stats|] eqn:Hacc; [|discriminate].
  destruct (scalar_is_zero _) eqn:Hz; [discriminate|].
  intros [= <-]. split; [reflexivity|].
  set (s := scalar_mul (variance stats) (variance stats)) in *.
  set (g := fun x : Scalar => scalar_div (scalar_sub x (mean stats)) s).
  exists col, (map g col). split; [reflexivity|]. split; [reflexivity|].
  split; [apply length_map|].
  set (seg := segment col (Start range) (Size range)) in *.
  assert (segment (map g col) (Start range) (Size range) = map g seg) as ->.
  { unfold seg, segment. change (map g ?l) with (g <$> l).
    rewrite fmap_take, fmap_drop. reflexivity. }
  assert (~ (s == 0)%Q) as Hs.
  { intros H0. unfold scalar_is_zero in Hz.
    rewrite (proj2 (Qeq_bool_iff _ _) H0) in Hz. discriminate. }
  unfold g. rewrite (Qsum_map_centre seg (mean stats) s Hs).
  unfold accumulate in Hacc. destruct seg as [|x0 seg0] eqn:Eseg; [discriminate|].
  rewrite <- Eseg in *.
  assert (mean stats = scalar_div (sum_scalars seg) (Qlen seg)) as ->
    by (inversion Hacc; reflexivity).
  assert (0 < Qlen seg)%Q as Hlen by (apply Qlen_pos; rewrite Eseg; discriminate).
  clear - Hs Hlen. clearbody s.
  unfold scalar_div, sum_scalars. rewrite Qred_correct, foldl_scalar_add.
  unfold Scalar in *. field. split; [lra|exact Hs].
Qed.

(** A range in which the column takes two different values is not empty, and
    its largest value lies above its smallest. *)
Lemma minCoeff_below_maxCoeff (col : list Scalar) (start n r1 r2 : nat)
  (x1 x2 : Scalar) :
  (start <= r1 < start + n)%nat -> (start <= r2 < start + n)%nat ->
  col !! r1 = Some x1 -> col !! r2 = Some x2 -> ~ (x1 == x2)%Q ->
  exists min max,
    minCoeff (segment col start n) = Some min /\
    maxCoeff (segment col start n) = Some max /\
    (min < max)%Q.
Proof.
  intros Hr1 Hr2 H1 H2 Hne.
  assert (x1 ∈ segment col start n) as Hin1 by (apply segment_elem; eauto).
  assert (x2 ∈ segment col start n) as Hin2 by (apply segment_elem; eauto).
  destruct (segment col start n) as [|x r] eqn:Hseg; [inversion Hin1|].
  rewrite <- Hseg in *.
  assert (minCoeff (segment col start n) = Some (foldl scalar_min x r)) as Hmin
    by (rewrite Hseg; reflexivity).
  assert (maxCoeff (segment col start n) = Some (foldl scalar_max x r)) as Hmax
    by (rewrite Hseg; reflexivity).
  exists (foldl scalar_min x r), (foldl scalar_max x r).
  split; [exact Hmin|]. split; [exact Hmax|].
  destruct (minCoeff_spec _ _ Hmin) as [_ Hle].
  destruct (maxCoeff_spec _ _ Hmax) as [_ Hge].
  pose proof (Hle _ Hin1). pose proof (Hle _ Hin2).
  pose proof (Hge _ Hin1). pose proof (Hge _ Hin2).
  clear - H H0 H3 H4 Hne.
  set (a := foldl scalar_min x r) in *. set (b := foldl scalar_max x r) in *.
  clearbody a b. unfold Scalar in *.
  destruct (Qlt_le_dec a b) as [Hlt|Hba]; [exact Hlt|].
  exfalso. apply Hne. lra.
Qed.

Lemma Normalize_not_constant (i : nat) (range : Range) (d : Dataset)
  (col : list Scalar) (r1 r2 : nat) (x1 x2 : Scalar) :
  IsView d = false ->
  (Start range + Size range <= rows (values d))%nat ->
  columns (values d) !! i = Some col ->
  (Start range <= r1 < Start range + Size range)%nat ->
  (Start range <= r2 < Start range + Size range)%nat ->
  col !! r1 = Some x1 -> col !! r2 = Some x2 -> ~ (x1 == x2)%Q ->
  exists d', Normalize i range d = (inr tt, d').
Proof.
  intros Hview Hrange Hcol Hr1 Hr2 H1 H2 Hne.
  destruct (minCoeff_below_maxCoeff col _ _ r1 r2 x1 x2 Hr1 Hr2 H1 H2 Hne)
    as (min & max & Hmin & Hmax & Hlt).
  unfold Normalize. rewrite Hview, (proj2 (Nat.leb_le _ _) Hrange), Hcol.
  cbn [negb]. rewrite Hmin, Hmax.
  assert (scalar_is_zero (scalar_sub max min) = false) as ->.
  { unfold scalar_is_zero. destruct (Qeq_bool _ _) eqn:He; [|reflexivity].
    apply Qeq_bool_iff in He. unfold scalar_sub in He. rewrite Qred_correct in He.
    unfold Scalar in *. lra. }
  eexists. reflexivity.
Qed.

Lemma Qsquare_nonneg (a : Q) : (0 <= a * a)%Q.
Proof.
  destruct (Qlt_le_dec a 0) as [Hn|Hp].
  - assert (a * a == (-a) * (-a))%Q as -> by ring.
    apply Qmult_le_0_compat; lra.
  - apply Qmult_le_0_compat; lra.
Qed.

Lemma Qsquare_pos (a : Q) : ~ (a == 0)%Q -> (0 < a * a)%Q.
Proof.
  intros Hne. destruct (Qlt_le_dec a 0) as [Hn|Hp].
  - assert (a * a == (-a) * (-a))%Q as -> by ring.
    apply Qmult_lt_0_compat; lra.
  - assert (0 < a)%Q as Hpos.
    { destruct (Qlt_le_dec 0 a) as [Hlt|Hle]; [exact Hlt|].
      exfalso. apply Hne. lra. }
    apply Qmult_lt_0_compat; exact Hpos.
Qed.

(** The sum of squares is at least each of its terms. *)
Lemma Qsum_squares_ge (m : Scalar) (seg : list Scalar) (x : Scalar) :
  x ∈ seg ->
  ((x - m) * (x - m)
   <= Qsum (map (fun y => scalar_mul (scalar_sub y m) (scalar_sub y m)) seg))%Q.
Proof.
  induction seg as [|y seg IH]; intros Hin; [inversion Hin|].
  assert (forall l, 0 <= Qsum (map (fun y => scalar_mul (scalar_sub y m)
                                                (scalar_sub y m)) l))%Q as Hnn.
  { intros l. apply Qsum_nonneg. apply Forall_forall. intros z Hz.
    apply list_elem_of_In, in_map_iff in Hz as (w & <- & _).
    unfold scalar_mul, scalar_sub. rewrite !Qred_correct.
    apply Qsquare_nonneg. }
  simpl map. simpl Qsum. apply elem_of_cons in Hin as [->|Hin].
  - specialize (Hnn seg). unfold scalar_mul at 1, scalar_sub at 1 2.
    rewrite !Qred_correct. unfold Scalar in *. lra.
  - specialize (IH Hin).
    assert (0 <= scalar_mul (scalar_sub y m) (scalar_sub y m))%Q as Hy.
    { unfold scalar_mul, scalar_sub. rewrite !Qred_correct. apply Qsquare_nonneg. }
    unfold Scalar in *. lra.
Qed.

Lemma accumulate_variance_pos (seg : list Scalar) (x1 x2 : Scalar) :
  x1 ∈ seg -> x2 ∈ seg -> ~ (x1 == x2)%Q ->
  exists stats, accumulate seg = Some stats /\ (0 < variance stats)%Q.
Proof.
  intros Hin1 Hin2 Hne. destruct seg as [|x r]; [inversion Hin1|].
  cbn [accumulate]. set (seg := x :: r) in *.
  eexists. split; [reflexivity|]. cbn [variance].
  change (inject_Z (Z.of_nat (length seg))) with (Qlen seg).
  set (m := scalar_div (sum_scalars seg) _).
  assert (0 < Qlen seg)%Q as Hlen by (apply Qlen_pos; discriminate).
  unfold scalar_div at 1. rewrite Qred_correct. unfold sum_scalars at 1.
  rewrite foldl_scalar_add.
  pose proof (Qsum_squares_ge m seg x1 Hin1) as G1.
  pose proof (Qsum_squares_ge m seg x2 Hin2) as G2.
  set (S := Qsum _) in *. clearbody S m.
  apply Qlt_shift_div_l; [exact Hlen|].
  assert (0 < (x1 - m) * (x1 - m) \/ 0 < (x2 - m) * (x2 - m))%Q as [Hp|Hp].
  { destruct (Qeq_dec x1 m) as [E1|N1].
    - right. apply Qsquare_pos. intros E2. apply Hne. unfold Scalar in *. lra.
    - left. apply Qsquare_pos. intros E2. apply N1. unfold Scalar in *. lra. }
  - unfold Scalar in *. lra.
  - unfold Scalar in *. lra.
Qed.

Lemma Standardize_not_constant (i : nat) (range : Range) (d : Dataset)
  (col : list Scalar) (r1 r2 : nat) (x1 x2 : Scalar) :
  IsView d = false ->
  (Start range + Size range <= rows (values d))%nat ->
  columns (values d) !! i = Some col ->
  (Start range <= r1 < Start range + Size range)%nat ->
  (Start range <= r2 < Start range + Size range)%nat ->
  col !! r1 = Some x1 -> col !! r2 = Some x2 -> ~ (x1 == x2)%Q ->
  exists d', Standardize i range d = (inr tt, d').
Proof.
  intros Hview Hrange Hcol Hr1 Hr2 H1 H2 Hne.
  assert (x1 ∈ segment col (Start range) (Size range)) as Hin1
    by (apply segment_elem; eauto).
  assert (x2 ∈ segment col (Start range) (Size range)) as Hin2
    by (apply segment_elem; eauto).
  destruct (accumulate_variance_pos _ x1 x2 Hin1 Hin2 Hne) as (stats & Hacc & Hv).
  unfold Standardize. rewrite Hview, (proj2 (Nat.leb_le _ _) Hrange), Hcol.
  cbn [negb]. rewrite Hacc.
  assert (scalar_is_zero (scalar_mul (variance stats) (variance stats)) = false) as ->.
  { unfold scalar_is_zero. destruct (Qeq_bool _ _) eqn:He; [|reflexivity].
    apply Qeq_bool_iff in He. unfold scalar_mul in He. rewrite Qred_correct in He.
    assert (~ (variance stats == 0)%Q) as Hnz by (unfold Scalar in *; lra).
    pose proof (Qsquare_pos _ Hnz). unfold Scalar in *. lra. }
  eexists. reflexivity.
Qed.

(** X17.  In exact arithmetic: on a dataset that owns its values, for a range
    inside the rows over which column [i] takes two different values,
    [Normalize] returns, maps the rows of the range into [0, 1], reaching
    both ends, and leaves the other columns and the variables alone.  (A
    column that is constant over the range is divided by zero.) *)
Theorem Normalize_range_unit_interval (i : nat) (range : Range) (d : Dataset)
  (col : list Scalar) (r1 r2 : nat) (x1 x2 : Scalar) :
  IsView d = false ->
  (Start range + Size range <= rows (values d))%nat ->
  columns (values d) !! i = Some col ->
  (Start range <= r1 < Start range + Size range)%nat ->
  (Start range <= r2 < Start range + Size range)%nat ->
  col !! r1 = Some x1 -> col !! r2 = Some x2 -> ~ (x1 == x2)%Q ->
  exists d' col',
    Normalize i range d = (inr tt, d') /\
    variables d' = variables d /\
    columns (values d') = <[i := col']> (columns (values d)) /\
    length col' = length col /\
    (forall r x, (Start range <= r < Start range + Size range)%nat ->
       col' !! r = Some x -> (0 <= x <= 1)%Q) /\
    (exists r, (Start range <= r < Start range + Size range)%nat /\
       col' !! r = Some 0%Q) /\
    (exists r, (Start range <= r < Start range + Size range)%nat /\
       col' !! r = Some 1%Q).
Proof.
  intros Hview Hrange Hcol Hr1 Hr2 H1 H2 Hne.
  destruct (Normalize_not_constant i range d col r1 r2 x1 x2
              Hview Hrange Hcol Hr1 Hr2 H1 H2 Hne) as [d' Hd'].
  destruct (Normalize_returned i range d d' Hd')
    as (Hv & col0 & col' & Hc0 & Hcols & Hlen & Hrest).
  rewrite Hcol in Hc0. inversion Hc0; subst col0.
  exists d', col'. repeat (split; [assumption|]). exact Hrest.
Qed.

(** X18.  In exact arithmetic: on a dataset that owns its values, for a range
    inside the rows over which column [i] takes two different values,
    [Standardize] returns and centres the rows of the range: afterwards they
    sum to zero (whatever the divisor), and the other columns and the
    variables are as before. *)
Theorem Standardize_centres_range (i : nat) (range : Range) (d : Dataset)
  (col : list Scalar) (r1 r2 : nat) (x1 x2 : Scalar) :
  IsView d = false ->
  (Start range + Size range <= rows (values d))%nat ->
  columns (values d) !! i = Some col ->
  (Start range <= r1 < Start range + Size range)%nat ->
  (Start range <= r2 < Start range + Size range)%nat ->
  col !! r1 = Some x1 -> col !! r2 = Some x2 -> ~ (x1 == x2)%Q ->
  exists d' col',
    Standardize i range d = (inr tt, d') /\
    variables d' = variables d /\
    columns (values d') = <[i := col']> (columns (values d)) /\
    length col' = length col /\
    (Qsum (segment col' (Start range) (Size range)) == 0)%Q.
Proof.
  intros Hview Hrange Hcol Hr1 Hr2 H1 H2 Hne.
  destruct (Standardize_not_constant i range d col r1 r2 x1 x2
              Hview Hrange Hcol Hr1 Hr2 H1 H2 Hne) as [d' Hd'].
  destruct (Standardize_returned i range d d' Hd')
    as (Hv & col0 & col' & Hc0 & Hcols & Hlen & Hrest).
  rewrite Hcol in Hc0. inversion Hc0; subst col0.
  exists d', col'. repeat (split; [assumption|]). exact Hrest.
Qed.

Lemma lookup_map_seq_total {A : Type} (dft : A) (r : list A) :
  map (fun t => default dft (r !! t)) (seq 0 (length r)) = r.
Proof.
  apply list_eq. intros i. change (map ?f ?l) with (f <$> l).
  rewrite list_lookup_fmap. destruct (r !! i) as [x|] eqn:Hx.
  - apply lookup_lt_Some in Hx as Hi. rewrite lookup_seq_lt by exact Hi.
    simpl. rewrite Hx. reflexivity.
  - apply lookup_ge_None in Hx. rewrite lookup_seq_ge by exact Hx. reflexivity.
Qed.

Lemma permute_rows_loop_spec (indices : list nat) (col : list Scalar) :
  NoDup indices -> length indices = length col ->
  Forall (fun t => (t < length col)%nat) indices ->
  forall n, (n <= length col)%nat ->
    let r := foldl (fun acc i =>
                      match indices !! i, col !! i with
                      | Some t, Some x => <[t := x]> acc
                      | _, _ => acc
                      end) col (seq 0 n) in
    length r = length col /\
    forall i t, (i < n)%nat -> indices !! i = Some t -> r !! t = col !! i.
Proof.
  intros Hnd Hlen Hall. induction n as [|n IH]; intros Hn.
  - simpl. split; [reflexivity|intros; lia].
  - cbv zeta. rewrite seq_S, foldl_app. simpl.
    destruct (IH ltac:(lia)) as (Hl & Hlk). cbv zeta in Hl, Hlk.
    set (r := foldl _ col (seq 0 n)) in *.
    destruct (lookup_lt_is_Some_2 indices n ltac:(lia)) as [t Ht].
    destruct (lookup_lt_is_Some_2 col n ltac:(lia)) as [x Hx].
    rewrite Ht, Hx. split; [rewrite length_insert; exact Hl|].
    assert (t < length col)%nat as Htl.
    { rewrite Forall_forall in Hall. apply Hall. apply list_elem_of_lookup. eauto. }
    intros i t' Hi Ht'. destruct (decide (i = n)) as [->|Hne].
    + rewrite Ht in Ht'. inversion Ht'; subst t'. rewrite Hx.
      apply list_lookup_insert_eq. lia.
    + assert (t <> t') as Hneq.
      { intros <-. apply Hne. apply (NoDup_lookup _ _ _ t Hnd); assumption. }
      rewrite list_lookup_insert_ne by exact Hneq. apply Hlk; [lia|exact Ht'].
Qed.

Lemma permute_rows_spec (indices : list nat) (col : list Scalar) :
  indices ≡ₚ seq 0 (length col) ->
  length (permute_rows indices col) = length col /\
  (forall i t, indices !! i = Some t -> permute_rows indices col !! t = col !! i) /\
  permute_rows indices col ≡ₚ col.
Proof.
  intros Hp.
  assert (NoDup indices) as Hnd by (rewrite Hp; apply NoDup_seq).
  assert (length indices = length col) as Hlen
    by (rewrite Hp, length_seq; reflexivity).
  assert (Forall (fun t => (t < length col)%nat) indices) as Hall.
  { apply Forall_forall. intros t Ht. rewrite Hp in Ht.
    apply elem_of_seq in Ht. lia. }
  destruct (permute_rows_loop_spec indices col Hnd Hlen Hall (length col) ltac:(lia))
    as (Hl & Hlk).
  cbv zeta in Hl, Hlk. fold (permute_rows indices col) in Hl, Hlk.
  split; [exact Hl|]. split.
  - intros i t Hi. apply Hlk; [|exact Hi]. apply lookup_lt_Some in Hi. lia.
  - rewrite <- (lookup_map_seq_total (0%Q : Scalar) (permute_rows indices col)), Hl, <- Hp.
    replace (map (fun t => default (0%Q : Scalar) (permute_rows indices col !! t)) indices)
      with col; [reflexivity|].
    apply list_eq. intros i. change (map ?f ?l) with (f <$> l).
    rewrite list_lookup_fmap. destruct (indices !! i) as [t|] eqn:Ht; simpl.
    + rewrite (Hlk i t) by (try exact Ht; apply lookup_lt_Some in Ht; lia).
      destruct (col !! i) as [x|] eqn:Hx; [reflexivity|].
      apply lookup_ge_None in Hx. apply lookup_lt_Some in Ht. lia.
    + apply lookup_ge_None in Ht. apply lookup_ge_None. lia.
Qed.

(** X19.  With a generator whose shuffle permutes the row indices, [Shuffle] moves
    whole rows: one permutation places the rows of every column, so each
    column keeps its values and the columns stay aligned. *)
Theorem Shuffle_permutes_rows {RG : Type} `{RandomSource RG}
  (random random' : RG) (d d' : Dataset) :
  Shuffle random d = (inr random', d') ->
  fst (shuffle_indices (seq 0 (rows (values d))) random) ≡ₚ seq 0 (rows (values d)) ->
  Forall (fun col => length col = rows (values d)) (columns (values d)) ->
  variables d' = variables d /\
  rows (values d') = rows (values d) /\
  length (columns (values d')) = length (columns (values d)) /\
  exists indices, indices ≡ₚ seq 0 (rows (values d)) /\
    forall j col, columns (values d) !! j = Some col ->
      exists col', columns (values d') !! j = Some col' /\ col' ≡ₚ col /\
        forall i t, indices !! i = Some t -> col' !! t = col !! i.
Proof.
  unfold Shuffle, throw. destruct (IsView d); [discriminate|].
  destruct (shuffle_indices (seq 0 (rows (values d))) random) as [indices g] eqn:Hsh.
  intros [= <- <-] Hp Hcols. cbn [fst] in Hp. cbn [variables values rows columns set_values].
  split; [reflexivity|]. split; [reflexivity|]. split; [apply length_map|].
  exists indices. split; [exact Hp|]. intros j col Hcol.
  exists (permute_rows indices col). split.
  - change (map ?f ?l) with (f <$> l). rewrite list_lookup_fmap, Hcol. reflexivity.
  - assert (length col = rows (values d)) as Hl.
    { rewrite Forall_forall in Hcols. apply Hcols. apply list_elem_of_lookup. eauto. }
    rewrite <- Hl in Hp. destruct (permute_rows_spec indices col Hp) as (_ & Hlk & Hperm).
    split; [exact Hperm|exact Hlk].
Qed.

(** ** The fronts of the hierarchical sorter *)

Lemma Sort_scan_exact pop q1 :
  (q1 < length pop)%nat ->
  forall fuel un kept dominated,
    (length un <= fuel)%nat ->
    Forall (fun i => (i < length pop)%nat) un ->
    Sort_scan fuel pop q1 (un ++ kept) dominated (length kept)
    = Some (kept ++ filter (fun j => incomparable pop q1 j = true) un,
            dominated ++ filter (fun j => incomparable pop q1 j <> true) un).
Proof.
  intros Hq1. destruct (lookup_lt_is_Some_2 pop q1 Hq1) as [x Hx].
  induction fuel as [|fuel IH]; intros un kept dominated Hfuel Hall.
  - destruct un; [|simpl in Hfuel; lia]. simpl.
    rewrite Nat.ltb_irrefl, !app_nil_r. reflexivity.
  - destruct un as [|qj un].
    + cbn [Sort_scan app]. rewrite Nat.ltb_irrefl, !filter_nil, !app_nil_r. reflexivity.
    + cbn [Sort_scan]. rewrite (proj2 (Nat.ltb_lt _ _))
        by (rewrite length_app; simpl; lia).
      apply Forall_cons in Hall as [Hqj Hall].
      destruct (lookup_lt_is_Some_2 pop qj Hqj) as [y Hy].
      cbn [app]. rewrite Hx, Hy. simpl.
      rewrite !filter_cons.
      assert (incomparable pop q1 qj = Dominance_eqb (ParetoCompare x y) None_) as Hinc
        by (unfold incomparable; rewrite Hx, Hy; reflexivity).
      destruct (Dominance_eqb (ParetoCompare x y) None_) eqn:E.
      * rewrite decide_True by exact Hinc. rewrite decide_False by auto.
        rewrite <- app_assoc.
        replace (S (length kept)) with (length (kept ++ [qj]))
          by (rewrite length_app; simpl; lia).
        rewrite IH by (simpl in Hfuel; try lia; assumption).
        rewrite <- app_assoc. reflexivity.
      * rewrite decide_False by congruence. rewrite decide_True by congruence.
        rewrite IH by (simpl in Hfuel; try lia; assumption).
        rewrite <- app_assoc. reflexivity.
Qed.

Lemma ordered_pairs_snoc (R : nat -> nat -> Prop) l x :
  ordered_pairs R l -> (forall i, i ∈ l -> R i x) -> ordered_pairs R (l ++ [x]).
Proof.
  intros Hl Hx a b i j Hab Ha Hb.
  destruct (decide (b < length l)%nat) as [Hbl|Hbl].
  - rewrite lookup_app_l in Ha by lia. rewrite lookup_app_l in Hb by lia.
    exact (Hl a b i j Hab Ha Hb).
  - apply lookup_lt_Some in Hb as Hb'. rewrite length_app in Hb'. simpl in Hb'.
    assert (b = length l) by lia. subst b.
    rewrite lookup_app_l in Ha by lia.
    rewrite lookup_app_r, Nat.sub_diag in Hb by lia. inversion Hb; subst.
    apply Hx. apply list_elem_of_lookup. eauto.
Qed.

Lemma Sort_front_fronts pop :
  forall fuel q front dominated front' dom',
    Forall (fun i => (i < length pop)%nat) q ->
    Sort_front fuel pop q front dominated = Some (front', dom') ->
    ordered_pairs (fun i j => incomparable pop i j = true) front ->
    (forall i j, i ∈ front -> j ∈ q -> incomparable pop i j = true) ->
    ordered_pairs (fun i j => incomparable pop i j = true) front' /\
    (forall i, i ∈ front -> i ∈ front') /\
    (forall j, j ∈ dom' ->
       j ∈ dominated \/ (j ∈ q /\ exists i, i ∈ front' /\ incomparable pop i j = false)).
Proof.
  induction fuel as [|fuel IH]; intros q front dominated front' dom' Hall Hs Hord Hfq.
  - destruct q; [|discriminate]. inversion Hs; subst.
    split; [exact Hord|]. split; [auto|]. intros j Hj. left. exact Hj.
  - destruct q as [|q1 q'].
    + inversion Hs; subst. split; [exact Hord|]. split; [auto|]. intros j Hj. left. exact Hj.
    + cbn [Sort_front] in Hs. apply Forall_cons in Hall as [Hq1 Hall].
      pose proof (Sort_scan_exact pop q1 Hq1 (length q') q' [] dominated
                    ltac:(lia) Hall) as Hscan.
      rewrite app_nil_r in Hscan. simpl length in Hscan. rewrite Hscan in Hs.
      simpl in Hs.
      apply IH in Hs as (Hord' & Hsub & Hdom).
      * split; [exact Hord'|]. split.
        -- intros i Hi. apply Hsub. apply elem_of_app. left. exact Hi.
        -- intros j Hj. destruct (Hdom j Hj) as [Hd|(Hjq & i & Hi & Hij)].
           ++ apply elem_of_app in Hd as [Hd|Hd]; [left; exact Hd|].
              apply list_elem_of_filter in Hd as [Hnd Hjq]. right.
              split; [right; exact Hjq|]. exists q1. split.
              ** apply Hsub. apply elem_of_app. right. left.
              ** apply not_true_is_false. exact Hnd.
           ++ right. apply list_elem_of_filter in Hjq as [_ Hjq].
              split; [right; exact Hjq|]. exists i. split; assumption.
      * apply Forall_forall. intros j Hj. apply list_elem_of_filter in Hj as [_ Hj].
        rewrite Forall_forall in Hall. apply Hall. exact Hj.
      * apply ordered_pairs_snoc; [exact Hord|].
        intros i Hi. apply Hfq; [exact Hi|left].
      * intros i j Hi Hj. apply list_elem_of_filter in Hj as [Hnd Hj].
        apply elem_of_app in Hi as [Hi|Hi].
        -- apply Hfq; [exact Hi|right; exact Hj].
        -- apply list_elem_of_singleton in Hi. subst i. exact Hnd.
Qed.

Lemma Sort_loop_fronts pop :
  forall fuel q fronts fronts',
    Forall (fun i => (i < length pop)%nat) q ->
    Sort_loop fuel pop q fronts = Some fronts' ->
    (forall f, f ∈ fronts -> ordered_pairs (fun i j => incomparable pop i j = true) f) ->
    (forall k k' f f' j, (k < k')%nat -> fronts !! k = Some f -> fronts !! k' = Some f' ->
       j ∈ f' -> exists i, i ∈ f /\ incomparable pop i j = false) ->
    (forall f j, f ∈ fronts -> j ∈ q -> exists i, i ∈ f /\ incomparable pop i j = false) ->
    (forall f, f ∈ fronts' -> ordered_pairs (fun i j => incomparable pop i j = true) f) /\
    (forall k k' f f' j, (k < k')%nat -> fronts' !! k = Some f -> fronts' !! k' = Some f' ->
       j ∈ f' -> exists i, i ∈ f /\ incomparable pop i j = false).
Proof.
  induction fuel as [|fuel IH]; intros q fronts fronts' Hall Hs H1 H2 H3.
  - destruct q; [|discriminate]. inversion Hs; subst. split; assumption.
  - destruct q as [|q0 q']; [inversion Hs; subst; split; assumption|].
    cbn [Sort_loop] in Hs.
    destruct (Sort_front_spec pop (length (q0 :: q')) (q0 :: q') [] [])
      as (front & dom & Hf & Hp & _); [lia|rewrite app_nil_r; exact Hall|].
    rewrite Hf in Hs. simpl in Hs. rewrite app_nil_r in Hp. simpl in Hp.
    destruct (Sort_front_fronts pop _ _ _ _ _ _ Hall Hf) as (Hord & _ & Hdom).
    { intros a b i j _ Ha. discriminate. }
    { intros i j Hi. inversion Hi. }
    assert (forall j, j ∈ front -> j ∈ q0 :: q') as Hfq.
    { intros j Hj. rewrite <- Hp. apply elem_of_app. left. exact Hj. }
    assert (forall j, j ∈ dom -> j ∈ q0 :: q') as Hdq.
    { intros j Hj. rewrite <- Hp. apply elem_of_app. right. exact Hj. }
    apply IH in Hs; [exact Hs| | | |].
    + apply Forall_forall. intros j Hj. rewrite sort_by_Permutation in Hj.
      rewrite Forall_forall in Hall. apply Hall, Hdq, Hj.
    + intros f Hfin. apply elem_of_app in Hfin as [Hfin|Hfin]; [apply H1; exact Hfin|].
      apply list_elem_of_singleton in Hfin. subst f. exact Hord.
    + intros k k' f f' j Hk Hfk Hfk' Hj.
      destruct (decide (k' < length fronts)%nat) as [Hlt|Hge].
      * rewrite lookup_app_l in Hfk by lia. rewrite lookup_app_l in Hfk' by lia.
        exact (H2 k k' f f' j Hk Hfk Hfk' Hj).
      * apply lookup_lt_Some in Hfk' as Hb. rewrite length_app in Hb. simpl in Hb.
        assert (k' = length fronts) by lia. subst k'.
        rewrite lookup_app_l in Hfk by lia.
        rewrite lookup_app_r, Nat.sub_diag in Hfk' by lia. inversion Hfk'; subst f'.
        apply (H3 f j); [apply list_elem_of_lookup; eauto|apply Hfq, Hj].
    + intros f j Hfin Hj. rewrite sort_by_Permutation in Hj.
      apply elem_of_app in Hfin as [Hfin|Hfin].
      * apply (H3 f j Hfin). apply Hdq, Hj.
      * apply list_elem_of_singleton in Hfin. subst f.
        destruct (Hdom j Hj) as [Hn|(_ & i & Hi & Hij)]; [inversion Hn|].
        exists i. split; assumption.
Qed.

Lemma Sort_fronts_valid pop fronts :
  Sort pop = Some fronts ->
  forall f i, f ∈ fronts -> i ∈ f -> (i < length pop)%nat.
Proof.
  intros Hs f i Hf Hi.
  destruct (Sort_loop_spec pop (length pop) (initial_queue pop) [])
    as (fronts0 & Hs0 & Hp & _).
  - unfold initial_queue. rewrite length_seq. lia.
  - unfold initial_queue. apply Forall_forall. intros j Hj.
    apply list_elem_of_In, in_seq in Hj. lia.
  - unfold Sort in Hs. rewrite Hs0 in Hs. inversion Hs; subst fronts0.
    simpl in Hp. assert (In i (concat fronts)) as Hin.
    { apply in_concat. exists f. split; apply list_elem_of_In; assumption. }
    apply (Permutation_in _ Hp), in_seq in Hin. lia.
Qed.

Lemma Sort_total pop : exists fronts, Sort pop = Some fronts.
Proof.
  destruct (Sort_loop_spec pop (length pop) (initial_queue pop) [])
    as (fronts & Hs & _).
  - unfold initial_queue. rewrite length_seq. lia.
  - unfold initial_queue. apply Forall_forall. intros j Hj.
    apply list_elem_of_In, in_seq in Hj. lia.
  - exists fronts. exact Hs.
Qed.

Lemma Sort_fronts pop fronts :
  Sort pop = Some fronts ->
  (forall f, f ∈ fronts -> ordered_pairs (fun i j => incomparable pop i j = true) f) /\
  (forall k k' f f' j, (k < k')%nat -> fronts !! k = Some f -> fronts !! k' = Some f' ->
     j ∈ f' -> exists i, i ∈ f /\ incomparable pop i j = false).
Proof.
  intros Hs. unfold Sort in Hs. apply Sort_loop_fronts in Hs; [exact Hs| | | |].
  - unfold initial_queue. apply Forall_forall. intros j Hj.
    apply list_elem_of_In, in_seq in Hj. lia.
  - intros f Hf. inversion Hf.
  - intros k k' f f' j _ Hk. discriminate.
  - intros f j Hf. inversion Hf.
Qed.

(** X20.  Inside a front no individual is comparable with a later one: the test of
    line 26 gave [Dominance::None] for every such pair. *)
Theorem Sort_front_members_incomparable (pop : list Individual) :
  exists fronts, Sort pop = Some fronts /\
    forall f a b i j x y, f ∈ fronts -> (a < b)%nat ->
      f !! a = Some i -> f !! b = Some j ->
      pop !! i = Some x -> pop !! j = Some y ->
      ParetoCompare x y = None_.
Proof.
  destruct (Sort_total pop) as [fronts Hs]. exists fronts. split; [exact Hs|].
  destruct (Sort_fronts pop fronts Hs) as [H1 _].
  intros f a b i j x y Hf Hab Ha Hb Hx Hy.
  pose proof (H1 f Hf a b i j Hab Ha Hb) as Hinc. unfold incomparable in Hinc.
  rewrite Hx, Hy in Hinc. destruct (ParetoCompare x y); try discriminate. reflexivity.
Qed.

(** X21.  An individual of a later front was rejected by a member of every earlier
    front: the two compared as [Left], [Right] or [Equal]. *)
Theorem Sort_later_front_rejected (pop : list Individual) :
  exists fronts, Sort pop = Some fronts /\
    forall k k' f f' j, (k < k')%nat ->
      fronts !! k = Some f -> fronts !! k' = Some f' -> j ∈ f' ->
      exists i x y, i ∈ f /\ pop !! i = Some x /\ pop !! j = Some y /\
                    ParetoCompare x y <> None_.
Proof.
  destruct (Sort_total pop) as [fronts Hs]. exists fronts. split; [exact Hs|].
  destruct (Sort_fronts pop fronts Hs) as [_ H2].
  intros k k' f f' j Hk Hf Hf' Hj.
  destruct (H2 k k' f f' j Hk Hf Hf' Hj) as (i & Hi & Hij).
  assert (f ∈ fronts) as Hfin by (apply list_elem_of_lookup; eauto).
  assert (f' ∈ fronts) as Hfin' by (apply list_elem_of_lookup; eauto).
  pose proof (Sort_fronts_valid pop fronts Hs f i Hfin Hi) as Hiv.
  pose proof (Sort_fronts_valid pop fronts Hs f' j Hfin' Hj) as Hjv.
  destruct (lookup_lt_is_Some_2 pop i Hiv) as [x Hx].
  destruct (lookup_lt_is_Some_2 pop j Hjv) as [y Hy].
  exists i, x, y. repeat split; try assumption.
  unfold incomparable in Hij. rewrite Hx, Hy in Hij.
  intros HN. rewrite HN in Hij. discriminate.
Qed.

Lemma Sort_front_prefix pop :
  forall fuel q front dominated front' dom',
    Sort_front fuel pop q front dominated = Some (front', dom') ->
    exists tl, front' = front ++ tl /\ (forall q1 q', q = q1 :: q' -> head tl = Some q1).
Proof.
  induction fuel as [|fuel IH]; intros q front dominated front' dom' Hs.
  - destruct q; [|discriminate]. inversion Hs; subst. exists [].
    rewrite app_nil_r. split; [reflexivity|]. intros; discriminate.
  - destruct q as [|q1 q'].
    + inversion Hs; subst. exists []. rewrite app_nil_r. split; [reflexivity|].
      intros; discriminate.
    + cbn [Sort_front] in Hs.
      destruct (Sort_scan (length q') pop q1 q' dominated 0) as [r|]; [|discriminate].
      simpl in Hs. apply IH in Hs as (tl & -> & _).
      exists (q1 :: tl). rewrite <- app_assoc. split; [reflexivity|].
      intros ? ? [= <- <-]. reflexivity.
Qed.

Lemma Sort_loop_prefix pop :
  forall fuel q fronts fronts',
    Sort_loop fuel pop q fronts = Some fronts' -> exists tl, fronts' = fronts ++ tl.
Proof.
  induction fuel as [|fuel IH]; intros q fronts fronts' Hs.
  - destruct q; [|discriminate]. inversion Hs. exists []. rewrite app_nil_r. reflexivity.
  - destruct q as [|q0 q'].
    + inversion Hs. exists []. rewrite app_nil_r. reflexivity.
    + cbn [Sort_loop] in Hs.
      destruct (Sort_front _ pop (q0 :: q') [] []) as [r|]; [|discriminate].
      simpl in Hs. apply IH in Hs as (tl & ->). exists (fst r :: tl).
      rewrite <- app_assoc. reflexivity.
Qed.

(** X22.  The first individual of the population opens the first front, whatever
    its fitness: it is taken from the queue before any comparison. *)
Theorem Sort_first_individual_in_first_front (pop : list Individual) :
  pop <> [] ->
  exists front fronts, Sort pop = Some ((0%nat :: front) :: fronts).
Proof.
  intros Hne. destruct (Sort_total pop) as [fronts Hs]. rewrite Hs.
  destruct pop as [|x pop]; [congruence|].
  unfold Sort, initial_queue in Hs. simpl length in Hs. cbn [seq Sort_loop] in Hs.
  destruct (Sort_front _ (x :: pop) (0%nat :: seq 1 (length pop)) [] []) as [[f d]|] eqn:Hf;
    [|discriminate].
  simpl in Hs. apply Sort_front_prefix in Hf as (tl & -> & Hhd).
  specialize (Hhd _ _ eq_refl). destruct tl as [|t tl]; [discriminate|].
  inversion Hhd; subst t. apply Sort_loop_prefix in Hs as (rest & ->).
  exists tl, rest. reflexivity.
Qed.


(** ** The proportional selector, in general *)

Lemma Prepare_collect_spec population idx : forall i acc vmin vmax l vmin' vmax',
  Prepare_collect population idx i (acc, vmin, vmax) = Some (l, vmin', vmax') ->
  (forall e, e ∈ acc -> (fst e <= vmax)%Q) ->
  map snd l = map snd acc ++ seq i (length population) /\
  (forall e, e ∈ l -> (fst e <= vmax')%Q).
Proof.
  induction population as [|ind rest IH]; intros i acc vmin vmax l vmin' vmax' Hc Hacc.
  - inversion Hc; subst. simpl. rewrite app_nil_r. split; [reflexivity|exact Hacc].
  - cbn [Prepare_collect] in Hc. destruct (Fitness ind !! idx) as [f|] eqn:Hf;
      [|discriminate]. simpl in Hc.
    apply IH in Hc as [Hs Hle].
    + split; [|exact Hle]. rewrite Hs, map_app. simpl. rewrite <- app_assoc. reflexivity.
    + intros e He. destruct (scalar_max_ge vmax f) as [H1 H2].
      apply elem_of_app in He as [He|He].
      * apply (Qle_trans _ vmax); [apply Hacc; exact He|exact H1].
      * apply list_elem_of_singleton in He. subst e. exact H2.
Qed.

Lemma nondecreasing_cons e l :
  (forall e', e' ∈ l -> (fst e <= fst e')%Q) -> nondecreasing l -> nondecreasing (e :: l).
Proof.
  intros Hhd Hl [|a] [|b] ea eb Hab Ha Hb; simpl in *; try lia.
  - inversion Ha; inversion Hb; subst. apply Qle_refl.
  - inversion Ha; subst. apply Hhd. apply list_elem_of_lookup. eauto.
  - apply (Hl a b); [lia|assumption|assumption].
Qed.

Lemma inclusive_scan_spec l : forall acc,
  (forall e, e ∈ l -> (0 <= fst e)%Q) ->
  map snd (inclusive_scan acc l) = map snd l /\
  (forall e, e ∈ inclusive_scan acc l -> (fst acc <= fst e)%Q) /\
  nondecreasing (inclusive_scan acc l).
Proof.
  induction l as [|rhs l IH]; intros acc Hpos.
  - simpl. split; [reflexivity|]. split; [intros e He; inversion He|].
    intros a b ea eb _ Ha. discriminate.
  - cbn [inclusive_scan]. cbv zeta.
    set (out := (scalar_add (fst acc) (fst rhs), snd rhs)).
    destruct (IH out) as (Hs & Hge & Hnd).
    { intros e He. apply Hpos. right. exact He. }
    assert (fst acc <= fst out)%Q as Hout.
    { unfold out. cbn [fst]. unfold scalar_add. rewrite Qred_correct.
      pose proof (Hpos rhs ltac:(left)) as H0. clear - H0.
      destruct acc as [x xi], rhs as [y yi]. cbn [fst] in *. unfold Scalar in *. lra. }
    split; [simpl; rewrite Hs; reflexivity|]. split.
    + intros e He. apply elem_of_cons in He as [->|He]; [exact Hout|].
      apply (Qle_trans _ (fst out)); [exact Hout|apply Hge; exact He].
    + apply nondecreasing_cons; [exact Hge|exact Hnd].
Qed.

Lemma Prepare_spec population idx fitness :
  Prepare population idx = Some fitness ->
  map snd fitness ≡ₚ seq 0 (length population) /\
  (forall e, e ∈ fitness -> (0 <= fst e)%Q) /\
  nondecreasing fitness /\ fitness <> [].
Proof.
  unfold Prepare. intros HP.
  destruct (population !! 0%nat) as [first|] eqn:Hfirst; [|discriminate]. simpl in HP.
  destruct (Fitness first !! idx) as [v0|] eqn:Hv0; [|discriminate]. simpl in HP.
  destruct (Prepare_collect population idx 0 ([], v0, v0)) as [[[l vmin] vmax]|] eqn:Hc;
    [|discriminate].
  simpl in HP. inversion HP as [HF]. clear HP.
  apply Prepare_collect_spec in Hc as [Hs Hle]; [|intros e He; inversion He].
  simpl in Hs.
  set (transformed := map (fun p : Scalar * nat => (scalar_sub vmax (fst p), snd p)) l)
    in *.
  assert (map snd transformed = seq 0 (length population)) as Hst.
  { unfold transformed. rewrite map_map. simpl. exact Hs. }
  assert (forall e, e ∈ transformed -> (0 <= fst e)%Q) as Hpos.
  { intros e He. unfold transformed in He. apply list_elem_of_In, in_map_iff in He
      as (p & <- & Hp). cbn [fst]. unfold scalar_sub. rewrite Qred_correct.
    pose proof (Hle p ltac:(apply list_elem_of_In; exact Hp)) as H0. clear - H0.
    destruct p as [x xi]. cbn [fst] in *. unfold Scalar in *. lra. }
  pose proof (sort_by_Permutation pair_less transformed) as Hperm.
  assert (forall e, e ∈ sort_by pair_less transformed -> (0 <= fst e)%Q) as Hpos'.
  { intros e He. apply Hpos. rewrite <- Hperm. exact He. }
  assert (map snd (sort_by pair_less transformed) ≡ₚ seq 0 (length population)) as Hps.
  { rewrite <- Hst. apply Permutation_map. exact Hperm. }
  destruct (sort_by pair_less transformed) as [|p0 rest] eqn:Hsorted.
  - exfalso. apply Permutation_length in Hps. simpl in Hps. rewrite length_seq in Hps.
    apply lookup_lt_Some in Hfirst. lia.
  - destruct (inclusive_scan_spec rest p0) as (Hsn & Hge & Hnd).
    { intros e He. apply Hpos'. right. exact He. }
    split; [simpl; rewrite Hsn; exact Hps|]. split; [|split; [|discriminate]].
    + intros e He. apply elem_of_cons in He as [->|He]; [apply Hpos'; left|].
      apply (Qle_trans _ (fst p0)); [apply Hpos'; left|apply Hge; exact He].
    + apply nondecreasing_cons; assumption.
Qed.

Lemma monotone_partition {A : Type} (pred : A -> bool) (l : list A) :
  (forall a b x y, (a <= b)%nat -> l !! a = Some x -> l !! b = Some y ->
     pred y = true -> pred x = true) ->
  exists k, (k <= length l)%nat /\
    (forall i x, (i < k)%nat -> l !! i = Some x -> pred x = true) /\
    (forall i x, (k <= i)%nat -> l !! i = Some x -> pred x = false).
Proof.
  induction l as [|z l IH]; intros Hmono.
  - exists 0%nat. split; [simpl; lia|]. split; intros i x _ Hx; discriminate.
  - destruct (pred z) eqn:Hz.
    + destruct IH as (k & Hk & Hlt & Hge).
      { intros a b x y Hab Ha Hb. apply (Hmono (S a) (S b)); [lia|exact Ha|exact Hb]. }
      exists (S k). split; [simpl; lia|]. split.
      * intros [|i] x Hi Hx; simpl in Hx; [inversion Hx; subst; exact Hz|].
        apply (Hlt i); [lia|exact Hx].
      * intros [|i] x Hi Hx; [lia|]. apply (Hge i); [lia|exact Hx].
    + exists 0%nat. split; [lia|]. split; [intros; lia|].
      intros i x _ Hx. destruct (pred x) eqn:Hp; [|reflexivity].
      rewrite (Hmono 0%nat i z x ltac:(lia) eq_refl Hx Hp) in Hz. discriminate.
Qed.

Lemma pair_less_key e u : pair_less e (u, 0%nat) = scalar_lt (fst e) u.
Proof.
  unfold pair_less. cbn [fst snd]. rewrite andb_false_r, orb_false_r. reflexivity.
Qed.

Lemma Select_spec fitness u back :
  nondecreasing fitness -> last fitness = Some back -> (u <= fst back)%Q ->
  exists k e, fitness !! k = Some e /\ Select fitness u = Some (snd e) /\
    (u <= fst e)%Q /\
    forall a ea, (a < k)%nat -> fitness !! a = Some ea -> (fst ea < u)%Q.
Proof.
  intros Hnd Hlast Hu.
  destruct (monotone_partition (fun e => pair_less e (u, 0%nat)) fitness)
    as (k & Hk & Hlt & Hge).
  { intros a b x y Hab Ha Hb. rewrite !pair_less_key, !scalar_lt_true. intros Hy.
    apply (Qle_lt_trans _ (fst y)); [exact (Hnd a b x y Hab Ha Hb)|exact Hy]. }
  assert (partition_point (fun e => pair_less e (u, 0%nat)) fitness = k) as Hpp.
  { unfold partition_point. apply (partition_point_loop_spec _ _ k Hlt Hge); lia. }
  rewrite last_lookup in Hlast. apply lookup_lt_Some in Hlast as Hpos.
  assert (k < length fitness)%nat as Hkl.
  { destruct (decide (k < length fitness)%nat) as [H|H]; [exact H|]. exfalso.
    assert (k = length fitness) by lia. subst k.
    pose proof (Hlt (pred (length fitness)) back ltac:(lia) Hlast) as Hb.
    rewrite pair_less_key in Hb. apply scalar_lt_true in Hb.
    apply (Qlt_not_le _ _ Hb Hu). }
  destruct (lookup_lt_is_Some_2 fitness k Hkl) as [e He].
  exists k, e. split; [exact He|]. split.
  { unfold Select.
    match goal with |- context [partition_point ?p ?l] =>
      replace (partition_point p l) with k by (symmetry; exact Hpp) end.
    rewrite He. reflexivity. }
  split.
  - pose proof (Hge k e ltac:(lia) He) as Hf. rewrite pair_less_key in Hf.
    apply scalar_lt_false in Hf. exact Hf.
  - intros a ea Ha Hea. pose proof (Hlt a ea Ha Hea) as Ht.
    rewrite pair_less_key in Ht. apply scalar_lt_true in Ht. exact Ht.
Qed.

(** X23.  What [Prepare] stores: the population's indices, each once, with running
    sums that are never negative and never decrease. *)
Theorem Prepare_prefix_sums (population : list Individual) (idx : nat)
  (fitness : list (Scalar * nat)) :
  Prepare population idx = Some fitness ->
  length fitness = length population /\
  map snd fitness ≡ₚ seq 0 (length population) /\
  (forall e, e ∈ fitness -> (0 <= fst e)%Q) /\
  nondecreasing fitness.
Proof.
  intros HP. destruct (Prepare_spec population idx fitness HP) as (Hp & Hpos & Hnd & _).
  split; [|split; [exact Hp|split; assumption]].
  apply Permutation_length in Hp. rewrite length_map, length_seq in Hp. exact Hp.
Qed.

(** X24.  After [Prepare], a draw that is not above the last running sum selects an
    individual of the population: the one stored with the first running sum
    that is not below the draw. *)
Theorem Prepare_Select_in_population (population : list Individual) (idx : nat)
  (fitness : list (Scalar * nat)) (u : Scalar) :
  Prepare population idx = Some fitness ->
  (forall back, last fitness = Some back -> (u <= fst back)%Q) ->
  exists k e, fitness !! k = Some e /\ Select fitness u = Some (snd e) /\
    (snd e < length population)%nat /\ (u <= fst e)%Q /\
    forall a ea, (a < k)%nat -> fitness !! a = Some ea -> (fst ea < u)%Q.
Proof.
  intros HP Hu. destruct (Prepare_spec population idx fitness HP) as (Hp & _ & Hnd & Hne).
  destruct (last fitness) as [back|] eqn:Hlast.
  - destruct (Select_spec fitness u back Hnd Hlast (Hu back eq_refl))
      as (k & e & He & Hs & Hue & Hlow).
    exists k, e. split; [exact He|]. split; [exact Hs|]. split; [|split; assumption].
    assert (snd e ∈ map snd fitness) as Hin.
    { apply list_elem_of_In, in_map, list_elem_of_In, list_elem_of_lookup. eauto. }
    rewrite Hp in Hin. apply list_elem_of_In, in_seq in Hin. lia.
  - apply last_None in Hlast. contradiction.
Qed.

(** ** The random dequeue of the probabilistic creator *)

Lemma insert_swap_Permutation {A : Type} (rest : list A) : forall j x y,
  rest !! j = Some y -> (y :: <[j := x]> rest) ≡ₚ (x :: rest).
Proof.
  induction rest as [|z rest IH]; intros j x y Hj; [discriminate|].
  destruct j as [|j]; simpl in *.
  - inversion Hj; subst. apply perm_swap.
  - rewrite (perm_swap z y), (perm_swap z x). constructor. apply IH. exact Hj.
Qed.

Section DequeueFacts.

Context {RG : Type} `{RandomSource RG}.

(** X25.  The random dequeue takes exactly one element out of the queue and keeps
    all the others. *)
Theorem random_dequeue_removes_one (q : list Z) (g : RG) :
  q <> [] ->
  exists t q' g', random_dequeue q g = Ok (t, q', g') /\
    (t :: q') ≡ₚ q /\ (length q' + 1 = length q)%nat.
Proof.
  intros Hne. destruct q as [|front rest]; [congruence|].
  unfold random_dequeue, gen_bind, gen_draw.
  pose proof (size_t_pred_length (front :: rest) Hne) as Hb.
  pose proof (uniform_int_range 0 (size_t (Z.of_nat (length (front :: rest)) - 1)) g
                ltac:(lia)) as Hr.
  destruct (uniform_int 0 (size_t (Z.of_nat (length (front :: rest)) - 1)) g)
    as [j g'] eqn:Hu.
  cbn [fst] in Hr. rewrite at_in_range by lia.
  destruct (lookup_lt_is_Some_2 (front :: rest) (Z.to_nat j)) as [qj Hqj]; [lia|].
  rewrite Hqj. unfold gen_ret. eexists _, _, _. split; [reflexivity|].
  destruct (Z.to_nat j) as [|j'] eqn:Ej.
  - simpl in Hqj. inversion Hqj; subst qj. simpl. split; [reflexivity|lia].
  - simpl in Hqj. simpl. split.
    + apply insert_swap_Permutation. exact Hqj.
    + rewrite length_insert. lia.
Qed.

End DequeueFacts.

(** ** The Jenkins generators *)

Lemma word_is_word z : is_word (Jsf64.word z).
Proof. unfold is_word, Jsf64.word. apply Z.mod_pos_bound. lia. Qed.

Lemma word_small z : is_word z -> Jsf64.word z = z.
Proof. unfold is_word, Jsf64.word. intros H. apply Z.mod_small. exact H. Qed.

Lemma rotl_is_word x k : is_word (Jsf64.rotl x k).
Proof. apply word_is_word. Qed.

Lemma is_word_testbit z : 0 <= z ->
  (is_word z <-> forall i, 64 <= i -> Z.testbit z i = false).
Proof.
  intros Hz. unfold is_word. split.
  - intros [_ H] i Hi. destruct (Z.eq_dec z 0) as [->|Hnz]; [apply Z.bits_0|].
    apply Z.bits_above_log2; [lia|].
    assert (Z.log2 z < 64); [|lia]. apply Z.log2_lt_pow2; [lia|]. exact H.
  - intros H. split; [exact Hz|].
    destruct (Z.eq_dec z 0) as [->|Hnz]; [lia|].
    destruct (Z.lt_ge_cases z 18446744073709551616) as [Hlt|Hge]; [exact Hlt|].
    exfalso. assert (64 <= Z.log2 z) as Hl.
    { change 64 with (Z.log2 18446744073709551616). apply Z.log2_le_mono. exact Hge. }
    pose proof (Z.bit_log2 z ltac:(lia)) as Hb. rewrite (H _ Hl) in Hb. discriminate.
Qed.

Lemma lxor_is_word x y : is_word x -> is_word y -> is_word (Z.lxor x y).
Proof.
  intros Hx Hy. assert (0 <= Z.lxor x y) as H0.
  { apply Z.lxor_nonneg. unfold is_word in *. lia. }
  apply is_word_testbit; [exact H0|]. intros i Hi. rewrite Z.lxor_spec.
  rewrite (proj1 (is_word_testbit x ltac:(unfold is_word in *; lia)) Hx i Hi).
  rewrite (proj1 (is_word_testbit y ltac:(unfold is_word in *; lia)) Hy i Hi).
  reflexivity.
Qed.

Lemma word_sub_add x y : is_word x -> Jsf64.word (Jsf64.word (x + y) - y) = x.
Proof.
  intros Hx. unfold Jsf64.word. rewrite Zminus_mod_idemp_l.
  replace (x + y - y) with x by lia. apply Z.mod_small. exact Hx.
Qed.

Lemma word_add_sub x y : is_word x -> Jsf64.word (Jsf64.word (x - y) + y) = x.
Proof.
  intros Hx. unfold Jsf64.word. rewrite Zplus_mod_idemp_l.
  replace (x - y + y) with x by lia. apply Z.mod_small. exact Hx.
Qed.

Lemma word_sub_sub x y : is_word x -> Jsf64.word (Jsf64.word (y + x) - y) = x.
Proof. intros Hx. rewrite Z.add_comm. apply word_sub_add. exact Hx. Qed.

(** X26.  [prng64] keeps the four words in range and can be run backwards: no two
    states have the same successor. *)
Theorem prng64_invertible (s : Jsf64.state) :
  state_ok s ->
  is_word (fst (Jsf64.prng64 s)) /\
  state_ok (snd (Jsf64.prng64 s)) /\
  prng64_inv (snd (Jsf64.prng64 s)) = s.
Proof.
  intros (Ha & Hb & Hc & Hd). destruct s as [a b c d]. simpl in *.
  unfold Jsf64.prng64. cbn [Jsf64.a Jsf64.b Jsf64.c Jsf64.d fst snd].
  set (e := Jsf64.word (a - Jsf64.rotl b 7)).
  set (a' := Z.lxor b (Jsf64.rotl c 13)).
  assert (is_word a') as Ha' by (apply lxor_is_word; [exact Hb|apply rotl_is_word]).
  split; [apply word_is_word|]. split.
  { unfold state_ok. cbn [Jsf64.a Jsf64.b Jsf64.c Jsf64.d].
    repeat split; try apply word_is_word; apply Ha'. }
  unfold prng64_inv. cbn [Jsf64.a Jsf64.b Jsf64.c Jsf64.d].
  assert (Jsf64.word (Jsf64.word (e + a') - a') = e) as He
    by (apply word_sub_add, word_is_word).
  rewrite He.
  assert (Jsf64.word (Jsf64.word (d + e) - e) = d) as Hd' by (apply word_sub_add, Hd).
  rewrite Hd'.
  assert (Jsf64.word (Jsf64.word (c + Jsf64.rotl d 37) - Jsf64.rotl d 37) = c) as Hc'
    by (apply word_sub_add, Hc).
  rewrite Hc'.
  assert (Z.lxor a' (Jsf64.rotl c 13) = b) as Hb'.
  { unfold a'. rewrite Z.lxor_assoc, Z.lxor_nilpotent, Z.lxor_0_r. reflexivity. }
  rewrite Hb'. unfold e. rewrite word_add_sub by exact Ha. reflexivity.
Qed.

Lemma prng64_invertible_witness :
  state_ok (Jsf64.seed 42) /\
  is_word (fst (Jsf64.prng64 (Jsf64.seed 42))) /\
  state_ok (snd (Jsf64.prng64 (Jsf64.seed 42))) /\
  prng64_inv (snd (Jsf64.prng64 (Jsf64.seed 42))) = Jsf64.seed 42.
Proof.
  assert (state_ok (Jsf64.seed 42)) as H
    by (vm_compute; repeat split; congruence).
  split; [exact H|]. apply (prng64_invertible (Jsf64.seed 42) H).
Defined.

(** X27.  [rotl] is the circular shift: bit [i] of the result is bit [i - k] of the
    operand, counted modulo 64. *)
Theorem rotl_is_rotation (x k i : Z) :
  is_word x -> 0 < k < 64 -> 0 <= i < 64 ->
  Z.testbit (Jsf64.rotl x k) i = Z.testbit x ((i - k) mod 64).
Proof.
  intros Hx Hk Hi. unfold Jsf64.rotl, Jsf64.word.
  change 18446744073709551616 with (2 ^ 64).
  rewrite Z.mod_pow2_bits_low by lia.
  rewrite Z.lor_spec, Z.shiftl_spec, Z.shiftr_spec by lia.
  destruct (Z.lt_ge_cases i k) as [Hlt|Hge].
  - rewrite (Z.testbit_neg_r x (i - k)) by lia. simpl.
    replace ((i - k) mod 64) with (i + (64 - k)); [reflexivity|].
    apply (Z.mod_unique_pos _ _ (-1)); lia.
  - rewrite (Z.mod_small (i - k)) by lia.
    rewrite (proj1 (is_word_testbit x ltac:(unfold is_word in *; lia)) Hx (i + (64 - k)))
      by lia.
    apply orb_false_r.
Qed.

Lemma rotl_is_rotation_witness :
  Z.testbit (Jsf64.rotl 4058668781 7) 3 = Z.testbit 4058668781 ((3 - 7) mod 64).
Proof.
  apply (rotl_is_rotation 4058668781 7 3); unfold is_word; lia.
Defined.

Lemma word32_is_word z : Jsf32.is_word (Jsf32.word z).
Proof. unfold Jsf32.is_word, Jsf32.word. apply Z.mod_pos_bound. lia. Qed.

Lemma is_word32_testbit z : 0 <= z ->
  (Jsf32.is_word z <-> forall i, 32 <= i -> Z.testbit z i = false).
Proof.
  intros Hz. unfold Jsf32.is_word. split.
  - intros [_ H] i Hi. destruct (Z.eq_dec z 0) as [->|Hnz]; [apply Z.bits_0|].
    apply Z.bits_above_log2; [lia|].
    assert (Z.log2 z < 32); [|lia]. apply Z.log2_lt_pow2; [lia|]. exact H.
  - intros H. split; [exact Hz|].
    destruct (Z.eq_dec z 0) as [->|Hnz]; [lia|].
    destruct (Z.lt_ge_cases z 4294967296) as [Hlt|Hge]; [exact Hlt|].
    exfalso. assert (32 <= Z.log2 z) as Hl.
    { change 32 with (Z.log2 4294967296). apply Z.log2_le_mono. exact Hge. }
    pose proof (Z.bit_log2 z ltac:(lia)) as Hb. rewrite (H _ Hl) in Hb. discriminate.
Qed.

Lemma lxor_is_word32 x y :
  Jsf32.is_word x -> Jsf32.is_word y -> Jsf32.is_word (Z.lxor x y).
Proof.
  intros Hx Hy. assert (0 <= Z.lxor x y) as H0.
  { apply Z.lxor_nonneg. unfold Jsf32.is_word in *. lia. }
  apply is_word32_testbit; [exact H0|]. intros i Hi. rewrite Z.lxor_spec.
  rewrite (proj1 (is_word32_testbit x ltac:(unfold Jsf32.is_word in *; lia)) Hx i Hi).
  rewrite (proj1 (is_word32_testbit y ltac:(unfold Jsf32.is_word in *; lia)) Hy i Hi).
  reflexivity.
Qed.

Lemma word32_sub_add x y :
  Jsf32.is_word x -> Jsf32.word (Jsf32.word (x + y) - y) = x.
Proof.
  intros Hx. unfold Jsf32.word. rewrite Zminus_mod_idemp_l.
  replace (x + y - y) with x by lia. apply Z.mod_small. exact Hx.
Qed.

Lemma word32_add_sub x y :
  Jsf32.is_word x -> Jsf32.word (Jsf32.word (x - y) + y) = x.
Proof.
  intros Hx. unfold Jsf32.word. rewrite Zplus_mod_idemp_l.
  replace (x - y + y) with x by lia. apply Z.mod_small. exact Hx.
Qed.

(** X28.  [prng32] keeps the four words in range and can be run backwards:
    no two states have the same successor. *)
Theorem prng32_invertible (s : Jsf32.state) :
  Jsf32.state_ok s ->
  Jsf32.is_word (fst (Jsf32.prng32 s)) /\
  Jsf32.state_ok (snd (Jsf32.prng32 s)) /\
  Jsf32.prng32_inv (snd (Jsf32.prng32 s)) = s.
Proof.
  intros (Ha & Hb & Hc & Hd). destruct s as [a b c d]. simpl in *.
  unfold Jsf32.prng32. cbn [Jsf32.a Jsf32.b Jsf32.c Jsf32.d fst snd].
  set (e := Jsf32.word (a - Jsf32.rotl b 27)).
  set (a' := Z.lxor b (Jsf32.rotl c 17)).
  assert (Jsf32.is_word a') as Ha'
    by (apply lxor_is_word32; [exact Hb|apply word32_is_word]).
  split; [apply word32_is_word|]. split.
  { unfold Jsf32.state_ok. cbn [Jsf32.a Jsf32.b Jsf32.c Jsf32.d].
    repeat split; try apply word32_is_word; apply Ha'. }
  unfold Jsf32.prng32_inv. cbn [Jsf32.a Jsf32.b Jsf32.c Jsf32.d].
  assert (Jsf32.word (Jsf32.word (e + a') - a') = e) as He
    by (apply word32_sub_add, word32_is_word).
  rewrite He.
  assert (Jsf32.word (Jsf32.word (d + e) - e) = d) as Hd' by (apply word32_sub_add, Hd).
  rewrite Hd'.
  assert (Jsf32.word (Jsf32.word (c + d) - d) = c) as Hc' by (apply word32_sub_add, Hc).
  rewrite Hc'.
  assert (Z.lxor a' (Jsf32.rotl c 17) = b) as Hb'.
  { unfold a'. rewrite Z.lxor_assoc, Z.lxor_nilpotent, Z.lxor_0_r. reflexivity. }
  rewrite Hb'. unfold e. rewrite word32_add_sub by exact Ha. reflexivity.
Qed.

Lemma prng32_invertible_witness :
  Jsf32.state_ok (Jsf32.mk 4058668781 3735928559 3735928559 3735928559) /\
  Jsf32.is_word (fst (Jsf32.prng32 (Jsf32.mk 4058668781 3735928559 3735928559 3735928559))) /\
  Jsf32.state_ok (snd (Jsf32.prng32 (Jsf32.mk 4058668781 3735928559 3735928559 3735928559))) /\
  Jsf32.prng32_inv (snd (Jsf32.prng32 (Jsf32.mk 4058668781 3735928559 3735928559 3735928559)))
    = Jsf32.mk 4058668781 3735928559 3735928559 3735928559.
Proof.
  assert (Jsf32.state_ok (Jsf32.mk 4058668781 3735928559 3735928559 3735928559)) as H
    by (unfold Jsf32.state_ok, Jsf32.is_word; simpl; lia).
  split; [exact H|]. apply (prng32_invertible _ H).
Defined.

(** ** Bit scanning *)

Lemma land_pow2_testbit block i : 0 <= i ->
  (Z.land block (2 ^ i) =? 0) = negb (Z.testbit block i).
Proof.
  intros Hi. destruct (Z.testbit block i) eqn:Hb; simpl.
  - apply Z.eqb_neq. intros H0.
    assert (Z.testbit (Z.land block (2 ^ i)) i = true) as Ht
      by (rewrite Z.land_spec, Hb, Z.pow2_bits_true by lia; reflexivity).
    rewrite H0, Z.bits_0 in Ht. discriminate.
  - apply Z.eqb_eq. apply Z.bits_inj'. intros j Hj.
    rewrite Z.land_spec, Z.bits_0. destruct (Z.eq_dec i j) as [<-|Hne].
    + rewrite Hb. reflexivity.
    + rewrite Z.pow2_bits_false by lia. apply andb_false_r.
Qed.

Lemma count_trailing_zeros_loop_spec bits block :
  0 < bits -> 0 < block < 2 ^ bits ->
  forall k i, 0 <= i -> i + Z.of_nat k = bits ->
    (forall j, 0 <= j < i -> Z.testbit block j = false) ->
    exists r, count_trailing_zeros_loop k bits block (2 ^ i) i = Some r /\
      i <= r < bits /\ Z.testbit block r = true /\
      forall j, 0 <= j < r -> Z.testbit block j = false.
Proof.
  intros Hbits Hblock. induction k as [|k IH]; intros i Hi Hk Hlow.
  - exfalso. assert (i = bits) by lia. subst i.
    assert (block = 0); [|lia]. apply Z.bits_inj'. intros j Hj. rewrite Z.bits_0.
    destruct (Z.lt_ge_cases j bits) as [Hlt|Hge]; [apply Hlow; lia|].
    apply Z.bits_above_log2; [lia|].
    assert (Z.log2 block < bits); [|lia]. apply Z.log2_lt_pow2; lia.
  - cbn [count_trailing_zeros_loop]. rewrite land_pow2_testbit by exact Hi.
    rewrite negb_involutive. destruct (Z.testbit block i) eqn:Hb.
    + exists i. split; [reflexivity|]. split; [lia|]. split; [exact Hb|exact Hlow].
    + assert (i + 1 < bits) as Hlt.
      { destruct (Z.lt_ge_cases (i + 1) bits) as [H|H]; [exact H|]. exfalso.
        assert (block = 0); [|lia]. apply Z.bits_inj'. intros j Hj. rewrite Z.bits_0.
        destruct (Z.eq_dec j i) as [->|Hne]; [exact Hb|].
        destruct (Z.lt_ge_cases j i) as [Hji|Hji]; [apply Hlow; lia|].
        apply Z.bits_above_log2; [lia|].
        assert (Z.log2 block < bits); [|lia]. apply Z.log2_lt_pow2; lia. }
      assert (Z.shiftl (2 ^ i) 1 mod 2 ^ bits = 2 ^ (i + 1)) as Hm.
      { rewrite Z.shiftl_mul_pow2 by lia. rewrite <- Z.pow_add_r by lia.
        apply Z.mod_small. split; [apply Z.pow_nonneg; lia|].
        apply Z.pow_lt_mono_r; lia. }
      rewrite Hm. destruct (IH (i + 1)) as (r & Hr & Hrb & Hrt & Hrl); [lia|lia| |].
      * intros j Hj. destruct (Z.eq_dec j i) as [->|Hne]; [exact Hb|apply Hlow; lia].
      * exists r. split; [exact Hr|]. split; [lia|]. split; assumption.
Qed.

(** X29.  For a block that is not zero the loop returns the position of its lowest
    set bit. *)
Theorem count_trailing_zeros_lowest_set_bit (bits_per_block block : Z) :
  0 < bits_per_block -> 0 < block < 2 ^ bits_per_block ->
  exists r, count_trailing_zeros bits_per_block block = Some r /\
    0 <= r < bits_per_block /\ Z.testbit block r = true /\
    (forall j, 0 <= j < r -> Z.testbit block j = false).
Proof.
  intros Hbits Hblock. unfold count_trailing_zeros.
  destruct (count_trailing_zeros_loop_spec bits_per_block block Hbits Hblock
              (Z.to_nat bits_per_block) 0 ltac:(lia) ltac:(lia) ltac:(intros; lia))
    as (r & Hr & Hrb & Hrt & Hrl).
  exists r. split; [exact Hr|]. split; [lia|]. split; assumption.
Qed.

Lemma count_trailing_zeros_lowest_set_bit_witness :
  exists r, count_trailing_zeros 64 40 = Some r /\
    0 <= r < 64 /\ Z.testbit 40 r = true /\
    (forall j, 0 <= j < r -> Z.testbit 40 j = false).
Proof. apply (count_trailing_zeros_lowest_set_bit 64 40); lia. Defined.

(** ** The histogram of the tests *)

Lemma foldl_Zmax_ge rest : forall v0,
  v0 <= foldl Z.max v0 rest /\ Forall (fun v => v <= foldl Z.max v0 rest) rest.
Proof.
  induction rest as [|v rest IH]; intros v0; simpl.
  - split; [lia|constructor].
  - destruct (IH (Z.max v0 v)) as [H1 H2]. split; [lia|].
    constructor; [lia|exact H2].
Qed.

Lemma lookup_repeat {A : Type} (x : A) n : forall k,
  (k < n)%nat -> repeat x n !! k = Some x.
Proof.
  induction n as [|n IH]; intros k Hk; [lia|]. destruct k as [|k]; [reflexivity|].
  simpl. apply IH. lia.
Qed.

Lemma CalculateHistogram_loop_spec n values : forall counts done,
  length counts = n ->
  Forall (fun v => 0 <= v < Z.of_nat n) values ->
  Z.of_nat (length (done ++ values)) < 18446744073709551616 ->
  (forall k, (k < n)%nat -> counts !! k = Some (occurrences (Z.of_nat k) done)) ->
  exists counts', CalculateHistogram_loop values counts = Some counts' /\
    length counts' = n /\
    forall k, (k < n)%nat -> counts' !! k = Some (occurrences (Z.of_nat k) (done ++ values)).
Proof.
  induction values as [|v rest IH]; intros counts done Hlen Hall Hsz Hinv.
  - exists counts. split; [reflexivity|]. split; [exact Hlen|]. rewrite app_nil_r. exact Hinv.
  - apply Forall_cons in Hall as [Hv Hall]. cbn [CalculateHistogram_loop].
    rewrite at_in_range by lia. rewrite (Hinv (Z.to_nat v)) by lia. simpl.
    rewrite Z2Nat.id by lia.
    replace (done ++ v :: rest) with ((done ++ [v]) ++ rest) in *
      by (rewrite <- app_assoc; reflexivity).
    apply IH; [rewrite length_insert; exact Hlen|exact Hall|exact Hsz|].
    intros k Hk.
    assert (occurrences (Z.of_nat k) (done ++ [v])
            = occurrences (Z.of_nat k) done + (if decide (v = Z.of_nat k) then 1 else 0))
      as Hocc.
    { unfold occurrences. rewrite filter_app, length_app, filter_cons, filter_nil.
      destruct (decide (v = Z.of_nat k)); simpl; lia. }
    rewrite Hocc. destruct (decide (v = Z.of_nat k)) as [->|Hne].
    + rewrite Nat2Z.id. rewrite list_lookup_insert_eq by lia. f_equal.
      unfold size_t. apply Z.mod_small.
      assert (occurrences (Z.of_nat k) done <= Z.of_nat (length done)).
      { unfold occurrences. apply inj_le. apply length_filter. }
      rewrite !length_app in Hsz. simpl in Hsz. unfold occurrences in *. lia.
    + rewrite list_lookup_insert_ne by lia. rewrite Hinv by exact Hk. f_equal. lia.
Qed.

(** X30.  The histogram has one counter for every value up to the largest, and
    counter [k] holds the number of times [k] occurs. *)
Theorem CalculateHistogram_counts (values : list Z) :
  values <> [] ->
  Forall (fun v => 0 <= v < 18446744073709551615) values ->
  Z.of_nat (length values) < 18446744073709551616 ->
  exists counts max, CalculateHistogram values = Some counts /\
    max ∈ values /\ Forall (fun v => v <= max) values /\
    Z.of_nat (length counts) = max + 1 /\
    forall k, 0 <= k <= max -> at_ counts k = Some (occurrences k values).
Proof.
  intros Hne Hall Hsz. destruct values as [|v0 rest]; [congruence|].
  set (values := v0 :: rest) in *. set (max := foldl Z.max v0 rest).
  destruct (foldl_Zmax_ge rest v0) as [H0 Hrest]. fold max in H0, Hrest.
  assert (max ∈ values) as Hin.
  { unfold max, values. clear. revert v0. induction rest as [|v rest IH]; intros v0.
    - left.
    - simpl. pose proof (IH (Z.max v0 v)) as Hm.
      apply elem_of_cons in Hm as [Hm|Hm].
      + rewrite Hm. destruct (Z.max_spec v0 v) as [[_ ->]|[_ ->]]; [right; left|left].
      + right. right. exact Hm. }
  assert (0 <= max < 18446744073709551615) as Hmax.
  { rewrite Forall_forall in Hall. apply Hall. exact Hin. }
  assert (size_t (max + 1) = max + 1) as Hs by (unfold size_t; apply Z.mod_small; lia).
  destruct (CalculateHistogram_loop_spec (Z.to_nat (max + 1)) values
              (repeat 0 (Z.to_nat (max + 1))) [])
    as (counts & Hc & Hl & Hk).
  - apply repeat_length.
  - apply Forall_forall. intros v Hv. rewrite Forall_forall in Hall.
    pose proof (Hall v Hv). assert (v <= max); [|lia].
    apply elem_of_cons in Hv as [->|Hv]; [exact H0|].
    rewrite Forall_forall in Hrest. apply Hrest, Hv.
  - exact Hsz.
  - intros k Hkn. rewrite lookup_repeat by exact Hkn. reflexivity.
  - exists counts, max. split.
    { change (CalculateHistogram values)
        with (CalculateHistogram_loop values (repeat 0 (Z.to_nat (size_t (max + 1))))).
      rewrite Hs. exact Hc. }
    split; [exact Hin|]. split; [constructor; assumption|]. split; [lia|].
    intros k Hkm. rewrite at_in_range by lia. rewrite (Hk (Z.to_nat k)) by lia.
    rewrite Z2Nat.id by lia. reflexivity.
Qed.

Lemma CalculateHistogram_counts_witness :
  exists counts max, CalculateHistogram [3; 1; 3; 0] = Some counts /\
    max ∈ [3; 1; 3; 0] /\ Forall (fun v => v <= max) [3; 1; 3; 0] /\
    Z.of_nat (length counts) = max + 1 /\
    forall k, 0 <= k <= max -> at_ counts k = Some (occurrences k [3; 1; 3; 0]).
Proof.
  apply (CalculateHistogram_counts [3; 1; 3; 0]);
    [discriminate|repeat constructor; lia|simpl; lia].
Defined.

(** ** The preconditions are met *)

Lemma Sort_first_individual_in_first_front_witness :
  exists front fronts,
    Sort [individual [2%Q; 2%Q]; individual [1%Q; 1%Q]] = Some ((0%nat :: front) :: fronts).
Proof.
  apply (Sort_first_individual_in_first_front
           [individual [2%Q; 2%Q]; individual [1%Q; 1%Q]]).
  discriminate.
Defined.

Lemma Calculator_feed_statistics_witness :
  [1%Q; 2%Q; 6%Q] <> [] /\
  (Calculator_Count (Calculator_feed [1%Q; 2%Q; 6%Q] Calculator_Reset)
     == Qlen [1%Q; 2%Q; 6%Q])%Q /\
  (Calculator_SumOfSquares (Calculator_feed [1%Q; 2%Q; 6%Q] Calculator_Reset)
     == Qssd [1%Q; 2%Q; 6%Q] (Qmean [1%Q; 2%Q; 6%Q]))%Q /\
  (exists m, Calculator_Mean (Calculator_feed [1%Q; 2%Q; 6%Q] Calculator_Reset) = Ok m /\
             (m == Qmean [1%Q; 2%Q; 6%Q])%Q) /\
  (exists v, Calculator_NaiveVariance (Calculator_feed [1%Q; 2%Q; 6%Q] Calculator_Reset)
               = Ok v /\
             (v == Qssd [1%Q; 2%Q; 6%Q] (Qmean [1%Q; 2%Q; 6%Q]) / Qlen [1%Q; 2%Q; 6%Q])%Q) /\
  ((1 < length [1%Q; 2%Q; 6%Q])%nat ->
   exists v, Calculator_SampleVariance (Calculator_feed [1%Q; 2%Q; 6%Q] Calculator_Reset)
               = Ok v /\
             (v == Qssd [1%Q; 2%Q; 6%Q] (Qmean [1%Q; 2%Q; 6%Q])
                   / (Qlen [1%Q; 2%Q; 6%Q] - 1))%Q).
Proof.
  split; [discriminate|]. apply (Calculator_feed_statistics [1%Q; 2%Q; 6%Q]). discriminate.
Defined.

Lemma Calculator_Combine_concat_witness :
  exists r,
    Calculator_Combine (Calculator_feed [1%Q; 2%Q] Calculator_Reset)
                       (Calculator_feed [6%Q] Calculator_Reset) = Ok r /\
    calc_eq r (Calculator_feed ([1%Q; 2%Q] ++ [6%Q]) Calculator_Reset).
Proof. apply (Calculator_Combine_concat [1%Q; 2%Q] [6%Q]); discriminate. Defined.

Lemma Calculator_Combine_comm_assoc_witness :
  (exists l r,
     Calculator_Combine (mkCalculator 0%Q 1%Q 1%Q) (mkCalculator 2%Q 4%Q 2%Q) = Ok l /\
     Calculator_Combine (mkCalculator 2%Q 4%Q 2%Q) (mkCalculator 0%Q 1%Q 1%Q) = Ok r /\
     calc_eq l r) /\
  (exists ab bc l r,
     Calculator_Combine (mkCalculator 0%Q 1%Q 1%Q) (mkCalculator 2%Q 4%Q 2%Q) = Ok ab /\
     Calculator_Combine (mkCalculator 2%Q 4%Q 2%Q) (mkCalculator 0%Q 5%Q 1%Q) = Ok bc /\
     Calculator_Combine ab (mkCalculator 0%Q 5%Q 1%Q) = Ok l /\
     Calculator_Combine (mkCalculator 0%Q 1%Q 1%Q) bc = Ok r /\
     calc_eq l r).
Proof.
  apply (Calculator_Combine_comm_assoc (mkCalculator 0%Q 1%Q 1%Q)
           (mkCalculator 2%Q 4%Q 2%Q) (mkCalculator 0%Q 5%Q 1%Q)); reflexivity.
Defined.

Lemma Calculator_Combine_empty_witness :
  Calculator_Combine (mkCalculator 2%Q 4%Q 2%Q) Calculator_Reset = Throw not_representable.
Proof.
  apply (Calculator_Combine_empty (mkCalculator 2%Q 4%Q 2%Q) Calculator_Reset).
  right. reflexivity.
Defined.

Lemma Calculator_Add_span_weighted_statistics_witness :
  exists r,
    Calculator_Add_span_weighted [1%Q; 2%Q; 6%Q] [2%Q; 0%Q; (1 # 2)%Q] Calculator_Reset
      = Ok r /\
    (Calculator_Count r == Qsum [2%Q; 0%Q; (1 # 2)%Q])%Q /\
    (calc_sum r == Qwsum [1%Q; 2%Q; 6%Q] [2%Q; 0%Q; (1 # 2)%Q])%Q /\
    ((0 < Qsum [2%Q; 0%Q; (1 # 2)%Q])%Q ->
       (Calculator_SumOfSquares r ==
          Qwsumsq [1%Q; 2%Q; 6%Q] [2%Q; 0%Q; (1 # 2)%Q]
          - Qwsum [1%Q; 2%Q; 6%Q] [2%Q; 0%Q; (1 # 2)%Q]
            * Qwsum [1%Q; 2%Q; 6%Q] [2%Q; 0%Q; (1 # 2)%Q]
            / Qsum [2%Q; 0%Q; (1 # 2)%Q])%Q /\
       exists m, Calculator_Mean r = Ok m /\
         (m == Qwsum [1%Q; 2%Q; 6%Q] [2%Q; 0%Q; (1 # 2)%Q]
               / Qsum [2%Q; 0%Q; (1 # 2)%Q])%Q).
Proof.
  apply (Calculator_Add_span_weighted_statistics [1%Q; 2%Q; 6%Q] [2%Q; 0%Q; (1 # 2)%Q]);
    [reflexivity|repeat constructor; discriminate].
Defined.

Lemma SetCoefficients_only_leaf_values_witness :
  exists nodes',
    SetCoefficients example_tree [(7 # 2)%Q; (-1)%Q; (1 # 3)%Q] = Some nodes' /\
    length nodes' = length example_tree /\
    forall i s, example_tree !! i = Some s ->
      exists s', nodes' !! i = Some s' /\ s' = set_Value s (Value s') /\
                 (IsLeaf s = false -> s' = s).
Proof.
  eexists. split; [reflexivity|].
  apply (SetCoefficients_only_leaf_values example_tree _ [(7 # 2)%Q; (-1)%Q; (1 # 3)%Q]).
  reflexivity.
Defined.

Lemma UpdateNodes_keeps_payload_witness :
  exists nodes', UpdateNodes example_tree = Some nodes' /\
    length nodes' = length example_tree /\
    (forall i s s', example_tree !! i = Some s -> nodes' !! i = Some s' ->
       Type_ s' = Type_ s /\ Arity s' = Arity s /\ HashValue s' = HashValue s /\
       CalculatedHashValue s' = CalculatedHashValue s /\ Value s' = Value s /\
       IsEnabled s' = IsEnabled s /\ Optimize s' = Optimize s) /\
    GetCoefficients nodes' = GetCoefficients example_tree.
Proof.
  eexists. split; [reflexivity|].
  apply (UpdateNodes_keeps_payload example_tree). reflexivity.
Defined.

Lemma UpdateNodes_Depth_over_children_witness :
  valid_postfix example_tree = true /\
  exists nodes', UpdateNodes example_tree = Some nodes' /\
    forall i s, nodes' !! i = Some s ->
      exists cs, ChildIndices nodes' i = Some cs /\
        Depth s = if IsLeaf s then 1 else uint16 (max_child_depth nodes' cs + 1).
Proof.
  split; [reflexivity|]. apply (UpdateNodes_Depth_over_children example_tree). reflexivity.
Defined.

Lemma UpdateNodes_Parent_of_children_witness :
  valid_postfix example_tree = true /\
  exists nodes', UpdateNodes example_tree = Some nodes' /\
    (forall q cs p, ChildIndices nodes' q = Some cs -> p ∈ cs ->
       exists s, nodes' !! p = Some s /\ Parent s = Z.of_nat q /\ (p < q)%nat) /\
    (forall p s, (p < length example_tree - 1)%nat -> nodes' !! p = Some s ->
       exists q cs, Parent s = Z.of_nat q /\ (p < q < length example_tree)%nat /\
         ChildIndices nodes' q = Some cs /\ p ∈ cs) /\
    (Parent <$> last nodes' = Parent <$> last example_tree).
Proof.
  split; [reflexivity|]. apply (UpdateNodes_Parent_of_children example_tree). reflexivity.
Defined.

Lemma UpdateNodes_Level_below_parent_witness :
  valid_postfix example_tree = true /\
  exists nodes', UpdateNodes example_tree = Some nodes' /\
    (exists root, last nodes' = Some root /\ Level root = 1) /\
    (forall p s, (p < length example_tree - 1)%nat -> nodes' !! p = Some s ->
       exists q t, Parent s = Z.of_nat q /\ (p < q < length example_tree)%nat /\
         nodes' !! q = Some t /\ Level s = uint16 (Level t + 1)).
Proof.
  split; [reflexivity|]. apply (UpdateNodes_Level_below_parent example_tree). reflexivity.
Defined.

Lemma UpdateNodes_idempotent_witness :
  valid_postfix example_tree = true /\
  exists nodes', UpdateNodes example_tree = Some nodes' /\
                 UpdateNodes nodes' = Some nodes'.
Proof.
  split; [reflexivity|]. apply (UpdateNodes_idempotent example_tree). reflexivity.
Defined.

Lemma Prepare_prefix_sums_witness :
  exists fitness,
    Prepare [individual [1%Q]; individual [2%Q]; individual [3%Q]] 0 = Some fitness /\
    length fitness = length [individual [1%Q]; individual [2%Q]; individual [3%Q]] /\
    map snd fitness
      ≡ₚ seq 0 (length [individual [1%Q]; individual [2%Q]; individual [3%Q]]) /\
    (forall e, e ∈ fitness -> (0 <= fst e)%Q) /\
    nondecreasing fitness.
Proof.
  eexists. split; [vm_compute; reflexivity|].
  apply (Prepare_prefix_sums [individual [1%Q]; individual [2%Q]; individual [3%Q]] 0%nat).
  vm_compute. reflexivity.
Defined.

Lemma Prepare_Select_in_population_witness :
  exists fitness,
    Prepare [individual [1%Q]; individual [2%Q]; individual [3%Q]] 0 = Some fitness /\
    (forall back, last fitness = Some back -> ((5 # 2) <= fst back)%Q) /\
    exists k e, fitness !! k = Some e /\ Select fitness (5 # 2)%Q = Some (snd e) /\
      (snd e < length [individual [1%Q]; individual [2%Q]; individual [3%Q]])%nat /\
      ((5 # 2) <= fst e)%Q /\
      forall a ea, (a < k)%nat -> fitness !! a = Some ea -> (fst ea < (5 # 2))%Q.
Proof.
  assert (Prepare [individual [1%Q]; individual [2%Q]; individual [3%Q]] 0
          = Some [(0%Q, 2%nat); (1%Q, 1%nat); (3%Q, 0%nat)]) as HP
    by (vm_compute; reflexivity).
  assert (forall back, last [(0%Q, 2%nat); (1%Q, 1%nat); (3%Q, 0%nat)] = Some back ->
            ((5 # 2) <= fst back)%Q) as Hu
    by (intros back [= <-]; vm_compute; discriminate).
  exists [(0%Q, 2%nat); (1%Q, 1%nat); (3%Q, 0%nat)].
  split; [exact HP|]. split; [exact Hu|].
  exact (Prepare_Select_in_population
           [individual [1%Q]; individual [2%Q]; individual [3%Q]] 0%nat
           [(0%Q, 2%nat); (1%Q, 1%nat); (3%Q, 0%nat)] (5 # 2)%Q HP Hu).
Defined.

Lemma random_dequeue_removes_one_witness :
  exists t q' g', random_dequeue [2; 3; 3; 4] (Jsf64.seed 7) = Ok (t, q', g') /\
    (t :: q') ≡ₚ [2; 3; 3; 4] /\ (length q' + 1 = length [2; 3; 3; 4])%nat.
Proof. apply (random_dequeue_removes_one [2; 3; 3; 4] (Jsf64.seed 7)). discriminate. Defined.

Lemma VariableNames_after_SetVariableNames_witness :
  exists d',
    SetVariableNames fnv1 ["u"; "v"; "w"]%string example_dataset = (inr tt, d') /\
    length (variables example_dataset) = length (columns (Values example_dataset)) /\
    VariableNames d' ≡ₚ ["u"; "v"; "w"]%string /\
    sorted_by hash_less (variables d') = true.
Proof.
  eexists. split; [vm_compute; reflexivity|]. split; [reflexivity|].
  apply (VariableNames_after_SetVariableNames fnv1 ["u"; "v"; "w"]%string example_dataset);
    vm_compute; reflexivity.
Defined.

Lemma SetVariableNames_binds_columns_witness :
  exists d',
    SetVariableNames fnv1 ["u"; "v"; "w"]%string example_dataset = (inr tt, d') /\
    NoDup (map fnv1 ["u"; "v"; "w"]%string) /\
    GetVariable fnv1 d' "v" = Some (mkVariable "v" (fnv1 "v") 1) /\
    exists col, columns (Values example_dataset) !! 1%nat = Some col /\
      GetValues fnv1 d' "v" = Ok col /\
      GetValues_index d' (Z.of_nat 1) = Ok col.
Proof.
  assert (NoDup (map fnv1 ["u"; "v"; "w"]%string)) as Hnd.
  { vm_compute. repeat constructor; rewrite ?elem_of_cons, ?elem_of_nil; intuition discriminate. }
  eexists. split; [vm_compute; reflexivity|]. split; [exact Hnd|].
  apply (SetVariableNames_binds_columns fnv1 ["u"; "v"; "w"]%string example_dataset);
    [vm_compute; reflexivity|reflexivity|exact Hnd|reflexivity].
Defined.

Lemma Normalize_range_unit_interval_witness :
  exists d' col',
    Normalize 1 (mkRange 0 2) example_dataset = (inr tt, d') /\
    variables d' = variables example_dataset /\
    columns (values d') = <[1%nat := col']> (columns (values example_dataset)) /\
    length col' = length [1%Q; 3%Q] /\
    (forall r x, (Start (mkRange 0 2) <= r < Start (mkRange 0 2) + Size (mkRange 0 2))%nat ->
       col' !! r = Some x -> (0 <= x <= 1)%Q) /\
    (exists r, (Start (mkRange 0 2) <= r < Start (mkRange 0 2) + Size (mkRange 0 2))%nat /\
       col' !! r = Some 0%Q) /\
    (exists r, (Start (mkRange 0 2) <= r < Start (mkRange 0 2) + Size (mkRange 0 2))%nat /\
       col' !! r = Some 1%Q).
Proof.
  apply (Normalize_range_unit_interval 1 (mkRange 0 2) example_dataset
           [1%Q; 3%Q] 0 1 1%Q 3%Q);
    try reflexivity; try (vm_compute; lia); try discriminate.
Defined.

Lemma Standardize_centres_range_witness :
  exists d' col',
    Standardize 0 (mkRange 0 2) example_dataset = (inr tt, d') /\
    variables d' = variables example_dataset /\
    columns (values d') = <[0%nat := col']> (columns (values example_dataset)) /\
    length col' = length [0%Q; 4%Q] /\
    (Qsum (segment col' (Start (mkRange 0 2)) (Size (mkRange 0 2))) == 0)%Q.
Proof.
  apply (Standardize_centres_range 0 (mkRange 0 2) example_dataset
           [0%Q; 4%Q] 0 1 0%Q 4%Q);
    try reflexivity; try (vm_compute; lia); try discriminate.
Defined.

Lemma Shuffle_permutes_rows_witness :
  exists random' d',
    Shuffle (Jsf64.seed 5) example_dataset = (inr random', d') /\
    variables d' = variables example_dataset /\
    rows (values d') = rows (values example_dataset) /\
    length (columns (values d')) = length (columns (values example_dataset)) /\
    exists indices, indices ≡ₚ seq 0 (rows (values example_dataset)) /\
      forall j col, columns (values example_dataset) !! j = Some col ->
        exists col', columns (values d') !! j = Some col' /\ col' ≡ₚ col /\
          forall i t, indices !! i = Some t -> col' !! t = col !! i.
Proof.
  eexists _, _. split; [vm_compute; reflexivity|].
  eapply (Shuffle_permutes_rows (Jsf64.seed 5)).
  - vm_compute. reflexivity.
  - vm_compute. first [reflexivity | apply perm_swap].
  - repeat constructor.
Defined.
